(** * AITeluguPosterGen: the poster text-layout engine

    A shallow embedding of the text-composition code of
    [telugu-poster-generator-ui-dev-package/App.tsx] ([wrapText] and
    [drawImageWithTextOverlay]) and of the language-preference validation of
    [services/geminiService.ts] ([extractPosterDetailsFromPrompt]).

    Conventions of the embedding:
    - a JavaScript string is the list of its UTF-16 code units;
    - a JavaScript number is an exact rational ([Q]); the rounding of IEEE
      doubles is not modelled, and equalities between numbers are stated up
      to [Qeq];
    - the 2D context is a record holding the drawing state the code sets and
      the list of paint operations issued so far; the browser's
      [measureText(s).width] is a function of the current font and of the
      string, over which the development is parametric;
    - the promise returned by [drawImageWithTextOverlay] is modelled by its
      settlement: [Resolved v] or [Rejected e]. *)

From Stdlib Require Import List Bool Arith NArith ZArith QArith Qminmax Lia Lqa.
From Stdlib Require Import Ascii String.
Import ListNotations.

Local Open Scope Q_scope.

(** ** JavaScript strings *)

Module JS.

(** A string is the sequence of its UTF-16 code units. *)
Definition jsstring := list N.

Definition space : N := 32%N.

(** The code units of a Rocq string literal (one unit per byte), to write
    concrete texts. *)
Fixpoint lit (s : String.string) : jsstring :=
  match s with
  | EmptyString => []
  | String c s' => N_of_ascii c :: lit s'
  end.

(** A string is truthy when it is not the empty string. *)
Definition truthy (s : jsstring) : bool :=
  match s with
  | [] => false
  | _ :: _ => true
  end.

(** [s.split(' ')]: the maximal runs between separators; the empty string
    splits into one empty word. *)
Fixpoint split_space (s : jsstring) : list jsstring :=
  match s with
  | [] => [[]]
  | c :: s' =>
      if N.eqb c space then [] :: split_space s'
      else match split_space s' with
           | w :: ws => (c :: w) :: ws
           | [] => [[c]]
           end
  end.

(** [lines.join(' ')]. *)
Fixpoint join_space (ls : list jsstring) : jsstring :=
  match ls with
  | [] => []
  | [l] => l
  | l :: ls' => l ++ space :: join_space ls'
  end.

(** ECMAScript WhiteSpace and LineTerminator code points, all of them in the
    Basic Multilingual Plane: what [String.prototype.trim] strips. *)
Definition is_whitespace (c : N) : bool :=
  (N.leb 9 c && N.leb c 13)
  || N.eqb c 32 || N.eqb c 160 || N.eqb c 5760
  || (N.leb 8192 c && N.leb c 8202)
  || N.eqb c 8232 || N.eqb c 8233 || N.eqb c 8239 || N.eqb c 8287
  || N.eqb c 12288 || N.eqb c 65279.

Fixpoint trim_start (s : jsstring) : jsstring :=
  match s with
  | [] => []
  | c :: s' => if is_whitespace c then trim_start s' else s
  end.

Definition trim (s : jsstring) : jsstring :=
  rev (trim_start (rev (trim_start s))).

(** [a > b] and [a <= b] on numbers. *)
Definition gt (a b : Q) : bool := negb (Qle_bool a b).
Definition le (a b : Q) : bool := Qle_bool a b.

(** An array length as a number. *)
Definition len {A : Type} (l : list A) : Q := inject_Z (Z.of_nat (List.length l)).

End JS.

Import JS.

(** ** The 2D drawing context *)

Inductive FontFamily : Type :=
| InterArialSansSerif     (* "Inter, Arial, sans-serif" *)
| NotoSansTelugu          (* "'Noto Sans Telugu', sans-serif" *)
| DefaultSansSerif.       (* the context's initial "10px sans-serif" *)

(** [ctx.font]: the code only ever sets bold fonts of a given pixel size. *)
Record Font : Type := mkFont {
  fontBold : bool;
  fontSizePx : Q;
  fontFamily : FontFamily
}.

Inductive Color : Type := White | Black | ShadowBlack70 | Transparent.

(** The drawing state the code writes before painting. *)
Record Style : Type := mkStyle {
  font : Font;
  fillStyle : Color;
  strokeStyle : Color;
  lineWidth : Q;
  shadowColor : Color;
  shadowBlur : Q;
  shadowOffsetX : Q;
  shadowOffsetY : Q;
  textAlignCenter : bool;
  textBaselineMiddle : bool
}.

(** A loaded image: its source and its natural pixel size. *)
Record Image : Type := mkImage {
  imgSrc : jsstring;
  imgWidth : N;
  imgHeight : N
}.

(** A paint operation, with the drawing state in force when it is issued. *)
Inductive DrawOp : Type :=
| DrawImage (img : Image) (x y : Q)
| StrokeText (st : Style) (text : jsstring) (x y : Q)
| FillText (st : Style) (text : jsstring) (x y : Q).

Record CanvasRenderingContext2D : Type := mkCtx {
  style : Style;
  painted : list DrawOp
}.

Definition set_font (f : Font) (c : CanvasRenderingContext2D) : CanvasRenderingContext2D :=
  mkCtx (mkStyle f (fillStyle (style c)) (strokeStyle (style c)) (lineWidth (style c))
           (shadowColor (style c)) (shadowBlur (style c)) (shadowOffsetX (style c))
           (shadowOffsetY (style c)) (textAlignCenter (style c)) (textBaselineMiddle (style c)))
        (painted c).

Definition set_text (fill stroke : Color) (width : Q) (c : CanvasRenderingContext2D)
    : CanvasRenderingContext2D :=
  mkCtx (mkStyle (font (style c)) fill stroke width
           (shadowColor (style c)) (shadowBlur (style c)) (shadowOffsetX (style c))
           (shadowOffsetY (style c)) (textAlignCenter (style c)) (textBaselineMiddle (style c)))
        (painted c).

Definition set_shadow (color : Color) (blur offX offY : Q) (c : CanvasRenderingContext2D)
    : CanvasRenderingContext2D :=
  mkCtx (mkStyle (font (style c)) (fillStyle (style c)) (strokeStyle (style c))
           (lineWidth (style c)) color blur offX offY
           (textAlignCenter (style c)) (textBaselineMiddle (style c)))
        (painted c).

Definition set_align (center middle : bool) (c : CanvasRenderingContext2D)
    : CanvasRenderingContext2D :=
  mkCtx (mkStyle (font (style c)) (fillStyle (style c)) (strokeStyle (style c))
           (lineWidth (style c)) (shadowColor (style c)) (shadowBlur (style c))
           (shadowOffsetX (style c)) (shadowOffsetY (style c)) center middle)
        (painted c).

(** The state of a context after its canvas is resized: assigning
    [canvas.width] or [canvas.height] clears the bitmap and resets the
    drawing state to its defaults. *)
Definition reset_ctx : CanvasRenderingContext2D :=
  mkCtx (mkStyle (mkFont false 10 DefaultSansSerif) Black Black 1 Transparent 0 0 0 false false) [].

Definition paint (op : DrawOp) (c : CanvasRenderingContext2D) : CanvasRenderingContext2D :=
  mkCtx (style c) (painted c ++ [op]).

Section Layout.

(** [measureText f s]: the width [context.measureText(s).width] when
    [context.font] is [f]. *)
Variable measureText : Font -> jsstring -> Q.

(** ** wrapText (App.tsx, lines 40-67) *)

(** One turn of the [for] loop over the words: the state is the pair of
    [lines] and [currentLine]. *)
Definition wrap_step (context : CanvasRenderingContext2D) (maxWidth : Q)
    (st : list jsstring * jsstring) (word : jsstring) : list jsstring * jsstring :=
  let '(lines, currentLine) := st in
  let testLine := if truthy currentLine then currentLine ++ space :: word else word in
  let testWidth := measureText (font (style context)) testLine in
  if gt testWidth maxWidth && truthy currentLine
  then (lines ++ [currentLine], word)
  else (lines, testLine).

Definition wrapText (context : CanvasRenderingContext2D) (text : jsstring) (maxWidth : Q)
    : list jsstring :=
  if negb (truthy text) then []
  else
    let words := split_space text in
    let '(lines, currentLine) := fold_left (wrap_step context maxWidth) words ([], []) in
    if truthy currentLine then lines ++ [currentLine] else lines.

(** ** drawImageWithTextOverlay (App.tsx, lines 127-279) *)

(** [engText && engText.trim() !== ''], as a condition. *)
Definition hasText (t : jsstring) : bool := truthy t && truthy (trim t).

(** The layout constants computed from the canvas size. *)
Definition textMaxWidth (canvasWidth : Q) : Q := canvasWidth * 0.85.
Definition textX (canvasWidth : Q) : Q := canvasWidth / 2.
Definition availableHeightForText (canvasHeight : Q) : Q := canvasHeight * 0.85.
Definition minFontSize (canvasWidth : Q) : Q := Qmax 8 (canvasWidth / 70).
Definition interTextPadding (canvasHeight : Q) : Q := Qmax 15 (canvasHeight * 0.03).

Definition maxIterations : nat := 20.

Definition englishFont (size : Q) : Font := mkFont true size InterArialSansSerif.
Definition teluguFont (size : Q) : Font := mkFont true size NotoSansTelugu.

(** The local variables of the [onload] callback that the fit loop and the
    painting code read and write, the context, and the console warnings. *)
Record Fit : Type := mkFit {
  englishFontSize : Q;
  teluguFontSize : Q;
  englishLines : list jsstring;
  teluguLines : list jsstring;
  englishLineHeight : Q;
  teluguLineHeight : Q;
  englishBlockHeight : Q;
  teluguBlockHeight : Q;
  ctx : CanvasRenderingContext2D;
  warnings : nat
}.

Section Overlay.

Variables engText telText : jsstring.
(** [canvas.width] and [canvas.height], as numbers. *)
Variables canvasWidth canvasHeight : Q.

Definition hasEnglish : bool := hasText engText.
Definition hasTelugu : bool := hasText telText.

(** Lines 171-190 and again lines 204-219: the line heights, then each block
    wrapped at its current font size, or emptied when its text is absent. *)
Definition measure_blocks (s : Fit) : Fit :=
  let elh := englishFontSize s * 1.2 in
  let tlh := teluguFontSize s * 1.2 in
  let c0 := ctx s in
  let '(c1, el, ebh) :=
    if hasEnglish then
      let c := set_font (englishFont (englishFontSize s)) c0 in
      let ls := wrapText c engText (textMaxWidth canvasWidth) in
      (c, ls, len ls * elh)
    else (c0, [], 0) in
  let '(c2, tl, tbh) :=
    if hasTelugu then
      let c := set_font (teluguFont (teluguFontSize s)) c1 in
      let ls := wrapText c telText (textMaxWidth canvasWidth) in
      (c, ls, len ls * tlh)
    else (c1, [], 0) in
  mkFit (englishFontSize s) (teluguFontSize s) el tl elh tlh ebh tbh c2 (warnings s).

(** [totalTextHeight] (lines 192-194), computed in the loop. *)
Definition totalTextHeight (s : Fit) : Q :=
  englishBlockHeight s
  + (if hasEnglish && hasTelugu && gt (len (englishLines s)) 0 && gt (len (teluguLines s)) 0
     then interTextPadding canvasHeight else 0)
  + teluguBlockHeight s.

(** Lines 199-200: the two guarded shrinks. *)
Definition shrink (has : bool) (size : Q) : Q :=
  if has && gt size (minFontSize canvasWidth)
  then Qmax (minFontSize canvasWidth) (size * 0.9)
  else size.

Inductive LoopStep : Type :=
| Break (s : Fit)
| Continue (s : Fit).

(** The body of the [for] loop at index [i] (lines 171-201). *)
Definition fit_body (i : nat) (s : Fit) : LoopStep :=
  let s1 := measure_blocks s in
  if le (totalTextHeight s1) (availableHeightForText canvasHeight) then Break s1
  else if le (englishFontSize s1) (minFontSize canvasWidth)
          && le (teluguFontSize s1) (minFontSize canvasWidth) then Break s1
  else
    Continue
      (mkFit (shrink hasEnglish (englishFontSize s1))
             (shrink hasTelugu (teluguFontSize s1))
             (englishLines s1) (teluguLines s1)
             (englishLineHeight s1) (teluguLineHeight s1)
             (englishBlockHeight s1) (teluguBlockHeight s1)
             (ctx s1)
             (if Nat.eqb i (maxIterations - 1) then S (warnings s1) else warnings s1)).

(** [for (let i = 0; i < maxIterations; i++)], from index [i] with
    [fuel = maxIterations - i] turns left. *)
Fixpoint fit_loop (fuel i : nat) (s : Fit) : Fit :=
  match fuel with
  | O => s
  | S fuel' =>
      match fit_body i s with
      | Break s' => s'
      | Continue s' => fit_loop fuel' (S i) s'
      end
  end.

(** The same loop, recording the state after each executed body: one entry
    per iteration. *)
Fixpoint fit_trace (fuel i : nat) (s : Fit) : list Fit :=
  match fuel with
  | O => []
  | S fuel' =>
      match fit_body i s with
      | Break s' => [s']
      | Continue s' => s' :: fit_trace fuel' (S i) s'
      end
  end.

(** The state on entry to the loop (lines 159-167). *)
Definition fit_init (imgW imgH : Q) (c : CanvasRenderingContext2D) : Fit :=
  mkFit (Qmax (minFontSize canvasWidth) (Qmin (imgW / 18) (imgH / 15)))
        (Qmax (minFontSize canvasWidth) (Qmin (imgW / 16) (imgH / 12)))
        [] [] 0 0 0 0 c O.

(** The font-fit solver: the loop, then the final re-wrap (lines 159-219). *)
Definition solve (imgW imgH : Q) (c : CanvasRenderingContext2D) : Fit :=
  measure_blocks (fit_loop maxIterations 0 (fit_init imgW imgH c)).

(** The [for] loop painting one block (lines 238-242 and 257-261): line [i]
    of [n] is stroked, then filled, at
    [currentY - ((n - 1) / 2 - i) * lineHeight]. *)
Fixpoint draw_lines (i : nat) (n : Q) (lines : list jsstring) (currentY lineHeight : Q)
    (c : CanvasRenderingContext2D) : CanvasRenderingContext2D :=
  match lines with
  | [] => c
  | l :: rest =>
      let lineY := currentY - ((n - 1) / 2 - inject_Z (Z.of_nat i)) * lineHeight in
      let c1 := paint (StrokeText (style c) l (textX canvasWidth) lineY) c in
      let c2 := paint (FillText (style c1) l (textX canvasWidth) lineY) c1 in
      draw_lines (S i) n rest currentY lineHeight c2
  end.

(** [totalActualTextHeight] (lines 221-223), computed before painting. *)
Definition totalActualTextHeight (s : Fit) : Q :=
  englishBlockHeight s
  + (if hasEnglish && hasTelugu && gt (len (englishLines s)) 0 && gt (len (teluguLines s)) 0
     then interTextPadding canvasHeight else 0)
  + teluguBlockHeight s.

(** The vertical layout compositor (lines 221-267), from the solved state. *)
Definition compose (s : Fit) : CanvasRenderingContext2D :=
  let currentY := (canvasHeight - totalActualTextHeight s) / 2 in
  let c := set_shadow ShadowBlack70 (Qmax 3 (canvasWidth / 250))
             (Qmax 1 (canvasWidth / 400)) (Qmax 1 (canvasWidth / 400)) (ctx s) in
  let hasTeluguLines := hasTelugu && gt (len (teluguLines s)) 0 in
  let '(c, currentY) :=
    if hasEnglish && gt (len (englishLines s)) 0 then
      let c := set_font (englishFont (englishFontSize s)) c in
      let c := set_text White Black (Qmax 1 (Qmin 4 (englishFontSize s / 18))) c in
      let currentY := currentY + englishBlockHeight s / 2 in
      let c := draw_lines 0 (len (englishLines s)) (englishLines s) currentY
                 (englishLineHeight s) c in
      (c, currentY + (englishBlockHeight s / 2
                      + (if hasTeluguLines then interTextPadding canvasHeight else 0)))
    else if hasTeluguLines then (c, currentY + teluguBlockHeight s / 2)
    else (c, currentY) in
  let c :=
    if hasTeluguLines then
      let c := set_font (teluguFont (teluguFontSize s)) c in
      let c := set_text White Black (Qmax 1 (Qmin 4 (teluguFontSize s / 18))) c in
      let currentY :=
        if negb hasEnglish || Nat.eqb (List.length (englishLines s)) 0 then currentY
        else currentY + teluguBlockHeight s / 2 in
      draw_lines 0 (len (teluguLines s)) (teluguLines s) currentY (teluguLineHeight s) c
    else c in
  set_shadow Transparent 0 0 0 c.

End Overlay.

(** *** The orchestrator *)

(** The canvas element behind [canvasRef.current]: its 2D context, when
    [getContext('2d')] yields one. *)
Record HTMLCanvasElement : Type := mkCanvas {
  width : N;
  height : N;
  getContext2d : option CanvasRenderingContext2D
}.

(** What [canvas.toDataURL('image/png')] encodes: the bitmap, given by its
    size and the paint operations issued since it was last cleared. *)
Inductive DataURL : Type :=
| PngDataURL (w h : N) (bitmap : list DrawOp).

Inductive OverlayError : Type :=
| CanvasElementNotFound      (* 'Canvas element not found' *)
| FailedToGetCanvasContext   (* 'Failed to get canvas context' *)
| FailedToLoadBaseImage.     (* 'Failed to load base image.' *)

(** The settlement of the returned promise. *)
Inductive Settlement : Type :=
| Resolved (url : DataURL)
| Rejected (e : OverlayError).

Definition num (n : N) : Q := inject_Z (Z.of_N n).

(** The [onload] callback (lines 143-270): the final context and the
    solved state. *)
Definition onload (img : Image) (engText telText : jsstring) : Fit * CanvasRenderingContext2D :=
  let w := num (imgWidth img) in
  let h := num (imgHeight img) in
  let c := paint (DrawImage img 0 0) reset_ctx in
  let c := set_align true true c in
  let s := solve engText telText w h w h c in
  (s, compose engText telText w h s).

(** [canvasRefCurrent] is [canvasRef.current]; [load] is the outcome of
    loading [baseImageUrl]: the image handed to [onload], or [None] when
    [onerror] fires.  Exactly one of the two callbacks is taken to fire, and
    [canvas.toDataURL] to succeed (the image is loaded with
    [crossOrigin = 'anonymous']). *)
Definition drawImageWithTextOverlay
    (canvasRefCurrent : option HTMLCanvasElement)
    (load : jsstring -> option Image)
    (baseImageUrl engText telText : jsstring) : Settlement :=
  match canvasRefCurrent with
  | None => Rejected CanvasElementNotFound
  | Some canvas =>
      match getContext2d canvas with
      | None => Rejected FailedToGetCanvasContext
      | Some _ =>
          match load baseImageUrl with
          | None => Rejected FailedToLoadBaseImage
          | Some img =>
              let '(_, c) := onload img engText telText in
              Resolved (PngDataURL (imgWidth img) (imgHeight img) (painted c))
          end
      end
  end.

End Layout.


(** ** extractPosterDetailsFromPrompt (services/geminiService.ts, lines 70-206) *)

Inductive LanguagePreference : Type := english | telugu | both.

Record PosterDetails : Type := mkPosterDetails {
  theme : jsstring;
  englishText : jsstring;
  teluguText : jsstring
}.

(** The value of a property of the parsed response, as far as
    [typeof v !== 'string'] tells: a string, or anything else
    ([undefined] included). *)
Inductive JsonField : Type :=
| FString (s : jsstring)
| FOther.

(** The outcome of [JSON.parse]: a syntax error, [null] (reading a property
    of it throws), or a value with its [theme], [englishText] and
    [teluguText] properties. *)
Inductive Parsed : Type :=
| ParseSyntaxError
| ParsedNull
| ParsedValue (theme englishText teluguText : JsonField).

(** The outcome of [ai.models.generateContent]: a response with its text,
    or a thrown value ([isError]: whether it is an [Error] instance). *)
Inductive ProviderOutcome : Type :=
| ResponseText (text : jsstring)
| Thrown (isError : bool) (message : jsstring).

Inductive ServiceError : Type :=
| InvalidApiKey                          (* "Invalid or incorrectly configured Gemini API Key. ..." *)
| GeminiApiFailed (message : jsstring)   (* "Gemini API failed during creative content generation: ..." *)
| UnknownError.                          (* "An unknown error occurred ..." *)

Inductive Outcome (A : Type) : Type :=
| Returned (a : A)
| Threw (e : ServiceError).
Arguments Returned {A} a.
Arguments Threw {A} e.

Definition is_empty (s : jsstring) : bool := negb (truthy s).

(** Lines 178-186: the fields forbidden by the language preference are
    overwritten with the empty string. *)
Definition enforceLanguagePreference (languagePreference : LanguagePreference)
    (parsedData : PosterDetails) : PosterDetails :=
  let parsedData :=
    match languagePreference with
    | english =>
        if negb (is_empty (teluguText parsedData))
        then mkPosterDetails (theme parsedData) (englishText parsedData) []
        else parsedData
    | _ => parsedData
    end in
  match languagePreference with
  | telugu =>
      if negb (is_empty (englishText parsedData))
      then mkPosterDetails (theme parsedData) [] (teluguText parsedData)
      else parsedData
  | _ => parsedData
  end.

Section GeminiService.

(** [fenceBody s]: the second group of the Markdown-fence regular
    expression on [s], when it matches and the group is not empty. *)
Variable fenceBody : jsstring -> option jsstring.
(** [JSON.parse]. *)
Variable JSON_parse : jsstring -> Parsed.
(** Whether an error message is one of those the outer [catch] reports as
    an API-key problem (lines 199). *)
Variable mentionsApiKey : jsstring -> bool.

(** The message of the error thrown by the inner [catch] (line 193). *)
Definition notValidJson : jsstring :=
  lit "AI response for poster content was not valid JSON. Please try again.".

(** The outer [catch] (lines 196-205) on a thrown [Error] with [message]. *)
Definition rethrow {A : Type} (message : jsstring) : Outcome A :=
  if mentionsApiKey message then Threw InvalidApiKey
  else Threw (GeminiApiFailed message).

Definition extractPosterDetailsFromPrompt (response : ProviderOutcome)
    (languagePreference : LanguagePreference) : Outcome PosterDetails :=
  match response with
  | Thrown true message => rethrow message
  | Thrown false _ => Threw UnknownError
  | ResponseText text =>
      let jsonStr := trim text in
      let jsonStr :=
        match fenceBody jsonStr with
        | Some body => trim body
        | None => jsonStr
        end in
      match JSON_parse jsonStr with
      | ParsedValue (FString th) (FString en) (FString te) =>
          Returned (enforceLanguagePreference languagePreference (mkPosterDetails th en te))
      | _ => rethrow notValidJson
      end
  end.

End GeminiService.

(** ** handleDownloadImageForItem (App.tsx, lines 419-428) *)

Definition underscore : N := 95%N.

(** The code units matched by [/[a-z0-9]/i]: without the [u] flag, case
    folding never maps a code unit outside ASCII onto an ASCII letter, so
    these are the ASCII letters and digits. *)
Definition is_ascii_alnum (c : N) : bool :=
  (N.leb 48 c && N.leb c 57) || (N.leb 65 c && N.leb c 90) || (N.leb 97 c && N.leb c 122).

(** [s.substring(0, n)]. *)
Definition substring0 (n : nat) (s : jsstring) : jsstring := firstn n s.

(** [s.replace(/[^a-z0-9]/gi, '_')]: each code unit that is not an ASCII
    letter or digit becomes an underscore. *)
Definition replace_non_alnum (s : jsstring) : jsstring :=
  map (fun c => if is_ascii_alnum c then c else underscore) s.

(** [s.toLowerCase()] on the ASCII letters; the code applies it to the
    result of [replace_non_alnum], which is ASCII. *)
Definition toLowerCase_ascii (s : jsstring) : jsstring :=
  map (fun c => if N.leb 65 c && N.leb c 90 then (c + 32)%N else c) s.

(** The link that is clicked: its [href] and its [download] name. *)
Record DownloadLink : Type := mkDownloadLink {
  href : jsstring;
  download : jsstring
}.

(** [promptStart]: an absent query is [None]. *)
Definition promptStart (originalUserQuery : option jsstring) : jsstring :=
  match originalUserQuery with
  | Some q =>
      if truthy q
      then toLowerCase_ascii (replace_non_alnum (substring0 30 q))
      else lit "ai_poster"
  | None => lit "ai_poster"
  end.

(** [imageUrlToDownload] and [originalUserQuery] may be absent
    ([undefined] or [null]): [None].  The result is the link clicked, or
    [None] when the function returns without a download. *)
Definition handleDownloadImageForItem
    (imageUrlToDownload : option jsstring) (originalUserQuery : option jsstring)
    : option DownloadLink :=
  match imageUrlToDownload with
  | None => None
  | Some url =>
      if negb (truthy url) then None
      else Some (mkDownloadLink url (promptStart originalUserQuery ++ lit "_poster.png"))
  end.

(** A character of a safe file name: a lower-case ASCII letter, a digit, an
    underscore or a dot. *)
Definition is_filename_char (c : N) : bool :=
  (N.leb 97 c && N.leb c 122) || (N.leb 48 c && N.leb c 57)
  || N.eqb c underscore || N.eqb c 46.

(** ** Conversation sessions (App.tsx, lines 21-37, 281-295, 430-488) *)

(** [a === b] on strings. *)
Fixpoint streq (a b : jsstring) : bool :=
  match a, b with
  | [], [] => true
  | c :: a', d :: b' => N.eqb c d && streq a' b'
  | _, _ => false
  end.

(** The decimal digits of a number, as [`${n}`] prints a non-negative
    integer such as [Date.now()]. *)
Fixpoint uint_chars (u : Decimal.uint) : jsstring :=
  match u with
  | Decimal.Nil => []
  | Decimal.D0 u' => 48%N :: uint_chars u'
  | Decimal.D1 u' => 49%N :: uint_chars u'
  | Decimal.D2 u' => 50%N :: uint_chars u'
  | Decimal.D3 u' => 51%N :: uint_chars u'
  | Decimal.D4 u' => 52%N :: uint_chars u'
  | Decimal.D5 u' => 53%N :: uint_chars u'
  | Decimal.D6 u' => 54%N :: uint_chars u'
  | Decimal.D7 u' => 55%N :: uint_chars u'
  | Decimal.D8 u' => 56%N :: uint_chars u'
  | Decimal.D9 u' => 57%N :: uint_chars u'
  end.

Definition decimal (n : N) : jsstring := uint_chars (N.to_uint n).

Inductive ItemType : Type := userPrompt_item | aiResponse_item.

(** An optional field is [None] when it is [undefined] or [null];
    [isLoading], only ever tested for truth, is [false] when absent. *)
Record ConversationItem : Type := mkItem {
  item_id : jsstring;
  item_type : ItemType;
  promptText : option jsstring;
  imageUrl : option jsstring;
  isLoading : bool;
  loadingStep : option jsstring;
  errorText : option jsstring;
  originalUserQuery : option jsstring
}.

Record ConversationSession : Type := mkSession {
  session_id : jsstring;
  title : jsstring;
  items : list ConversationItem;
  createdAt : N
}.

Definition newChat : jsstring := lit "New Chat".

(** [arr.sort((a, b) => b.createdAt - a.createdAt)]: the stable sort by
    decreasing [createdAt] (what a stable sort returns does not depend on
    how it sorts); here by insertion from the right, an element going in
    front of the first one that is not more recent than it. *)
Fixpoint insert_session (x : ConversationSession) (l : list ConversationSession)
    : list ConversationSession :=
  match l with
  | [] => [x]
  | y :: rest =>
      if N.ltb (createdAt x) (createdAt y) then y :: insert_session x rest
      else x :: l
  end.

Definition sort_sessions (l : list ConversationSession) : list ConversationSession :=
  fold_right insert_session [] l.

(** The part of the component's state that the session handlers and the
    generation flow read and write. *)
Record AppState : Type := mkApp {
  allSessions : list ConversationSession;
  activeSessionId : jsstring;
  userPrompt : jsstring;
  isOverallLoading : bool;
  showLanguageModal : bool;
  pendingPrompt : jsstring;
  languagePreferenceForGeneration : option LanguagePreference
}.

(** [allSessions.find(s => s.id === sessionId)]. *)
Definition find_session (sessionId : jsstring) (sessions : list ConversationSession)
    : option ConversationSession :=
  find (fun s => streq (session_id s) sessionId) sessions.

(** The updater passed to [setAllSessions] by [updateSessionItems]
    (lines 281-287). *)
Definition updateSessionItems (sessionId : jsstring)
    (updateFn : list ConversationItem -> list ConversationItem)
    (prevSessions : list ConversationSession) : list ConversationSession :=
  sort_sessions
    (map (fun session =>
            if streq (session_id session) sessionId
            then mkSession (session_id session) (title session)
                   (updateFn (items session)) (createdAt session)
            else session)
         prevSessions).

(** The updater passed to [setAllSessions] by [updateSessionTitle]
    (lines 289-295). *)
Definition updateSessionTitle (sessionId newTitle : jsstring)
    (prevSessions : list ConversationSession) : list ConversationSession :=
  sort_sessions
    (map (fun session =>
            if streq (session_id session) sessionId
            then mkSession (session_id session) newTitle (items session) (createdAt session)
            else session)
         prevSessions).

(** [`session-${Date.now()}`] and the session created with it. *)
Definition newSessionId (now : N) : jsstring := lit "session-" ++ decimal now.

Definition newSession (now : N) : ConversationSession :=
  mkSession (newSessionId now) newChat [] now.

(** The initial state of the component, mounted at time [now]. *)
Definition initialState (now : N) : AppState :=
  mkApp [newSession now] (newSessionId now) [] false false [] None.

(** [handleNewSession] (lines 430-453); [now] is what [Date.now()]
    returns. *)
Definition handleNewSession (now : N) (st : AppState) : AppState :=
  let create :=
    mkApp (sort_sessions (newSession now :: allSessions st)) (newSessionId now)
      [] false (showLanguageModal st) (pendingPrompt st)
      (languagePreferenceForGeneration st) in
  match find_session (activeSessionId st) (allSessions st) with
  | Some currentActiveSession =>
      if Nat.eqb (List.length (items currentActiveSession)) 0
         && streq (title currentActiveSession) newChat
      then mkApp (allSessions st) (session_id currentActiveSession) [] false
             (showLanguageModal st) (pendingPrompt st)
             (languagePreferenceForGeneration st)
      else create
  | None => create
  end.

(** [handleSelectSession] (lines 455-465). *)
Definition handleSelectSession (sessionId : jsstring) (st : AppState) : AppState :=
  mkApp (allSessions st) sessionId [] false (showLanguageModal st) (pendingPrompt st)
    (languagePreferenceForGeneration st).

(** [handleDeleteSession] (lines 467-488): [remainingSessions] is sorted in
    place before its first element is read. *)
Definition handleDeleteSession (now : N) (sessionIdToDelete : jsstring) (st : AppState)
    : AppState :=
  let remainingSessions :=
    filter (fun s => negb (streq (session_id s) sessionIdToDelete)) (allSessions st) in
  if Nat.eqb (List.length remainingSessions) 0 then
    mkApp [newSession now] (newSessionId now) [] false (showLanguageModal st)
      (pendingPrompt st) (languagePreferenceForGeneration st)
  else
    let sorted := sort_sessions remainingSessions in
    mkApp sorted
      (if streq (activeSessionId st) sessionIdToDelete
       then match sorted with
            | first :: _ => session_id first
            | [] => activeSessionId st
            end
       else activeSessionId st)
      [] false (showLanguageModal st) (pendingPrompt st)
      (languagePreferenceForGeneration st).

(** [setAllSessions(updater)]. *)
Definition setAllSessions
    (updater : list ConversationSession -> list ConversationSession) (st : AppState)
    : AppState :=
  mkApp (updater (allSessions st)) (activeSessionId st) (userPrompt st)
    (isOverallLoading st) (showLanguageModal st) (pendingPrompt st)
    (languagePreferenceForGeneration st).

(** ** summarizePromptForTitle (services/geminiService.ts, lines 27-67) *)

Definition is_quote (c : N) : bool := N.eqb c 34 || N.eqb c 39.

(** [s.replace(/^["']|["']$/g, '')]: a quote at the start is removed, then
    a quote at the end of what is left. *)
Definition strip_quotes (s : jsstring) : jsstring :=
  let s1 := match s with
            | c :: rest => if is_quote c then rest else s
            | [] => []
            end in
  match rev s1 with
  | c :: rest => if is_quote c then rev rest else s1
  | [] => s1
  end.

(** [response] is the outcome of [ai.models.generateContent]; any value
    thrown inside the [try], by the provider or on reading the text of its
    answer, ends in the [catch], which returns the empty string. *)
Definition summarizePromptForTitle (response : ProviderOutcome) (userPrompt : jsstring)
    : jsstring :=
  if negb (truthy userPrompt) || Nat.eqb (List.length (trim userPrompt)) 0 then []
  else
    match response with
    | ResponseText text => strip_quotes (trim text)
    | Thrown _ _ => []
    end.

(** ** generateImageWithGemini (services/geminiService.ts, lines 209-239) *)

(** The outcome of [ai.models.generateImages]: a response, with the bytes
    of its first image when it has any, or a thrown value. *)
Inductive ImageProviderOutcome : Type :=
| ImagesResponse (imageBytes : option jsstring)
| ImagesThrown (isError : bool) (message : jsstring).

Inductive ImageError : Type :=
| ImageInvalidApiKey                    (* "Invalid or incorrectly configured Gemini API Key. ..." *)
| ImageApiFailed (message : jsstring)   (* "Gemini API failed during image generation: ..." *)
| ImageUnknownError.                    (* "An unknown error occurred ... for image generation." *)

Inductive ImageOutcome : Type :=
| ImageReturned (url : jsstring)
| ImageThrew (e : ImageError).

Definition noImageGenerated : jsstring :=
  lit "No image was generated by the API, or the response was empty.".

Definition dataUrlPrefix : jsstring := lit "data:image/png;base64,".

Section ImageService.

Variable mentionsApiKey : jsstring -> bool.

(** The [catch] (lines 230-238) on a thrown [Error] with [message]. *)
Definition rethrowImage (message : jsstring) : ImageOutcome :=
  if mentionsApiKey message then ImageThrew ImageInvalidApiKey
  else ImageThrew (ImageApiFailed message).

Definition generateImageWithGemini (response : ImageProviderOutcome) : ImageOutcome :=
  match response with
  | ImagesResponse (Some base64ImageBytes) =>
      if truthy base64ImageBytes
      then ImageReturned (dataUrlPrefix ++ base64ImageBytes)
      else rethrowImage noImageGenerated
  | ImagesResponse None => rethrowImage noImageGenerated
  | ImagesThrown true message => rethrowImage message
  | ImagesThrown false _ => ImageThrew ImageUnknownError
  end.

End ImageService.

(** ** proceedWithGeneration (App.tsx, lines 297-391) *)

(** The [message] of the [Error] each service throws. *)
Definition invalidApiKeyMessage : jsstring :=
  lit "Invalid or incorrectly configured Gemini API Key. Please check your key, its permissions, and ensure it's correctly set in the environment variables.".

Definition serviceErrorMessage (e : ServiceError) : jsstring :=
  match e with
  | InvalidApiKey => invalidApiKeyMessage
  | GeminiApiFailed message =>
      lit "Gemini API failed during creative content generation: " ++ message
  | UnknownError =>
      lit "An unknown error occurred while contacting the Gemini API for creative content generation."
  end.

Definition imageErrorMessage (e : ImageError) : jsstring :=
  match e with
  | ImageInvalidApiKey => invalidApiKeyMessage
  | ImageApiFailed message => lit "Gemini API failed during image generation: " ++ message
  | ImageUnknownError =>
      lit "An unknown error occurred while contacting the Gemini API for image generation."
  end.

Definition overlayErrorMessage (e : OverlayError) : jsstring :=
  match e with
  | CanvasElementNotFound => lit "Canvas element not found"
  | FailedToGetCanvasContext => lit "Failed to get canvas context"
  | FailedToLoadBaseImage => lit "Failed to load base image."
  end.

Definition noThemeMessage : jsstring :=
  lit "Could not determine a theme from your prompt. Please try rephrasing more clearly about the visual style.".

Definition noBackgroundMessage : jsstring :=
  lit "The AI failed to generate a background image. Try simplifying your theme or try again later.".

(** A value caught by [catch (err)]: whether it is an [Error] instance,
    and its [message]. *)
Record Caught : Type := mkCaught {
  isErrorInstance : bool;
  caughtMessage : jsstring
}.

(** [err instanceof Error ? `Failed to create poster: ${err.message}`
    : 'An unknown error occurred.'] (line 383). *)
Definition errorMessageOf (err : Caught) : jsstring :=
  if isErrorInstance err then lit "Failed to create poster: " ++ caughtMessage err
  else lit "An unknown error occurred.".

(** [s.substring(0, 40) + (s.length > 40 ? '...' : '')]. *)
Definition truncate40 (s : jsstring) : jsstring :=
  substring0 40 s ++ (if Nat.ltb 40 (List.length s) then lit "..." else []).

(** What one run consumes from outside: the answers of the three provider
    calls, the canvas element and image loader, and the two readings of
    [Date.now()]. *)
Record GenerationEnv : Type := mkGenerationEnv {
  titleResponse : ProviderOutcome;
  contentResponse : ProviderOutcome;
  imagesResponse : ImageProviderOutcome;
  canvasRefCurrent : option HTMLCanvasElement;
  loadImage : jsstring -> option Image;
  nowUser : N;
  nowAi : N
}.

(** The item updates of lines 346, 376, 379 and 384. *)
Definition withLoadingStep (step : jsstring) (item : ConversationItem) : ConversationItem :=
  mkItem (item_id item) (item_type item) (promptText item) (imageUrl item)
    (isLoading item) (Some step) (errorText item) (originalUserQuery item).

Definition withImage (finalImageUrl : jsstring) (item : ConversationItem) : ConversationItem :=
  mkItem (item_id item) (item_type item) (promptText item) (Some finalImageUrl)
    false (loadingStep item) None (originalUserQuery item).

Definition withError (errorMessage : jsstring) (item : ConversationItem) : ConversationItem :=
  mkItem (item_id item) (item_type item) (promptText item) None
    false (loadingStep item) (Some errorMessage) (originalUserQuery item).

(** [items => items.map(item => item.id === aiResponseId ? f(item) : item)]. *)
Definition updateItem (aiResponseId : jsstring) (f : ConversationItem -> ConversationItem)
    (items : list ConversationItem) : list ConversationItem :=
  map (fun item => if streq (item_id item) aiResponseId then f item else item) items.

Definition setIsOverallLoading (b : bool) (st : AppState) : AppState :=
  mkApp (allSessions st) (activeSessionId st) (userPrompt st) b
    (showLanguageModal st) (pendingPrompt st) (languagePreferenceForGeneration st).

Section Generation.

Variable measureText : Font -> jsstring -> Q.
Variable fenceBody : jsstring -> option jsstring.
Variable JSON_parse : jsstring -> Parsed.
Variable mentionsApiKey : jsstring -> bool.
(** The string [canvas.toDataURL('image/png')] returns for a bitmap. *)
Variable dataUrlString : DataURL -> jsstring.

Variable env : GenerationEnv.
(** The state captured by the callback: the [allSessions] and
    [activeSessionId] it reads are those of the render it was created in. *)
Variable closure : AppState.
Variables promptToGenerate : jsstring.
Variable langPref : LanguagePreference.

Definition userMessageId : jsstring := lit "user-" ++ decimal (nowUser env).
Definition aiResponseId : jsstring := lit "ai-" ++ decimal (nowAi env).

Definition userMessage : ConversationItem :=
  mkItem userMessageId userPrompt_item (Some promptToGenerate) None false None None None.

Definition aiInitialMessage : ConversationItem :=
  mkItem aiResponseId aiResponse_item None None true
    (Some (lit "Analyzing your idea...")) None (Some promptToGenerate).

Definition updateActiveItems (f : ConversationItem -> ConversationItem) (st : AppState)
    : AppState :=
  setAllSessions
    (updateSessionItems (activeSessionId closure) (updateItem aiResponseId f)) st.

(** Lines 312-329: the title from the summary, and whether it was set.
    [summarizePromptForTitle] returns in every case, so the [catch] of
    lines 322-328 has nothing to catch. *)
Definition summarizeTitle (st : AppState) : AppState * bool :=
  match find_session (activeSessionId closure) (allSessions closure) with
  | Some currentSessionForTitleUpdate =>
      if streq (title currentSessionForTitleUpdate) newChat
         && truthy (trim promptToGenerate)
      then
        let summarizedTitle := summarizePromptForTitle (titleResponse env) promptToGenerate in
        if truthy summarizedTitle && truthy (trim summarizedTitle)
        then (setAllSessions
                (updateSessionTitle (activeSessionId closure) (trim summarizedTitle)) st,
              true)
        else (st, false)
      else (st, false)
  | None => (st, false)
  end.

(** Lines 352-359: the title from the poster's text. *)
Definition titleFromText (titleUpdatedBySummarization : bool)
    (posterDetails : PosterDetails) (st : AppState) : AppState :=
  match find_session (activeSessionId closure) (allSessions closure) with
  | Some currentActiveSessionForTextTitle =>
      if negb titleUpdatedBySummarization
         || streq (title currentActiveSessionForTextTitle) newChat
         || streq (title currentActiveSessionForTextTitle) (truncate40 promptToGenerate)
      then
        if truthy (englishText posterDetails)
        then setAllSessions
               (updateSessionTitle (activeSessionId closure)
                  (truncate40 (englishText posterDetails))) st
        else if truthy (teluguText posterDetails)
        then setAllSessions
               (updateSessionTitle (activeSessionId closure)
                  (truncate40 (teluguText posterDetails))) st
        else st
      else st
  | None => st
  end.

(** The [try] block (lines 344-380): the state it leaves and the value it
    throws, if any. *)
Definition tryGeneration (titleUpdatedBySummarization : bool) (st : AppState)
    : AppState * option Caught :=
  match extractPosterDetailsFromPrompt fenceBody JSON_parse mentionsApiKey
          (contentResponse env) langPref with
  | Threw e => (st, Some (mkCaught true (serviceErrorMessage e)))
  | Returned posterDetails =>
      let st := updateActiveItems
                  (withLoadingStep (lit "Creating background image...")) st in
      if negb (truthy (theme posterDetails))
      then (st, Some (mkCaught true noThemeMessage))
      else
        let st := titleFromText titleUpdatedBySummarization posterDetails st in
        match generateImageWithGemini mentionsApiKey (imagesResponse env) with
        | ImageThrew e => (st, Some (mkCaught true (imageErrorMessage e)))
        | ImageReturned baseImageUrl =>
            if negb (truthy baseImageUrl)
            then (st, Some (mkCaught true noBackgroundMessage))
            else
              let st := updateActiveItems
                          (withLoadingStep (lit "Adding text to your poster...")) st in
              match drawImageWithTextOverlay measureText (canvasRefCurrent env)
                      (loadImage env) baseImageUrl
                      (englishText posterDetails) (teluguText posterDetails) with
              | Rejected e => (st, Some (mkCaught true (overlayErrorMessage e)))
              | Resolved finalImageUrl =>
                  (updateActiveItems (withImage (dataUrlString finalImageUrl)) st, None)
              end
        end
  end.

(** The [finally] block (lines 385-389). *)
Definition finallyGeneration (st : AppState) : AppState :=
  mkApp (allSessions st) (activeSessionId st) (userPrompt st) false
    (showLanguageModal st) [] None.

(** [proceedWithGeneration(promptToGenerate, langPref)] run to completion
    from the state [st], with no other event in between. *)
Definition proceedWithGeneration (st : AppState) : AppState :=
  if negb (truthy (trim promptToGenerate)) || negb (truthy (activeSessionId closure))
  then setIsOverallLoading false st
  else
    let st := setIsOverallLoading true st in
    let '(st, titleUpdatedBySummarization) := summarizeTitle st in
    let st := setAllSessions
                (updateSessionItems (activeSessionId closure)
                   (fun items => items ++ [userMessage; aiInitialMessage])) st in
    let '(st, thrown) := tryGeneration titleUpdatedBySummarization st in
    let st := match thrown with
              | Some err => updateActiveItems (withError (errorMessageOf err)) st
              | None => st
              end in
    finallyGeneration st.

End Generation.

(** ** The language modal (App.tsx, lines 394-416) *)



Section LanguageModal.

Variable measureText : Font -> jsstring -> Q.
Variable fenceBody : jsstring -> option jsstring.
Variable JSON_parse : jsstring -> Parsed.
Variable mentionsApiKey : jsstring -> bool.
Variable dataUrlString : DataURL -> jsstring.
Variable env : GenerationEnv.


End LanguageModal.

(** ** Sample measurers and inputs *)

(** A measurer for which every string overflows every canvas: each word
    ends up on a line of its own. *)
Definition always_overflows (f : Font) (s : jsstring) : Q := 1000000.

Definition ugadi : jsstring := lit "Happy Ugadi to All!".

(** Thirty-two one-letter words. *)
Definition many_words : jsstring :=
  lit "a b c d e f g h i j k l m n o p q r s t u v w x y z a b c d e f".

Definition twelve_words : jsstring := lit "a b c d e f g h i j k l".

(** The states of the fit loop for twelve overflowing English words on a
    320x180 canvas: the entry state, then one state per iteration. *)
Definition sample_run : list Fit :=
  fit_init 320 320 180 reset_ctx
  :: fit_trace always_overflows twelve_words [] 320 180 maxIterations 0
       (fit_init 320 320 180 reset_ctx).

(** A provider answer whose parsed form carries text in both languages. *)
Definition sample_parse (jsonStr : jsstring) : Parsed :=
  ParsedValue (FString (lit "kites, bright festive colors"))
              (FString ugadi) (FString (lit "ugadi subhakankshalu")).

Definition no_fence (s : jsstring) : option jsstring := None.
Definition no_api_key (message : jsstring) : bool := false.

(** A canvas element with a 2D context, and a loader that always succeeds
    with a 320x180 image. *)
Definition sample_canvas : HTMLCanvasElement := mkCanvas 300 150 (Some reset_ctx).
Definition sample_load (url : jsstring) : option Image := Some (mkImage url 320 180).

(** A prompt in Telugu script ("ugadi"). *)
Definition telugu_prompt : jsstring := [3081; 3095; 3134; 3110; 3135]%N.

(** Two sessions, the more recent one active and already in use. *)
Definition sample_item : ConversationItem :=
  mkItem (lit "user-1700000000500") userPrompt_item (Some ugadi) None false None None None.

Definition sample_sessions : AppState :=
  mkApp [mkSession (newSessionId 1700000000400) (lit "Ugadi Festival Poster")
           [sample_item] 1700000000400;
         newSession 1700000000000]
        (newSessionId 1700000000400) [] false false [] None.

(** What the services answer in a run that succeeds, and the string a
    bitmap is encoded as. *)
Definition sample_env : GenerationEnv :=
  mkGenerationEnv (ResponseText (lit "'Ugadi Wishes'")) (ResponseText (lit "{}"))
    (ImagesResponse (Some (lit "iVBORw0KGgo="))) (Some sample_canvas) sample_load
    1700000000600 1700000000601.

Definition sample_encoding (url : DataURL) : jsstring :=
  match url with
  | PngDataURL w h bitmap => dataUrlPrefix ++ decimal w ++ lit "x" ++ decimal h
  end.


(** A fixed-pitch measurer: every code unit is half the font size wide. *)
Definition mono (f : Font) (s : jsstring) : Q := fontSizePx f * (1 # 2) * len s.

(** Whether both blocks are present, each with at least one line. *)
Definition padded (engText telText : jsstring) (s : Fit) : bool :=
  hasEnglish engText && hasTelugu telText
  && negb (Nat.eqb (List.length (englishLines s)) 0)
  && negb (Nat.eqb (List.length (teluguLines s)) 0).

(** What [wrapText] returns from a loop state: [currentLine] is pushed when
    it is not empty. *)
Definition flush (st : list jsstring * jsstring) : list jsstring :=
  if truthy (snd st) then fst st ++ [snd st] else fst st.

(** *** Placements, to state where text lands *)

(** The text, abscissa and ordinate of a paint operation that draws text. *)
Definition placement (op : DrawOp) : list (jsstring * Q * Q) :=
  match op with
  | DrawImage _ _ _ => []
  | StrokeText _ t x y => [(t, x, y)]
  | FillText _ t x y => [(t, x, y)]
  end.

Definition placements (ops : list DrawOp) : list (jsstring * Q * Q) :=
  flat_map placement ops.

(** Equality of placements, the coordinates up to [Qeq]. *)
Definition same_placement (a b : jsstring * Q * Q) : Prop :=
  fst (fst a) = fst (fst b) /\ snd (fst a) == snd (fst b) /\ snd a == snd b.

(** The vertical centre of line [i] in a block starting at [top]: lines of
    height [lineHeight] stacked from the top. *)
Definition line_center (top lineHeight : Q) (i : nat) : Q :=
  top + (inject_Z (Z.of_nat i) + 1 / 2) * lineHeight.

(** A block of lines from index [i] on, each stroked then filled at its
    centre. *)
Fixpoint block_placements (x top lineHeight : Q) (i : nat) (lines : list jsstring)
    : list (jsstring * Q * Q) :=
  match lines with
  | [] => []
  | l :: rest =>
      (l, x, line_center top lineHeight i) :: (l, x, line_center top lineHeight i)
      :: block_placements x top lineHeight (S i) rest
  end.

(** The same block with the ordinates as [draw_lines] computes them. *)
Fixpoint drawn_placements (x : Q) (i : nat) (n currentY lineHeight : Q)
    (lines : list jsstring) : list (jsstring * Q * Q) :=
  match lines with
  | [] => []
  | l :: rest =>
      let lineY := currentY - ((n - 1) / 2 - inject_Z (Z.of_nat i)) * lineHeight in
      (l, x, lineY) :: (l, x, lineY) :: drawn_placements x (S i) n currentY lineHeight rest
  end.

(** A text that is empty or made of white space only. *)
Definition blank (text : jsstring) : Prop :=
  Forall (fun c => is_whitespace c = true) text.

(** A text with no leading, trailing or consecutive space characters. *)
Definition single_spaced (text : jsstring) : Prop :=
  (forall t, text <> space :: t)
  /\ (forall t, text <> t ++ [space])
  /\ (forall a b, text <> a ++ space :: space :: b).

(** The same, as a test. *)
Fixpoint no_double_space (s : jsstring) : bool :=
  match s with
  | c :: (d :: _) as s' => negb (N.eqb c space && N.eqb d space) && no_double_space s'
  | _ => true
  end.

Definition starts_with_space (s : jsstring) : bool :=
  match s with
  | c :: _ => N.eqb c space
  | [] => false
  end.

Definition single_spacedb (text : jsstring) : bool :=
  negb (starts_with_space text) && negb (starts_with_space (rev text))
  && no_double_space text.


(** A relation holding between every two consecutive elements of a list. *)
Fixpoint adjacent {A : Type} (P : A -> A -> Prop) (l : list A) : Prop :=
  match l with
  | a :: (b :: _) as rest => P a b /\ adjacent P rest
  | _ => True
  end.

(** The first word of a line. *)
Definition first_word (line : jsstring) : jsstring := hd [] (split_space line).

(** A line that starts with a character other than a space. *)
Definition starts_with_word (line : jsstring) : Prop :=
  exists c rest, line = c :: rest /\ c <> space.

(** *** Painted text, to state how it is drawn *)

(** The drawing state in which the lines of a block are painted: the block's
    font, white fill, black outline scaled to the font size, and the drop
    shadow scaled to the canvas width; alignment as found in [base]. *)
Definition text_style (w : Q) (base : Style) (f : Font) (size : Q) : Style :=
  mkStyle f White Black (Qmax 1 (Qmin 4 (size / 18)))
    ShadowBlack70 (Qmax 3 (w / 250)) (Qmax 1 (w / 400)) (Qmax 1 (w / 400))
    (textAlignCenter base) (textBaselineMiddle base).

(** The operations [draw_lines] issues: each line stroked, then filled. *)
Fixpoint block_ops (st : Style) (x : Q) (i : nat) (n currentY lineHeight : Q)
    (lines : list jsstring) : list DrawOp :=
  match lines with
  | [] => []
  | l :: rest =>
      let lineY := currentY - ((n - 1) / 2 - inject_Z (Z.of_nat i)) * lineHeight in
      StrokeText st l x lineY :: FillText st l x lineY
      :: block_ops st x (S i) n currentY lineHeight rest
  end.

(** A text operation painted legibly: white on a black outline between 1
    and 4 pixels wide, under the drop shadow, centred on its coordinates. *)
Definition legible (w : Q) (op : DrawOp) : Prop :=
  match op with
  | DrawImage _ _ _ => False
  | StrokeText st _ _ _ | FillText st _ _ _ =>
      fillStyle st = White /\ strokeStyle st = Black
      /\ 1 <= lineWidth st /\ lineWidth st <= 4
      /\ shadowColor st = ShadowBlack70
      /\ shadowBlur st = Qmax 3 (w / 250)
      /\ shadowOffsetX st = Qmax 1 (w / 400)
      /\ shadowOffsetY st = Qmax 1 (w / 400)
      /\ textAlignCenter st = true /\ textBaselineMiddle st = true
  end.

(** Operations that come in pairs: an outline, then the fill of the same
    text at the same place in the same state. *)
Fixpoint stroke_fill_pairs (ops : list DrawOp) : Prop :=
  match ops with
  | [] => True
  | StrokeText st t x y :: FillText st' t' x' y' :: rest =>
      st = st' /\ t = t' /\ x = x' /\ y = y' /\ stroke_fill_pairs rest
  | _ => False
  end.

(** The texts filled, in order. *)
Fixpoint filled (ops : list DrawOp) : list jsstring :=
  match ops with
  | [] => []
  | FillText _ t _ _ :: rest => t :: filled rest
  | _ :: rest => filled rest
  end.

(** A placement whose line, of height [lineHeight] around its ordinate, lies
    between [startY] and [canvasHeight - startY]. *)
Definition within_stack (canvasHeight startY lineHeight : Q) (p : jsstring * Q * Q) : Prop :=
  startY <= snd p - lineHeight / 2 /\ snd p + lineHeight / 2 <= canvasHeight - startY.

(** Sessions from the most recent to the oldest. *)
Definition recent_first (sessions : list ConversationSession) : Prop :=
  adjacent (fun a b => (createdAt b <= createdAt a)%N) sessions.

(** There is a session, the active one exists, and the list is in order. *)
Definition sessions_ok (st : AppState) : Prop :=
  allSessions st <> []
  /\ (exists s, In s (allSessions st) /\ session_id s = activeSessionId st)
  /\ recent_first (allSessions st).

(** *** Generation, to state what a run leaves behind *)

(** The font family a paint operation writes text in. *)
Definition op_family (op : DrawOp) : option FontFamily :=
  match op with
  | DrawImage _ _ _ => None
  | StrokeText st _ _ _ | FillText st _ _ _ => Some (fontFamily (font st))
  end.

(** [Q] holds of every session of the list named [sessionId]. *)
Definition for_session (sessionId : jsstring) (Q : ConversationSession -> Prop)
    (sessions : list ConversationSession) : Prop :=
  forall s, In s sessions -> session_id s = sessionId -> Q s.

(** A session whose last two items are [u] and an item satisfying [P]. *)
Definition ends_with (u : ConversationItem) (P : ConversationItem -> Prop)
    (s : ConversationSession) : Prop :=
  exists older a, items s = older ++ [u; a] /\ P a.

(** The response item of a run while the run is under way. *)
Definition pending (aiResponseId promptToGenerate : jsstring) (a : ConversationItem) : Prop :=
  item_id a = aiResponseId /\ item_type a = aiResponse_item /\ isLoading a = true
  /\ originalUserQuery a = Some promptToGenerate
  /\ imageUrl a = None /\ errorText a = None.

(** The response item of a run once it is over: no longer loading, with
    either an image or an error text that begins "Failed to create
    poster: ". *)
Definition settled (aiResponseId promptToGenerate : jsstring) (a : ConversationItem) : Prop :=
  item_id a = aiResponseId /\ item_type a = aiResponse_item /\ isLoading a = false
  /\ originalUserQuery a = Some promptToGenerate
  /\ ((exists url, imageUrl a = Some url /\ errorText a = None)
      \/ (exists message,
            imageUrl a = None
            /\ errorText a = Some (lit "Failed to create poster: " ++ message))).

(** [sessions'] is [sessions] with nothing but the items and the title of
    the sessions named [sessionId] changed. *)
Definition same_but (sessionId : jsstring) (sessions sessions' : list ConversationSession)
    : Prop :=
  exists F : ConversationSession -> ConversationSession,
    sessions' = map F sessions
    /\ forall s, session_id (F s) = session_id s
                 /\ createdAt (F s) = createdAt s
                 /\ (session_id s <> sessionId -> F s = s).

(** [st] is [st0] with nothing changed in the session list but the sessions
    named [sessionId], the list in order, and the active session, the
    prompt box and the modal as they were. *)
Definition framed (sessionId : jsstring) (st0 st : AppState) : Prop :=
  same_but sessionId (allSessions st0) (allSessions st)
  /\ recent_first (allSessions st)
  /\ activeSessionId st = activeSessionId st0
  /\ userPrompt st = userPrompt st0
  /\ showLanguageModal st = showLanguageModal st0.


(** * Properties *)

(** ** Strings *)

Lemma truthy_true (s : jsstring) : truthy s = true <-> s <> [].
Proof. destruct s; simpl; split; congruence. Qed.

Lemma truthy_false (s : jsstring) : truthy s = false <-> s = [].
Proof. destruct s; simpl; split; congruence. Qed.

Lemma truthy_extend (a b : jsstring) (c : N) : truthy (a ++ c :: b) = true.
Proof. now destruct a. Qed.

Lemma split_space_not_nil (s : jsstring) : split_space s <> [].
Proof.
  destruct s as [|c s]; simpl; [discriminate|].
  destruct (N.eqb c space); [discriminate|].
  destruct (split_space s); discriminate.
Qed.

(** No word of a split contains the separator. *)
Lemma split_space_no_space (s w : jsstring) :
  In w (split_space s) -> ~ In space w.
Proof.
  revert w; induction s as [|c s IH]; simpl; intros w Hw.
  - destruct Hw as [<-|[]]. intros [].
  - destruct (N.eqb_spec c space) as [->|Hc].
    + destruct Hw as [<-|Hw]; [intros []|now apply IH].
    + destruct (split_space s) as [|w0 ws] eqn:E.
      * destruct Hw as [<-|[]]. intros [H|[]]. congruence.
      * destruct Hw as [<-|Hw].
        -- intros [H|H]; [congruence|]. apply (IH w0); [now left|exact H].
        -- apply IH. now right.
Qed.

(** A string without separator is its own single word. *)
Lemma split_space_word (w : jsstring) : ~ In space w -> split_space w = [w].
Proof.
  induction w as [|c w IH]; simpl; intros H; [reflexivity|].
  destruct (N.eqb_spec c space) as [->|Hc]; [exfalso; apply H; now left|].
  rewrite IH; [reflexivity|]. intros Hin; apply H; now right.
Qed.

Lemma split_space_app (a b : jsstring) :
  split_space (a ++ space :: b) = split_space a ++ split_space b.
Proof.
  induction a as [|c a IH]; simpl.
  - reflexivity.
  - destruct (N.eqb c space).
    + now rewrite IH.
    + rewrite IH. destruct (split_space a) as [|w ws] eqn:E.
      * now destruct (split_space_not_nil a).
      * reflexivity.
Qed.

Lemma join_space_cons (l : jsstring) (ls : list jsstring) :
  ls <> [] -> join_space (l :: ls) = l ++ space :: join_space ls.
Proof. destruct ls; [congruence|reflexivity]. Qed.

Lemma join_space_app (a b : list jsstring) :
  a <> [] -> b <> [] ->
  join_space (a ++ b) = join_space a ++ space :: join_space b.
Proof.
  induction a as [|l a IH]; intros Ha Hb; [congruence|].
  destruct a as [|l' a].
  - simpl app. now rewrite join_space_cons.
  - change ((l :: l' :: a) ++ b) with (l :: (l' :: a) ++ b).
    rewrite join_space_cons by discriminate.
    rewrite IH by (discriminate || assumption).
    rewrite (join_space_cons l (l' :: a)) by discriminate.
    now rewrite <- app_assoc.
Qed.

(** Joining the words of a split gives the string back. *)
Lemma join_split_space (s : jsstring) : join_space (split_space s) = s.
Proof.
  induction s as [|c s IH]; [reflexivity|]. simpl split_space.
  destruct (N.eqb_spec c space) as [->|Hc].
  - rewrite join_space_cons by apply split_space_not_nil. now rewrite IH.
  - destruct (split_space s) as [|w ws] eqn:E; [now destruct (split_space_not_nil s)|].
    destruct ws as [|w' ws].
    + simpl in *. now subst.
    + rewrite join_space_cons by discriminate.
      rewrite join_space_cons in IH by discriminate.
      rewrite <- IH. reflexivity.
Qed.

(** The words of the lines of a non-empty array, joined, then split. *)
Lemma split_join_space (ls : list jsstring) :
  ls <> [] -> split_space (join_space ls) = List.concat (map split_space ls).
Proof.
  induction ls as [|l ls IH]; intros H; [congruence|].
  destruct ls as [|l' ls].
  - simpl. now rewrite app_nil_r.
  - rewrite join_space_cons by discriminate.
    rewrite split_space_app, IH by discriminate. reflexivity.
Qed.

(** ** wrapText *)

Section WrapText.

Variable measureText : Font -> jsstring -> Q.
Variable context : CanvasRenderingContext2D.
Variable maxWidth : Q.

Let step := wrap_step measureText context maxWidth.
Let width := measureText (font (style context)).

Lemma wrapText_unfold (text : jsstring) :
  wrapText measureText context text maxWidth =
  if truthy text then flush (fold_left step (split_space text) ([], [])) else [].
Proof.
  unfold wrapText, flush. destruct (truthy text); simpl; [|reflexivity].
  fold step. now destruct (fold_left step (split_space text) ([], [])).
Qed.

(** A property of every flushed line is kept by the loop when each turn
    keeps it. *)
Lemma fold_step_flush_Forall (P : jsstring -> Prop) (words : list jsstring) :
  (forall st w, In w words -> Forall P (flush st) -> Forall P (flush (step st w))) ->
  forall st, Forall P (flush st) -> Forall P (flush (fold_left step words st)).
Proof.
  induction words as [|w words IH]; intros Hstep st Hst; simpl; [exact Hst|].
  apply IH.
  - intros st' w' Hw'. apply Hstep. now right.
  - apply Hstep; [now left|exact Hst].
Qed.

Lemma flush_push (lines : list jsstring) (cur w : jsstring) :
  truthy cur = true ->
  flush (lines ++ [cur], w) = flush (lines, cur) ++ (if truthy w then [w] else []).
Proof.
  intros Hc. unfold flush; simpl. rewrite Hc.
  destruct (truthy w); [reflexivity|now rewrite app_nil_r].
Qed.

(** The three ways a turn of the loop changes the flushed lines. *)
Lemma step_cases (lines : list jsstring) (cur w : jsstring) :
  (truthy cur = true /\ Qlt maxWidth (width (cur ++ space :: w)) /\
   step (lines, cur) w = (lines ++ [cur], w))
  \/ (truthy cur = true /\ Qle (width (cur ++ space :: w)) maxWidth /\
      step (lines, cur) w = (lines, cur ++ space :: w))
  \/ (cur = [] /\ step (lines, cur) w = (lines, w)).
Proof.
  unfold step, wrap_step, gt. fold width.
  destruct cur as [|c cur]; simpl truthy; cbv iota.
  - right; right. rewrite andb_false_r. auto.
  - rewrite andb_true_r.
    destruct (Qle_bool (width ((c :: cur) ++ space :: w)) maxWidth) eqn:E; cbv [negb].
    + right; left. apply Qle_bool_iff in E. auto.
    + left. repeat split; auto. apply Qnot_le_lt. intros H.
      apply Qle_bool_iff in H. congruence.
Qed.

(** Every line is either within the width or a single word of the text. *)
Lemma wrapText_fit_or_word (text l : jsstring) :
  In l (wrapText measureText context text maxWidth) ->
  Qle (width l) maxWidth \/ In l (split_space text).
Proof.
  rewrite wrapText_unfold. destruct (truthy text); [|intros []].
  set (P := fun l => Qle (width l) maxWidth \/ In l (split_space text)).
  intros Hl. change (P l). revert l Hl. apply Forall_forall.
  apply fold_step_flush_Forall; [|constructor].
  intros [lines cur] w Hw Hst.
  destruct (step_cases lines cur w) as [(Hc & _ & ->)|[(Hc & Hfit & ->)|(-> & ->)]].
  - rewrite flush_push by exact Hc. apply Forall_app; split; [exact Hst|].
    destruct (truthy w); constructor; [right; exact Hw|constructor].
  - unfold flush in *; simpl in *. rewrite Hc in Hst. rewrite truthy_extend.
    apply Forall_app in Hst as [Hlines _].
    apply Forall_app; split; [exact Hlines|]. constructor; [left; exact Hfit|constructor].
  - unfold flush in *; simpl in *.
    destruct (truthy w); [|exact Hst].
    apply Forall_app; split; [exact Hst|]. constructor; [right; exact Hw|constructor].
Qed.

(** No line is the empty string. *)
Lemma wrapText_lines_truthy (text : jsstring) :
  Forall (fun l => l <> []) (wrapText measureText context text maxWidth).
Proof.
  rewrite wrapText_unfold. destruct (truthy text); [|constructor].
  apply fold_step_flush_Forall; [|constructor].
  intros [lines cur] w _ Hst.
  destruct (step_cases lines cur w) as [(Hc & _ & ->)|[(Hc & _ & ->)|(-> & ->)]].
  - rewrite flush_push by exact Hc. apply Forall_app; split; [exact Hst|].
    destruct (truthy w) eqn:E; constructor; [now apply truthy_true|constructor].
  - unfold flush in *; simpl in *. rewrite Hc in Hst. rewrite truthy_extend.
    apply Forall_app in Hst as [Hlines _].
    apply Forall_app; split; [exact Hlines|].
    constructor; [now destruct cur|constructor].
  - unfold flush in *; simpl in *.
    destruct (truthy w) eqn:E; [|exact Hst].
    apply Forall_app; split; [exact Hst|]. constructor; [now apply truthy_true|constructor].
Qed.

(** The non-empty words of the flushed lines after the loop: those before
    it, then the non-empty words consumed. *)
Lemma fold_step_words (words : list jsstring) :
  Forall (fun w => ~ In space w) words ->
  forall st,
    filter truthy (List.concat (map split_space (flush (fold_left step words st)))) =
    filter truthy (List.concat (map split_space (flush st))) ++ filter truthy words.
Proof.
  induction words as [|w words IH]; intros Hw st; simpl fold_left.
  - simpl. now rewrite app_nil_r.
  - inversion Hw as [|? ? Hw1 Hw2]; subst.
    rewrite IH by exact Hw2.
    replace (filter truthy (List.concat (map split_space (flush (step st w)))))
      with (filter truthy (List.concat (map split_space (flush st)))
            ++ (if truthy w then [w] else [])).
    { rewrite <- app_assoc. f_equal. simpl. now destruct (truthy w). }
    destruct st as [lines cur].
    destruct (step_cases lines cur w) as [(Hc & _ & ->)|[(Hc & _ & ->)|(-> & ->)]].
    + rewrite flush_push by exact Hc. rewrite map_app, concat_app, filter_app.
      f_equal. destruct (truthy w) eqn:E; [|reflexivity].
      simpl. rewrite split_space_word by exact Hw1. simpl. now rewrite E.
    + unfold flush; simpl. rewrite Hc, truthy_extend.
      rewrite !map_app, !concat_app, !filter_app. simpl map. simpl List.concat.
      rewrite !app_nil_r. rewrite <- app_assoc. f_equal.
      rewrite split_space_app, filter_app. f_equal.
      rewrite split_space_word by exact Hw1. simpl. now destruct (truthy w).
    + unfold flush; simpl. destruct (truthy w) eqn:E; [|now rewrite app_nil_r].
      rewrite map_app, concat_app, filter_app. f_equal.
      simpl. rewrite split_space_word by exact Hw1. simpl. now rewrite E.
Qed.

(** The lines hold the non-empty words of the text, each once, in order. *)
Lemma wrapText_words (text : jsstring) :
  filter truthy (List.concat (map split_space (wrapText measureText context text maxWidth))) =
  filter truthy (split_space text).
Proof.
  rewrite wrapText_unfold. destruct text as [|c text]; [reflexivity|].
  simpl truthy. cbv iota. rewrite fold_step_words.
  - reflexivity.
  - apply Forall_forall. intros w. apply split_space_no_space.
Qed.

(** With no empty word among them, the words consumed by the loop are
    appended to the flushed lines, up to the placement of line breaks. *)
Lemma fold_step_join (words : list jsstring) :
  Forall (fun w => w <> []) words ->
  forall st,
    join_space (flush (fold_left step words st)) = join_space (flush st ++ words).
Proof.
  induction words as [|w words IH]; intros Hw st; simpl fold_left.
  - now rewrite app_nil_r.
  - inversion Hw as [|? ? Hw1 Hw2]; subst. rewrite IH by exact Hw2.
    apply truthy_true in Hw1.
    assert (Hne : flush (step st w) <> []).
    { destruct st as [lines cur].
      destruct (step_cases lines cur w) as [(Hc & _ & ->)|[(Hc & _ & ->)|(-> & ->)]];
        unfold flush; simpl; rewrite ?Hw1, ?truthy_extend;
        intros H; now apply app_eq_nil in H as [_ H]. }
    assert (Hstep : join_space (flush (step st w)) = join_space (flush st ++ [w])).
    { destruct st as [lines cur].
      destruct (step_cases lines cur w) as [(Hc & _ & ->)|[(Hc & _ & ->)|(-> & ->)]].
      - rewrite flush_push by exact Hc. now rewrite Hw1.
      - unfold flush; simpl. rewrite Hc, truthy_extend.
        destruct lines as [|l lines]; [reflexivity|].
        rewrite <- app_assoc.
        rewrite !(join_space_app (l :: lines)) by discriminate. reflexivity.
      - unfold flush; simpl. now rewrite Hw1. }
    destruct words as [|w' words]; [now rewrite !app_nil_r|].
    change (flush st ++ w :: w' :: words) with (flush st ++ [w] ++ w' :: words).
    rewrite app_assoc.
    rewrite !(join_space_app _ (w' :: words)); try discriminate; try exact Hne.
    + now rewrite Hstep.
    + intros H; now apply app_eq_nil in H as [_ H].
Qed.

End WrapText.

(** The words of a single-spaced, non-empty text are all non-empty. *)
Lemma split_space_head (s : jsstring) :
  hd [] (split_space s) = [] -> s = [] \/ exists t, s = space :: t.
Proof.
  destruct s as [|c s]; [now left|]. simpl.
  destruct (N.eqb_spec c space) as [->|Hc]; [right; now exists s|].
  destruct (split_space s); discriminate.
Qed.

Lemma split_space_tail_truthy (s : jsstring) :
  s <> [] ->
  (forall t, s <> t ++ [space]) ->
  (forall a b, s <> a ++ space :: space :: b) ->
  Forall (fun w => w <> []) (tl (split_space s)).
Proof.
  induction s as [|c s IH]; intros Hne Htr Hdb; [congruence|].
  assert (Htr' : forall t, s <> t ++ [space]).
  { intros t ->. apply (Htr (c :: t)). reflexivity. }
  assert (Hdb' : forall a b, s <> a ++ space :: space :: b).
  { intros a b ->. apply (Hdb (c :: a) b). reflexivity. }
  simpl split_space. destruct (N.eqb_spec c space) as [->|Hc].
  - simpl tl.
    assert (Hs : s <> []) by (intros ->; now apply (Htr [])).
    specialize (IH Hs Htr' Hdb').
    destruct (split_space s) as [|w ws] eqn:E; [constructor|].
    constructor; [|exact IH].
    intros ->. destruct (split_space_head s) as [->|[t ->]].
    + now rewrite E.
    + congruence.
    + now apply (Hdb [] t).
  - destruct (split_space s) as [|w ws] eqn:E; [constructor|]. simpl tl.
    destruct s as [|d s]; [simpl in E; injection E as <- <-; constructor|].
    specialize (IH ltac:(discriminate) Htr' Hdb'). exact IH.
Qed.

Lemma single_spaced_words (text : jsstring) :
  single_spaced text -> text <> [] -> Forall (fun w => w <> []) (split_space text).
Proof.
  intros (Hld & Htr & Hdb) Hne.
  pose proof (split_space_tail_truthy text Hne Htr Hdb) as Htl.
  pose proof (split_space_head text) as Hhd.
  destruct (split_space text) as [|w ws]; [constructor|].
  constructor; [|exact Htl].
  intros ->. destruct (Hhd eq_refl) as [->|[t ->]]; [congruence|]. now apply (Hld t).
Qed.

Lemma filter_truthy_id (ws : list jsstring) :
  Forall (fun w => w <> []) ws -> filter truthy ws = ws.
Proof.
  induction 1 as [|w ws Hw _ IH]; [reflexivity|].
  simpl. apply truthy_true in Hw. now rewrite Hw, IH.
Qed.

(** ** Numbers *)

(** Linear arithmetic over [Q] once the divisions by constants are turned
    into multiplications. *)
Ltac qnorm :=
  unfold Qdiv in *;
  repeat match goal with
    | |- context [Qinv (Qmake ?n ?d)] =>
        let v := eval vm_compute in (Qinv (Qmake n d)) in
        change (Qinv (Qmake n d)) with v in *
    | H : context [Qinv (Qmake ?n ?d)] |- _ =>
        let v := eval vm_compute in (Qinv (Qmake n d)) in
        change (Qinv (Qmake n d)) with v in *
    end.
Ltac qlra := qnorm; lra.

Lemma le_true (a b : Q) : le a b = true <-> a <= b.
Proof. apply Qle_bool_iff. Qed.

Lemma le_false (a b : Q) : le a b = false <-> b < a.
Proof.
  unfold le. split; intros H.
  - apply Qnot_le_lt. intros Hle. apply Qle_bool_iff in Hle. congruence.
  - destruct (Qle_bool a b) eqn:E; [|reflexivity].
    apply Qle_bool_iff in E. lra.
Qed.

Lemma gt_true (a b : Q) : gt a b = true <-> b < a.
Proof. unfold gt. rewrite negb_true_iff. apply le_false. Qed.

Lemma gt_false (a b : Q) : gt a b = false <-> a <= b.
Proof. unfold gt. rewrite negb_false_iff. apply le_true. Qed.

Lemma len_pos {A : Type} (l : list A) : l <> [] -> 1 <= len l.
Proof.
  intros H. unfold len. change 1 with (inject_Z 1). rewrite <- Zle_Qle.
  destruct l; [congruence|simpl List.length; lia].
Qed.

Lemma gt_len (A : Type) (l : list A) : gt (len l) 0 = true <-> l <> [].
Proof.
  rewrite gt_true. split.
  - intros H ->. vm_compute in H. discriminate.
  - intros H. pose proof (len_pos l H). lra.
Qed.

Lemma minFontSize_floor (w : Q) : 8 <= minFontSize w.
Proof. apply Q.le_max_l. Qed.

Lemma minFontSize_width (w : Q) : w / 70 <= minFontSize w.
Proof. apply Q.le_max_r. Qed.

(** ** The font-fit loop *)

Section Solver.

Variable measureText : Font -> jsstring -> Q.
Variables engText telText : jsstring.
Variables w h : Q.

Let floor := minFontSize w.
Let measure := measure_blocks measureText engText telText w.
Let body := fit_body measureText engText telText w h.
Let loop := fit_loop measureText engText telText w h.
Let trace := fit_trace measureText engText telText w h.
Let total := totalTextHeight engText telText h.
Let shrinkE := shrink w (hasEnglish engText).
Let shrinkT := shrink w (hasTelugu telText).

Lemma measure_sizes (s : Fit) :
  englishFontSize (measure s) = englishFontSize s
  /\ teluguFontSize (measure s) = teluguFontSize s
  /\ warnings (measure s) = warnings s.
Proof.
  unfold measure, measure_blocks.
  destruct (hasEnglish engText), (hasTelugu telText); simpl; auto.
Qed.

(** What a measured state holds, block by block. *)
Lemma measure_english (s : Fit) :
  englishLineHeight (measure s) = englishFontSize s * 1.2
  /\ (if hasEnglish engText
      then englishLines (measure s)
           = wrapText measureText (set_font (englishFont (englishFontSize s)) (ctx s))
               engText (textMaxWidth w)
           /\ englishBlockHeight (measure s)
              = len (englishLines (measure s)) * (englishFontSize s * 1.2)
      else englishLines (measure s) = [] /\ englishBlockHeight (measure s) = 0).
Proof.
  unfold measure, measure_blocks.
  destruct (hasEnglish engText), (hasTelugu telText); simpl; auto.
Qed.

Lemma measure_telugu (s : Fit) :
  teluguLineHeight (measure s) = teluguFontSize s * 1.2
  /\ (if hasTelugu telText
      then exists c, font (style c) = teluguFont (teluguFontSize s)
           /\ teluguLines (measure s) = wrapText measureText c telText (textMaxWidth w)
           /\ teluguBlockHeight (measure s)
              = len (teluguLines (measure s)) * (teluguFontSize s * 1.2)
      else teluguLines (measure s) = [] /\ teluguBlockHeight (measure s) = 0).
Proof.
  unfold measure, measure_blocks.
  destruct (hasEnglish engText), (hasTelugu telText); simpl;
    (split; [reflexivity|]); try (split; reflexivity);
    eexists; (split; [|split; reflexivity]); reflexivity.
Qed.

(** Measuring again at the same sizes changes nothing: the re-wrap after the
    loop returns the lines of the iteration that broke out of it. *)
Lemma measure_idempotent (s : Fit) : measure (measure s) = measure s.
Proof.
  unfold measure, measure_blocks.
  destruct (hasEnglish engText), (hasTelugu telText); simpl; try reflexivity.
Qed.

(** *** One shrink *)

Lemma shrink_cases (has : bool) (size : Q) :
  (has = true /\ floor < size /\ shrink w has size = Qmax floor (size * 0.9))
  \/ ((has = false \/ size <= floor) /\ shrink w has size = size).
Proof.
  unfold shrink. fold floor. destruct has; simpl.
  - destruct (gt size floor) eqn:E.
    + left. apply gt_true in E. auto.
    + right. apply gt_false in E. auto.
  - right. auto.
Qed.

Lemma shrink_le (has : bool) (size : Q) : shrink w has size <= size.
Proof.
  pose proof (minFontSize_floor w) as H8. fold floor in H8.
  destruct (shrink_cases has size) as [(_ & Hlt & ->)|(_ & ->)]; [|lra].
  apply Q.max_lub; lra.
Qed.

Lemma shrink_floor (has : bool) (size : Q) : floor <= size -> floor <= shrink w has size.
Proof.
  intros H. destruct (shrink_cases has size) as [(_ & _ & ->)|(_ & ->)]; [|exact H].
  apply Q.le_max_l.
Qed.

(** A shrink of a present block stays under the floored nine tenths of any
    bound on its size. *)
Lemma shrink_bound (size z : Q) :
  size <= Qmax floor z -> shrink w true size <= Qmax floor (z * 0.9).
Proof.
  intros H. pose proof (minFontSize_floor w) as H8. fold floor in H8.
  pose proof (Q.le_max_l floor (z * 0.9)) as Hl.
  pose proof (Q.le_max_r floor (z * 0.9)) as Hr.
  destruct (Q.max_spec floor z) as [[_ Hz]|[_ Hz]]; rewrite Hz in H; clear Hz;
    (destruct (shrink_cases true size) as [(_ & Hlt & ->)|([Hf|Hle] & ->)];
     [apply Q.max_lub; lra|discriminate|lra]).
Qed.

Lemma iter_shrink_bound (n : nat) (size : Q) :
  Nat.iter n (shrink w true) size <= Qmax floor (Nat.iter n (fun y => y * 0.9) size).
Proof.
  induction n as [|n IH]; simpl.
  - apply Q.le_max_r.
  - now apply shrink_bound.
Qed.

Lemma iter_shrink_floor (has : bool) (n : nat) (size : Q) :
  floor <= size -> floor <= Nat.iter n (shrink w has) size.
Proof.
  intros H. induction n as [|n IH]; simpl; [exact H|now apply shrink_floor].
Qed.

(** *** One iteration *)

Lemma body_cases (i : nat) (s : Fit) :
  (body i s = Break (measure s)
   /\ (total (measure s) <= availableHeightForText h
       \/ (englishFontSize s <= floor /\ teluguFontSize s <= floor)))
  \/ (exists s', body i s = Continue s'
      /\ englishFontSize s' = shrinkE (englishFontSize s)
      /\ teluguFontSize s' = shrinkT (teluguFontSize s)
      /\ availableHeightForText h < total (measure s)
      /\ warnings s' = (if Nat.eqb i (maxIterations - 1) then S (warnings s) else warnings s)).
Proof.
  destruct (measure_sizes s) as (He & Ht & Hw).
  unfold body, fit_body. fold measure. fold total. fold floor.
  destruct (le (total (measure s)) (availableHeightForText h)) eqn:Efit.
  - left. split; [reflexivity|]. left. now apply le_true.
  - destruct (le (englishFontSize (measure s)) floor
              && le (teluguFontSize (measure s)) floor) eqn:Emin.
    + left. split; [reflexivity|]. right.
      apply andb_true_iff in Emin as [E1 E2].
      apply le_true in E1, E2. rewrite He in E1. rewrite Ht in E2. auto.
    + right. eexists. split; [reflexivity|]. simpl.
      rewrite He, Ht, Hw. repeat split. now apply le_false.
Qed.

(** *** The loop *)

(** On exit the sizes are the initial ones shrunk [k] times, [k] being the
    number of iterations that went on; the loop left through a [break], or
    [k] is the whole budget. *)
Lemma loop_exit (fuel i : nat) (s : Fit) :
  exists k, (k <= fuel)%nat
    /\ englishFontSize (loop fuel i s) = Nat.iter k shrinkE (englishFontSize s)
    /\ teluguFontSize (loop fuel i s) = Nat.iter k shrinkT (teluguFontSize s)
    /\ ((measure (loop fuel i s) = loop fuel i s
         /\ (total (loop fuel i s) <= availableHeightForText h
             \/ (englishFontSize (loop fuel i s) <= floor
                 /\ teluguFontSize (loop fuel i s) <= floor)))
        \/ k = fuel).
Proof.
  revert i s. induction fuel as [|fuel IH]; intros i s.
  - exists O. simpl. auto.
  - simpl loop. unfold loop. simpl fit_loop. fold body. fold loop.
    destruct (body_cases i s) as [(-> & Hexit)|(s' & -> & He & Ht & _)].
    + destruct (measure_sizes s) as (He & Ht & _).
      exists O. simpl. rewrite He, Ht. repeat split; [lia|].
      left. split; [apply measure_idempotent|exact Hexit].
    + destruct (IH (S i) s') as (k & Hk & Hke & Hkt & Hend).
      exists (S k). rewrite !Nat.iter_succ_r, <- He, <- Ht.
      repeat split; [lia|exact Hke|exact Hkt|].
      destruct Hend as [Hend| ->]; [left; exact Hend|right; reflexivity].
Qed.

Lemma trace_length (fuel i : nat) (s : Fit) : (List.length (trace fuel i s) <= fuel)%nat.
Proof.
  revert i s. induction fuel as [|fuel IH]; intros i s; simpl; [lia|].
  unfold trace; simpl. fold trace.
  destruct (fit_body measureText engText telText w h i s) as [s'|s']; simpl.
  - lia.
  - specialize (IH (S i) s'). lia.
Qed.



(** Between two consecutive recorded states each size is kept or shrunk. *)
Lemma trace_step (fuel i k : nat) (s a b : Fit) :
  nth_error (s :: trace fuel i s) k = Some a ->
  nth_error (s :: trace fuel i s) (S k) = Some b ->
  (englishFontSize b = englishFontSize a \/ englishFontSize b = shrinkE (englishFontSize a))
  /\ (teluguFontSize b = teluguFontSize a \/ teluguFontSize b = shrinkT (teluguFontSize a)).
Proof.
  revert i k s. induction fuel as [|fuel IH]; intros i k s Ha Hb.
  - simpl in Hb. now destruct k.
  - unfold trace in Ha, Hb; simpl in Ha, Hb. fold trace in Ha, Hb. fold body in Ha, Hb.
    destruct (body_cases i s) as [(E & _)|(s' & E & He & Ht & _)]; rewrite E in Ha, Hb.
    + destruct k as [|k]; [|now destruct k].
      simpl in Ha, Hb. injection Ha as <-. injection Hb as <-.
      destruct (measure_sizes s) as (-> & -> & _). auto.
    + destruct k as [|k].
      * simpl in Ha, Hb. injection Ha as <-. injection Hb as <-. auto.
      * apply (IH (S i) k s'); assumption.
Qed.

(** *** The solver *)

Lemma solve_unfold (iw ih : Q) (c : CanvasRenderingContext2D) :
  solve measureText engText telText w h iw ih c
  = measure (loop maxIterations 0 (fit_init w iw ih c)).
Proof. reflexivity. Qed.

Lemma solve_measured (iw ih : Q) (c : CanvasRenderingContext2D) :
  measure (solve measureText engText telText w h iw ih c)
  = solve measureText engText telText w h iw ih c.
Proof. rewrite solve_unfold. apply measure_idempotent. Qed.

Lemma solve_floor (iw ih : Q) (c : CanvasRenderingContext2D) :
  floor <= englishFontSize (solve measureText engText telText w h iw ih c)
  /\ floor <= teluguFontSize (solve measureText engText telText w h iw ih c).
Proof.
  rewrite solve_unfold.
  destruct (measure_sizes (loop maxIterations 0 (fit_init w iw ih c))) as (-> & -> & _).
  destruct (loop_exit maxIterations 0 (fit_init w iw ih c)) as (k & _ & -> & -> & _).
  split; apply iter_shrink_floor; simpl; apply Q.le_max_l.
Qed.



End Solver.

(** ** Blank texts *)

Lemma trim_start_blank (s : jsstring) : blank (trim_start s) <-> blank s.
Proof.
  unfold blank. induction s as [|c s IH]; simpl; [reflexivity|].
  destruct (is_whitespace c) eqn:E.
  - rewrite IH. split; intros H; [now constructor|now inversion H].
  - reflexivity.
Qed.

Lemma trim_start_nil (s : jsstring) : trim_start s = [] <-> blank s.
Proof.
  unfold blank. induction s as [|c s IH]; simpl.
  - split; [constructor|reflexivity].
  - destruct (is_whitespace c) eqn:E.
    + rewrite IH. split; intros H; [now constructor|now inversion H].
    + split; [discriminate|]. intros H. inversion H. congruence.
Qed.

Lemma blank_rev (s : jsstring) : blank (rev s) <-> blank s.
Proof.
  unfold blank. split; intros H; [rewrite <- (rev_involutive s)|]; now apply Forall_rev.
Qed.

Lemma trim_nil (s : jsstring) : trim s = [] <-> blank s.
Proof.
  unfold trim. split; intros H.
  - apply (f_equal (@rev N)) in H. rewrite rev_involutive in H. simpl in H.
    apply (proj1 (trim_start_nil _)) in H. apply (proj1 (blank_rev _)) in H.
    exact (proj1 (trim_start_blank s) H).
  - apply (proj2 (trim_start_blank s)) in H. apply (proj2 (blank_rev _)) in H.
    apply (proj2 (trim_start_nil _)) in H. now rewrite H.
Qed.

(** [hasText] fails exactly on the blank texts. *)
Lemma hasText_false (t : jsstring) : hasText t = false <-> blank t.
Proof.
  unfold hasText. destruct t as [|c t]; simpl truthy.
  - split; [constructor|reflexivity].
  - rewrite andb_true_l, truthy_false. apply trim_nil.
Qed.

(** A text with [hasText] holds a character that is not white space, hence
    not a space. *)
Lemma hasText_true (t : jsstring) :
  hasText t = true -> exists c, In c t /\ c <> space.
Proof.
  intros H.
  assert (Hnb : ~ blank t).
  { intros Hb. apply hasText_false in Hb. congruence. }
  unfold blank in Hnb. apply neg_Forall_Exists_neg in Hnb.
  - apply Exists_exists in Hnb as (c & Hin & Hc). exists c. split; [exact Hin|].
    intros E. subst c. apply Hc. reflexivity.
  - intros c. destruct (is_whitespace c); [now left|now right].
Qed.

Lemma split_space_char (s : jsstring) (c : N) :
  In c s -> c <> space -> exists w, In w (split_space s) /\ w <> [].
Proof.
  induction s as [|d s IH]; intros Hin Hc; [destruct Hin|].
  simpl split_space. destruct (N.eqb_spec d space) as [->|Hd].
  - destruct Hin as [E|Hin]; [congruence|].
    destruct (IH Hin Hc) as (w & Hw & Hne). exists w. split; [now right|exact Hne].
  - destruct (split_space s) as [|w0 ws]; eexists; (split; [now left|discriminate]).
Qed.

Lemma no_double_space_sound (a b : jsstring) :
  no_double_space (a ++ space :: space :: b) = false.
Proof.
  induction a as [|c a IH]; [reflexivity|].
  simpl app. simpl no_double_space.
  destruct (a ++ space :: space :: b) eqn:E.
  - now destruct a.
  - rewrite IH. apply andb_false_r.
Qed.

Lemma single_spacedb_sound (text : jsstring) :
  single_spacedb text = true -> single_spaced text.
Proof.
  unfold single_spacedb. intros H.
  apply andb_true_iff in H as [H H3]. apply andb_true_iff in H as [H1 H2].
  apply negb_true_iff in H1, H2.
  repeat split.
  - intros t ->. discriminate H1.
  - intros t ->. rewrite rev_app_distr in H2. discriminate H2.
  - intros a b ->. rewrite no_double_space_sound in H3. discriminate.
Qed.

(** * The specification's properties *)



(** C10. For a text with no leading, trailing or consecutive spaces, joining
    the lines of [wrapText] with single spaces gives the text back, and the
    words of the lines are the words of the text, each once and in order. *)
Theorem wrapText_preserves_text
    (measureText : Font -> jsstring -> Q) (context : CanvasRenderingContext2D)
    (text : jsstring) (maxWidth : Q) :
  single_spaced text ->
  join_space (wrapText measureText context text maxWidth) = text
  /\ List.concat (map split_space (wrapText measureText context text maxWidth))
     = filter truthy (split_space text).
Proof.
  intros Hs. destruct text as [|c text]; [split; reflexivity|].
  pose proof (single_spaced_words (c :: text) Hs ltac:(discriminate)) as Hw.
  assert (Hjoin : join_space (wrapText measureText context (c :: text) maxWidth) = c :: text).
  { rewrite wrapText_unfold. simpl truthy. cbv iota.
    rewrite fold_step_join by exact Hw. exact (join_split_space (c :: text)). }
  split; [exact Hjoin|].
  rewrite filter_truthy_id by exact Hw.
  rewrite <- Hjoin at 2. symmetry. apply split_join_space.
  intros E. rewrite E in Hjoin. discriminate.
Qed.

Lemma wrapText_preserves_text_witness :
  join_space (wrapText mono (set_font (englishFont 72) reset_ctx) ugadi 300) = ugadi
  /\ List.concat (map split_space (wrapText mono (set_font (englishFont 72) reset_ctx) ugadi 300))
     = filter truthy (split_space ugadi).
Proof.
  apply (wrapText_preserves_text mono (set_font (englishFont 72) reset_ctx) ugadi 300).
  apply single_spacedb_sound. reflexivity.
Defined.



(** C5. From one iteration of the fit loop to the next neither font size
    increases: a size is left unchanged, or it is multiplied by 0.9 and
    floored at [minFontSize], which happens only for a block whose text is
    present and whose size is above the floor. *)
Theorem monotonic_shrink
    (measureText : Font -> jsstring -> Q) (engText telText : jsstring) (w h : Q)
    (c : CanvasRenderingContext2D) (k : nat) (a b : Fit) :
  let run := fit_init w w h c
             :: fit_trace measureText engText telText w h maxIterations 0 (fit_init w w h c) in
  nth_error run k = Some a ->
  nth_error run (S k) = Some b ->
  englishFontSize b <= englishFontSize a
  /\ teluguFontSize b <= teluguFontSize a
  /\ (englishFontSize b = englishFontSize a
      \/ (hasEnglish engText = true /\ minFontSize w < englishFontSize a
          /\ englishFontSize b = Qmax (minFontSize w) (englishFontSize a * 0.9)))
  /\ (teluguFontSize b = teluguFontSize a
      \/ (hasTelugu telText = true /\ minFontSize w < teluguFontSize a
          /\ teluguFontSize b = Qmax (minFontSize w) (teluguFontSize a * 0.9))).
Proof.
  intros run Ha Hb.
  destruct (trace_step measureText engText telText w h _ _ _ _ _ _ Ha Hb) as [HE HT].
  assert (Hle : forall has x y, y = x \/ y = shrink w has x -> y <= x).
  { intros has x y [->| ->]; [lra|apply shrink_le]. }
  assert (Hcase : forall has x y, y = x \/ y = shrink w has x ->
            y = x \/ (has = true /\ minFontSize w < x /\ y = Qmax (minFontSize w) (x * 0.9))).
  { intros has x y [->| ->]; [now left|].
    destruct (shrink_cases w has x) as [(H1 & H2 & ->)|(_ & ->)]; [right|left]; auto. }
  repeat split; eauto.
Qed.

Lemma monotonic_shrink_witness :
  let a := nth 0 sample_run (fit_init 320 320 180 reset_ctx) in
  let b := nth 1 sample_run (fit_init 320 320 180 reset_ctx) in
  englishFontSize b <= englishFontSize a
  /\ teluguFontSize b <= teluguFontSize a
  /\ (englishFontSize b = englishFontSize a
      \/ (hasEnglish twelve_words = true /\ minFontSize 320 < englishFontSize a
          /\ englishFontSize b = Qmax (minFontSize 320) (englishFontSize a * 0.9)))
  /\ (teluguFontSize b = teluguFontSize a
      \/ (hasTelugu [] = true /\ minFontSize 320 < teluguFontSize a
          /\ teluguFontSize b = Qmax (minFontSize 320) (teluguFontSize a * 0.9))).
Proof.
  intros a b.
  apply (monotonic_shrink always_overflows twelve_words [] 320 180 reset_ctx 0 a b);
    reflexivity.
Defined.

(** C8. [wrapText] of the empty string is the empty array; when both texts
    are blank the solver leaves both blocks without lines, with zero block
    heights and a zero total height. *)
Theorem empty_input_handling (measureText : Font -> jsstring -> Q) :
  (forall context maxWidth, wrapText measureText context [] maxWidth = [])
  /\ (forall engText telText w h c,
        blank engText -> blank telText ->
        let s := solve measureText engText telText w h w h c in
        englishLines s = [] /\ teluguLines s = []
        /\ englishBlockHeight s == 0 /\ teluguBlockHeight s == 0
        /\ totalTextHeight engText telText h s == 0
        /\ totalActualTextHeight engText telText h s == 0).
Proof.
  split; [reflexivity|].
  intros engText telText w h c HE HT s.
  apply hasText_false in HE, HT.
  unfold s. rewrite solve_unfold.
  set (r := fit_loop measureText engText telText w h maxIterations 0 (fit_init w w h c)).
  destruct (measure_english measureText engText telText w r) as [_ HmE].
  destruct (measure_telugu measureText engText telText w r) as [_ HmT].
  unfold hasEnglish in HmE. unfold hasTelugu in HmT. rewrite HE in HmE. rewrite HT in HmT.
  destruct HmE as [HlE HhE]. destruct HmT as [HlT HhT].
  unfold totalTextHeight, totalActualTextHeight, hasEnglish.
  rewrite HE, HlE, HlT, HhE, HhT. simpl. repeat split; reflexivity.
Qed.

Lemma empty_input_handling_witness :
  let s := solve mono (lit "  ") [] 1920 1080 1920 1080 reset_ctx in
  englishLines s = [] /\ teluguLines s = []
  /\ englishBlockHeight s == 0 /\ teluguBlockHeight s == 0
  /\ totalTextHeight (lit "  ") [] 1080 s == 0
  /\ totalActualTextHeight (lit "  ") [] 1080 s == 0.
Proof.
  apply (proj2 (empty_input_handling mono) (lit "  ") [] 1920 1080 reset_ctx).
  - repeat constructor.
  - constructor.
Defined.

(** A text with a character other than a space gives at least one line. *)
Lemma wrapText_some_line
    (measureText : Font -> jsstring -> Q) (context : CanvasRenderingContext2D)
    (text : jsstring) (maxWidth : Q) (ch : N) :
  In ch text -> ch <> space -> wrapText measureText context text maxWidth <> [].
Proof.
  intros Hin Hch E.
  pose proof (wrapText_words measureText context maxWidth text) as Hw.
  rewrite E in Hw. simpl in Hw.
  destruct (split_space_char text ch Hin Hch) as (w & Hw1 & Hw2).
  assert (Hf : In w (filter truthy (split_space text))).
  { apply filter_In. split; [exact Hw1|now apply truthy_true]. }
  rewrite <- Hw in Hf. destruct Hf.
Qed.

(** In the solved state a present block has lines and a positive height. *)
Lemma solve_blocks_nonempty
    (measureText : Font -> jsstring -> Q) (engText telText : jsstring) (w h : Q)
    (c : CanvasRenderingContext2D) :
  let s := solve measureText engText telText w h w h c in
  (~ blank engText -> englishLines s <> [] /\ 0 < englishBlockHeight s)
  /\ (~ blank telText -> teluguLines s <> [] /\ 0 < teluguBlockHeight s).
Proof.
  intros s.
  destruct (solve_floor measureText engText telText w h w h c) as [HfE HfT].
  fold s in HfE, HfT.
  pose proof (minFontSize_floor w) as H8.
  pose proof (solve_measured measureText engText telText w h w h c) as Hm. fold s in Hm.
  destruct (measure_english measureText engText telText w s) as [_ HmE].
  destruct (measure_telugu measureText engText telText w s) as [_ HmT].
  rewrite Hm in HmE, HmT.
  assert (Hpos : forall (ls : list jsstring) size,
            ls <> [] -> minFontSize w <= size -> 0 < len ls * (size * 1.2)).
  { intros ls size Hls Hsize. pose proof (len_pos ls Hls).
    apply Qmult_lt_0_compat; lra. }
  split; intros Hnb.
  - assert (Hhas : hasEnglish engText = true).
    { unfold hasEnglish. destruct (hasText engText) eqn:E; [reflexivity|].
      apply hasText_false in E. contradiction. }
    rewrite Hhas in HmE. destruct HmE as [Hl Hh].
    destruct (hasText_true engText Hhas) as (ch & Hin & Hch).
    assert (Hne : englishLines s <> [])
      by (rewrite Hl; now apply (wrapText_some_line _ _ _ _ ch)).
    split; [exact Hne|]. rewrite Hh. now apply Hpos.
  - assert (Hhas : hasTelugu telText = true).
    { unfold hasTelugu. destruct (hasText telText) eqn:E; [reflexivity|].
      apply hasText_false in E. contradiction. }
    rewrite Hhas in HmT. destruct HmT as (c' & _ & Hl & Hh).
    destruct (hasText_true telText Hhas) as (ch & Hin & Hch).
    assert (Hne : teluguLines s <> [])
      by (rewrite Hl; now apply (wrapText_some_line _ _ _ _ ch)).
    split; [exact Hne|]. rewrite Hh. now apply Hpos.
Qed.

(** C9. No line returned by [wrapText] is the empty string; a text holding
    a character other than a space gives at least one line; hence in the
    solver a block whose text is not blank has at least one line and a
    positive block height. *)
Theorem wrapText_lines_nonempty (measureText : Font -> jsstring -> Q) :
  (forall context text maxWidth,
     Forall (fun l => l <> []) (wrapText measureText context text maxWidth))
  /\ (forall context text maxWidth ch,
        In ch text -> ch <> space -> wrapText measureText context text maxWidth <> [])
  /\ (forall engText telText w h c,
        let s := solve measureText engText telText w h w h c in
        (~ blank engText -> englishLines s <> [] /\ 0 < englishBlockHeight s)
        /\ (~ blank telText -> teluguLines s <> [] /\ 0 < teluguBlockHeight s)).
Proof.
  split; [intros; apply wrapText_lines_truthy|].
  split; [intros; eapply wrapText_some_line; eassumption|].
  intros. apply solve_blocks_nonempty.
Qed.

Lemma wrapText_lines_nonempty_witness :
  let s := solve mono ugadi [] 1920 1080 1920 1080 reset_ctx in
  englishLines s <> [] /\ 0 < englishBlockHeight s.
Proof.
  apply (proj1 (proj2 (proj2 (wrapText_lines_nonempty mono)) ugadi [] 1920 1080 reset_ctx)).
  intros Hb. inversion Hb as [|? ? Hc _]. discriminate Hc.
Defined.

Lemma gt_len_eqb {A : Type} (l : list A) :
  gt (len l) 0 = negb (Nat.eqb (List.length l) 0).
Proof.
  destruct l as [|a l]; [reflexivity|].
  simpl negb. apply gt_len. discriminate.
Qed.

Lemma not_blank_hasText (t : jsstring) : ~ blank t <-> hasText t = true.
Proof.
  split.
  - intros H. destruct (hasText t) eqn:E; [reflexivity|].
    apply hasText_false in E. contradiction.
  - intros H Hb. apply hasText_false in Hb. congruence.
Qed.

(** The two total heights, in terms of [padded]. *)
Lemma total_padded (engText telText : jsstring) (h : Q) (s : Fit) :
  let pad := if padded engText telText s then interTextPadding h else 0 in
  totalTextHeight engText telText h s = englishBlockHeight s + pad + teluguBlockHeight s
  /\ totalActualTextHeight engText telText h s
     = englishBlockHeight s + pad + teluguBlockHeight s.
Proof.
  unfold totalTextHeight, totalActualTextHeight, padded.
  rewrite !gt_len_eqb. split; reflexivity.
Qed.

(** C4. The total height, in the loop and before painting, is the sum of
    the two block heights plus the padding, which is counted exactly when
    both texts are present and both have lines; with a blank text the
    total is the sum of the block heights alone. *)
Theorem padding_conditionality
    (measureText : Font -> jsstring -> Q) (engText telText : jsstring) (w h : Q)
    (c : CanvasRenderingContext2D) :
  let s := solve measureText engText telText w h w h c in
  let pad := if padded engText telText s then interTextPadding h else 0 in
  interTextPadding h = Qmax 15 (h * 0.03)
  /\ totalTextHeight engText telText h s = englishBlockHeight s + pad + teluguBlockHeight s
  /\ totalActualTextHeight engText telText h s = englishBlockHeight s + pad + teluguBlockHeight s
  /\ (padded engText telText s = true <->
      ~ blank engText /\ ~ blank telText /\ englishLines s <> [] /\ teluguLines s <> [])
  /\ (padded engText telText s = true <-> ~ blank engText /\ ~ blank telText)
  /\ (blank engText \/ blank telText ->
      totalTextHeight engText telText h s == englishBlockHeight s + teluguBlockHeight s
      /\ totalActualTextHeight engText telText h s == englishBlockHeight s + teluguBlockHeight s).
Proof.
  intros s pad.
  assert (Hp : padded engText telText s = true <->
      ~ blank engText /\ ~ blank telText /\ englishLines s <> [] /\ teluguLines s <> []).
  { unfold padded, hasEnglish, hasTelugu. rewrite !andb_true_iff, !negb_true_iff.
    rewrite !Nat.eqb_neq, !not_blank_hasText.
    split; intros H; repeat split; try tauto;
      intros E; [rewrite E in H|rewrite E in H|apply length_zero_iff_nil in E|
                 apply length_zero_iff_nil in E]; simpl in H; tauto. }
  destruct (solve_blocks_nonempty measureText engText telText w h c) as [HlE HlT].
  fold s in HlE, HlT.
  pose proof (total_padded engText telText h s) as [Ht Ha]. fold pad in Ht, Ha.
  split; [reflexivity|]. split; [exact Ht|]. split; [exact Ha|]. split; [exact Hp|].
  split.
  - rewrite Hp. split; [tauto|]. intros [HE HT]. repeat split; tauto.
  - intros Hb. rewrite Ht, Ha. unfold pad.
    destruct (bool_dec (padded engText telText s) true) as [E|E].
    + apply Hp in E. tauto.
    + apply not_true_is_false in E. rewrite E. split; ring.
Qed.

Lemma padding_conditionality_witness :
  let s := solve mono (lit " ") ugadi 1920 1080 1920 1080 reset_ctx in
  totalTextHeight (lit " ") ugadi 1080 s == englishBlockHeight s + teluguBlockHeight s
  /\ totalActualTextHeight (lit " ") ugadi 1080 s
     == englishBlockHeight s + teluguBlockHeight s.
Proof.
  apply (proj2 (proj2 (proj2 (proj2 (proj2
           (padding_conditionality mono (lit " ") ugadi 1920 1080 reset_ctx)))))).
  left. repeat constructor.
Defined.

(** ** The compositor *)

Lemma placements_app (a b : list DrawOp) :
  placements (a ++ b) = placements a ++ placements b.
Proof. apply flat_map_app. Qed.

Lemma draw_lines_placements (w : Q) (lines : list jsstring) :
  forall (i : nat) (n currentY lineHeight : Q) (c : CanvasRenderingContext2D),
    placements (painted (draw_lines w i n lines currentY lineHeight c))
    = placements (painted c) ++ drawn_placements (textX w) i n currentY lineHeight lines.
Proof.
  induction lines as [|l lines IH]; intros i n currentY lineHeight c; simpl.
  - now rewrite app_nil_r.
  - rewrite IH. simpl painted. rewrite !placements_app. simpl.
    now rewrite <- !app_assoc.
Qed.

Lemma same_placement_refl (l : list (jsstring * Q * Q)) : Forall2 same_placement l l.
Proof.
  induction l as [|a l IH]; constructor; [|exact IH].
  repeat split; reflexivity.
Qed.

(** Around the centre of its block, [draw_lines] puts line [i] at the
    centre of the [i]-th slot from the top. *)
Lemma drawn_block (x top lineHeight n currentY : Q) (lines : list jsstring) :
  currentY == top + n * lineHeight / 2 ->
  forall i,
    Forall2 same_placement
      (drawn_placements x i n currentY lineHeight lines)
      (block_placements x top lineHeight i lines).
Proof.
  intros Hc. induction lines as [|l lines IH]; intros i; simpl; [constructor|].
  assert (Hy : currentY - ((n - 1) / 2 - inject_Z (Z.of_nat i)) * lineHeight
               == line_center top lineHeight i).
  { unfold line_center. rewrite Hc. field. }
  constructor; [|constructor; [|apply IH]]; repeat split; simpl; try reflexivity; exact Hy.
Qed.

(** The lines of a block are placed symmetrically around its centre. *)
Lemma line_center_symmetric (top lineHeight : Q) (n i : nat) :
  (i < n)%nat ->
  line_center top lineHeight i + line_center top lineHeight (n - 1 - i)
  == 2 * (top + inject_Z (Z.of_nat n) * lineHeight / 2).
Proof.
  intros Hi. unfold line_center.
  replace (Z.of_nat (n - 1 - i)) with (Z.of_nat n - 1 - Z.of_nat i)%Z by lia.
  unfold Zminus. rewrite !inject_Z_plus, !inject_Z_opp. simpl (inject_Z 1). field.
Qed.

(** What [compose] paints, case by case on the presence of each block. *)
Lemma compose_placements (engText telText : jsstring) (w h : Q) (s : Fit) :
  let E := hasEnglish engText && negb (Nat.eqb (List.length (englishLines s)) 0) in
  let T := hasTelugu telText && negb (Nat.eqb (List.length (teluguLines s)) 0) in
  let startY := (h - totalActualTextHeight engText telText h s) / 2 in
  placements (painted (compose engText telText w h s))
  = placements (painted (ctx s))
    ++ (if E
        then drawn_placements (textX w) 0 (len (englishLines s))
               (startY + englishBlockHeight s / 2) (englishLineHeight s) (englishLines s)
        else [])
    ++ (if T
        then drawn_placements (textX w) 0 (len (teluguLines s))
               (if E
                then startY + englishBlockHeight s / 2
                     + (englishBlockHeight s / 2 + interTextPadding h)
                     + teluguBlockHeight s / 2
                else startY + teluguBlockHeight s / 2)
               (teluguLineHeight s) (teluguLines s)
        else []).
Proof.
  intros E T startY. unfold compose. rewrite !gt_len_eqb. fold startY.
  unfold E, T.
  destruct (hasEnglish engText), (hasTelugu telText),
    (Nat.eqb (List.length (englishLines s)) 0), (Nat.eqb (List.length (teluguLines s)) 0);
    simpl; repeat (rewrite draw_lines_placements; simpl);
    rewrite ?app_nil_r, <- ?app_assoc; reflexivity.
Qed.

(** The solver sets fonts and measures; it paints nothing. *)
Lemma measure_painted (measureText : Font -> jsstring -> Q) (engText telText : jsstring)
    (w : Q) (s : Fit) :
  painted (ctx (measure_blocks measureText engText telText w s)) = painted (ctx s).
Proof.
  unfold measure_blocks. destruct (hasEnglish engText), (hasTelugu telText); reflexivity.
Qed.

Lemma loop_painted (measureText : Font -> jsstring -> Q) (engText telText : jsstring)
    (w h : Q) (fuel : nat) :
  forall i s, painted (ctx (fit_loop measureText engText telText w h fuel i s))
              = painted (ctx s).
Proof.
  induction fuel as [|fuel IH]; intros i s; [reflexivity|].
  simpl. unfold fit_body.
  destruct (le _ _); [apply measure_painted|].
  destruct (_ && _); [apply measure_painted|].
  rewrite IH. simpl. apply measure_painted.
Qed.

Lemma solve_painted (measureText : Font -> jsstring -> Q) (engText telText : jsstring)
    (w h iw ih : Q) (c : CanvasRenderingContext2D) :
  painted (ctx (solve measureText engText telText w h iw ih c)) = painted c.
Proof.
  unfold solve. rewrite measure_painted, loop_painted. reflexivity.
Qed.

(** In a measured state each block is as tall as its lines, and an absent
    block has no lines. *)
Lemma measured_blocks (measureText : Font -> jsstring -> Q) (engText telText : jsstring)
    (w : Q) (s : Fit) :
  measure_blocks measureText engText telText w s = s ->
  englishLineHeight s = englishFontSize s * 1.2
  /\ teluguLineHeight s = teluguFontSize s * 1.2
  /\ englishBlockHeight s == len (englishLines s) * englishLineHeight s
  /\ teluguBlockHeight s == len (teluguLines s) * teluguLineHeight s
  /\ (hasEnglish engText = false -> englishLines s = [])
  /\ (hasTelugu telText = false -> teluguLines s = []).
Proof.
  intros Hm.
  destruct (measure_english measureText engText telText w s) as [HE1 HE2].
  destruct (measure_telugu measureText engText telText w s) as [HT1 HT2].
  rewrite Hm in HE1, HE2, HT1, HT2.
  split; [exact HE1|]. split; [exact HT1|].
  rewrite HE1, HT1.
  destruct (hasEnglish engText), (hasTelugu telText);
    destruct HE2 as [HE2 HE3]; try destruct HT2 as (c' & _ & HT2 & HT3);
    try destruct HT2 as [HT2 HT3];
    rewrite HE3, HT3; repeat split; try reflexivity; try discriminate;
    try (intros _; assumption);
    try (rewrite HE2; unfold len; simpl; ring);
    try (rewrite HT2; unfold len; simpl; ring).
Qed.

(** C3. The compositor centres the text stack vertically: the stack, of
    height [totalActualTextHeight] (block heights plus the conditional
    padding), starts at [(canvasHeight - total) / 2], leaving equal margins
    above and below; the English lines are painted first, from the start of
    the stack, the Telugu lines next, from the end of the English block
    plus the padding when both blocks are there; line [i] of a block sits at
    the centre of the [i]-th slot of height [fontSize * 1.2], so that the
    lines of a block are symmetric around its centre. *)
Theorem compose_vertically_centered
    (measureText : Font -> jsstring -> Q) (engText telText : jsstring) (w h : Q)
    (c : CanvasRenderingContext2D) :
  let s := solve measureText engText telText w h w h c in
  let total := totalActualTextHeight engText telText h s in
  let startY := (h - total) / 2 in
  let pad := if padded engText telText s then interTextPadding h else 0 in
  let teluguTop := startY + englishBlockHeight s + pad in
  total == englishBlockHeight s + pad + teluguBlockHeight s
  /\ startY + total + startY == h
  /\ englishLineHeight s = englishFontSize s * 1.2
  /\ teluguLineHeight s = teluguFontSize s * 1.2
  /\ englishBlockHeight s == len (englishLines s) * englishLineHeight s
  /\ teluguBlockHeight s == len (teluguLines s) * teluguLineHeight s
  /\ Forall2 same_placement
       (placements (painted (compose engText telText w h s)))
       (placements (painted c)
        ++ block_placements (textX w) startY (englishLineHeight s) 0 (englishLines s)
        ++ block_placements (textX w) teluguTop (teluguLineHeight s) 0 (teluguLines s))
  /\ (forall i, (i < List.length (englishLines s))%nat ->
        line_center startY (englishLineHeight s) i
        + line_center startY (englishLineHeight s) (List.length (englishLines s) - 1 - i)
        == 2 * (startY + englishBlockHeight s / 2))
  /\ (forall i, (i < List.length (teluguLines s))%nat ->
        line_center teluguTop (teluguLineHeight s) i
        + line_center teluguTop (teluguLineHeight s) (List.length (teluguLines s) - 1 - i)
        == 2 * (teluguTop + teluguBlockHeight s / 2)).
Proof.
  intros s total startY pad teluguTop.
  pose proof (solve_measured measureText engText telText w h w h c) as Hm. fold s in Hm.
  destruct (measured_blocks measureText engText telText w s Hm)
    as (HlE & HlT & HbE & HbT & HnE & HnT).
  pose proof (total_padded engText telText h s) as [_ Htot].
  fold total in Htot. fold pad in Htot.
  split; [now rewrite Htot|].
  split; [unfold startY; field|].
  split; [exact HlE|]. split; [exact HlT|]. split; [exact HbE|]. split; [exact HbT|].
  split; [|split].
  - rewrite compose_placements. fold total. fold startY.
    pose proof (solve_painted measureText engText telText w h w h c) as Hp.
    fold s in Hp. rewrite Hp. clear Hp.
    apply Forall2_app; [apply same_placement_refl|].
    assert (Hpad : padded engText telText s
                   = (hasEnglish engText && negb (Nat.eqb (List.length (englishLines s)) 0))
                     && (hasTelugu telText && negb (Nat.eqb (List.length (teluguLines s)) 0))).
    { unfold padded.
      destruct (hasEnglish engText), (hasTelugu telText), (Nat.eqb _ 0), (Nat.eqb _ 0);
        reflexivity. }
    assert (HE0 : hasEnglish engText && negb (Nat.eqb (List.length (englishLines s)) 0) = false ->
                  englishLines s = []).
    { intros H. apply andb_false_iff in H as [H|H]; [now apply HnE|].
      apply negb_false_iff, Nat.eqb_eq in H. now apply length_zero_iff_nil. }
    assert (HT0 : hasTelugu telText && negb (Nat.eqb (List.length (teluguLines s)) 0) = false ->
                  teluguLines s = []).
    { intros H. apply andb_false_iff in H as [H|H]; [now apply HnT|].
      apply negb_false_iff, Nat.eqb_eq in H. now apply length_zero_iff_nil. }
    unfold teluguTop, pad. rewrite Hpad.
    destruct (hasEnglish engText && negb (Nat.eqb (List.length (englishLines s)) 0)) eqn:EE;
      destruct (hasTelugu telText && negb (Nat.eqb (List.length (teluguLines s)) 0)) eqn:ET;
      simpl andb; cbv iota;
      try (rewrite (HE0 eq_refl) in * );
      try (rewrite (HT0 eq_refl) in * );
      simpl block_placements; simpl app;
      repeat apply Forall2_app; try apply Forall2_nil.
    + apply drawn_block. rewrite HbE. field.
    + apply drawn_block. rewrite HbT. field.
    + apply drawn_block. rewrite HbE. field.
    + apply drawn_block. rewrite HbT.
      assert (H0 : englishBlockHeight s == 0).
      { rewrite HbE. unfold len. simpl. ring. }
      rewrite H0. field.
  - intros i Hi. rewrite line_center_symmetric by exact Hi.
    fold (len (englishLines s)). rewrite HbE. field.
  - intros i Hi. rewrite line_center_symmetric by exact Hi.
    fold (len (teluguLines s)). rewrite HbT. field.
Qed.

Lemma compose_vertically_centered_witness :
  let s := solve mono many_words [] 320 180 320 180 reset_ctx in
  let startY := (180 - totalActualTextHeight many_words [] 180 s) / 2 in
  line_center startY (englishLineHeight s) 0
  + line_center startY (englishLineHeight s) (List.length (englishLines s) - 1 - 0)
  == 2 * (startY + englishBlockHeight s / 2).
Proof.
  pose proof (compose_vertically_centered mono many_words [] 320 180 reset_ctx) as H.
  cbv zeta in H. destruct H as (_ & _ & _ & _ & _ & _ & _ & H & _).
  apply H. vm_compute. repeat constructor.
Defined.



(** C7. Whatever the provider answers, the details returned to the caller
    obey the language preference: no Telugu text under ['english'], no
    English text under ['telugu']. *)
Theorem language_constraint
    (fenceBody : jsstring -> option jsstring) (JSON_parse : jsstring -> Parsed)
    (mentionsApiKey : jsstring -> bool)
    (response : ProviderOutcome) (languagePreference : LanguagePreference)
    (details : PosterDetails) :
  extractPosterDetailsFromPrompt fenceBody JSON_parse mentionsApiKey response languagePreference
  = Returned details ->
  (languagePreference = english -> teluguText details = [])
  /\ (languagePreference = telugu -> englishText details = []).
Proof.
  unfold extractPosterDetailsFromPrompt, rethrow.
  destruct response as [text|[|] message].
  - destruct (JSON_parse _) as [| |[th|] [en|] [te|]];
      try (destruct (mentionsApiKey _); discriminate).
    intros H. injection H as <-.
    unfold enforceLanguagePreference.
    destruct languagePreference; split; intros E; try discriminate E; simpl.
    + destruct te; reflexivity.
    + destruct en; reflexivity.
  - destruct (mentionsApiKey message); discriminate.
  - discriminate.
Qed.

Lemma language_constraint_witness :
  let details := mkPosterDetails (lit "kites, bright festive colors") ugadi [] in
  (english = english -> teluguText details = [])
  /\ (english = telugu -> englishText details = []).
Proof.
  intros details.
  apply (language_constraint no_fence sample_parse no_api_key
           (ResponseText (lit "{}")) english details).
  reflexivity.
Defined.

(** * Further properties of the code *)

(** ** wrapText: greedy breaks, leading spaces, line count *)

Lemma adjacent_snoc {A : Type} (P : A -> A -> Prop) (l : list A) (a b : A) :
  adjacent P (l ++ [a]) -> P a b -> adjacent P (l ++ [a; b]).
Proof.
  induction l as [|x l IH]; intros H Hab; simpl in *; [auto|].
  destruct l as [|y l]; simpl in *; [tauto|].
  destruct H as [Hxy H]. split; [exact Hxy|]. now apply IH.
Qed.

Lemma adjacent_last {A : Type} (P : A -> A -> Prop) (l : list A) (a a' : A) :
  (forall x, P x a -> P x a') ->
  adjacent P (l ++ [a]) -> adjacent P (l ++ [a']).
Proof.
  intros HP. induction l as [|x l IH]; intros H; simpl in *; [auto|].
  destruct l as [|y l]; simpl in *.
  - split; [|exact I]. apply HP. tauto.
  - destruct H as [Hxy H]. split; [exact Hxy|]. now apply IH.
Qed.

Lemma adjacent_middle {A : Type} (P : A -> A -> Prop) (pre post : list A) (a b : A) :
  adjacent P (pre ++ a :: b :: post) -> P a b.
Proof.
  induction pre as [|x pre IH]; intros H; simpl in H; [tauto|].
  destruct (pre ++ a :: b :: post) eqn:E; [now destruct pre|].
  apply IH. tauto.
Qed.

Lemma first_word_extend (line w : jsstring) :
  first_word (line ++ space :: w) = first_word line.
Proof.
  unfold first_word. rewrite split_space_app.
  destruct (split_space line) eqn:E; [now destruct (split_space_not_nil line)|reflexivity].
Qed.

Section WrapTextMore.

Variable measureText : Font -> jsstring -> Q.
Variable context : CanvasRenderingContext2D.
Variable maxWidth : Q.

Let width := measureText (font (style context)).

(** The next line's first word did not fit at the end of the line. *)
Definition overflows (a b : jsstring) : Prop :=
  maxWidth < width (a ++ space :: first_word b).

Lemma fold_step_greedy (words : list jsstring) :
  Forall (fun w => w <> [] /\ ~ In space w) words ->
  forall st : list jsstring * jsstring,
    (snd st = [] -> fst st = []) ->
    adjacent overflows (flush st) ->
    adjacent overflows (flush (fold_left (wrap_step measureText context maxWidth) words st)).
Proof.
  induction words as [|w words IH]; intros Hw st Hnil Hadj; cbn [fold_left]; [exact Hadj|].
  inversion Hw as [|? ? [Hne Hsp] Hw2]; subst.
  assert (Htw : truthy w = true) by now apply truthy_true.
  destruct st as [lines cur]. simpl in Hnil.
  destruct (step_cases measureText context maxWidth lines cur w)
    as [(Hc & Hover & E)|[(Hc & _ & E)|(-> & E)]]; rewrite E.
  - apply IH; [exact Hw2|simpl; intros ->; discriminate|].
    unfold flush in *; simpl in *. rewrite Hc in Hadj. rewrite Htw.
    rewrite <- app_assoc. apply adjacent_snoc; [exact Hadj|].
    unfold overflows, first_word. rewrite split_space_word by exact Hsp. exact Hover.
  - apply IH; [exact Hw2|simpl; intros H; now destruct cur|].
    unfold flush in *; simpl in *. rewrite Hc in Hadj. rewrite truthy_extend.
    apply (adjacent_last _ lines cur); [|exact Hadj].
    intros x. unfold overflows. now rewrite first_word_extend.
  - rewrite (Hnil eq_refl). apply IH; [exact Hw2|simpl; intros ->; discriminate|].
    unfold flush; simpl. rewrite Htw. exact I.
Qed.

Lemma step_starts_with_word (st : list jsstring * jsstring) (w : jsstring) :
  ~ In space w ->
  Forall starts_with_word (flush st) -> Forall starts_with_word (flush (wrap_step measureText context maxWidth st w)).
Proof.
  intros Hsp Hst. destruct st as [lines cur].
  assert (Hw : truthy w = true -> starts_with_word w).
  { destruct w as [|c w]; [discriminate|]. intros _. exists c, w. split; [reflexivity|].
    intros ->. apply Hsp. now left. }
  destruct (step_cases measureText context maxWidth lines cur w)
    as [(Hc & _ & E)|[(Hc & _ & E)|(-> & E)]]; rewrite E.
  - rewrite flush_push by exact Hc. apply Forall_app; split; [exact Hst|].
    destruct (truthy w) eqn:Et; constructor; [now apply Hw|constructor].
  - unfold flush in *; simpl in *. rewrite Hc in Hst. rewrite truthy_extend.
    apply Forall_app in Hst as [Hlines Hcur]. apply Forall_app; split; [exact Hlines|].
    constructor; [|constructor].
    inversion Hcur as [|? ? (c & rest & -> & Hne) _]; subst.
    exists c, (rest ++ space :: w). split; [reflexivity|exact Hne].
  - unfold flush in *; simpl in *.
    destruct (truthy w) eqn:Et; [|exact Hst].
    apply Forall_app; split; [exact Hst|]. constructor; [now apply Hw|constructor].
Qed.

End WrapTextMore.

Lemma starts_with_word_count (lines : list jsstring) :
  Forall starts_with_word lines ->
  (List.length lines
   <= List.length (filter truthy (List.concat (map split_space lines))))%nat.
Proof.
  induction 1 as [|l lines (c & rest & -> & Hc) _ IH]; [reflexivity|].
  cbn [map List.concat]. rewrite filter_app, length_app.
  assert (1 <= List.length (filter truthy (split_space (c :: rest))))%nat;
    [|change (List.length ((c :: rest) :: lines)) with (S (List.length lines)); lia].
  simpl split_space. destruct (N.eqb_spec c space) as [->|_]; [congruence|].
  destruct (split_space rest); simpl; lia.
Qed.

(** X1. On a text with no leading, trailing or consecutive spaces the wrap is
    greedy: wherever [wrapText] breaks between two lines, the first word of
    the second line, appended to the first line after a space, measured
    wider than [maxWidth]. *)
Theorem wrapText_greedy
    (measureText : Font -> jsstring -> Q) (context : CanvasRenderingContext2D)
    (text : jsstring) (maxWidth : Q) (pre post : list jsstring) (a b : jsstring) :
  single_spaced text ->
  wrapText measureText context text maxWidth = pre ++ a :: b :: post ->
  maxWidth < measureText (font (style context)) (a ++ space :: first_word b).
Proof.
  intros Hs E. rewrite wrapText_unfold in E.
  destruct text as [|c text]; [now destruct pre|].
  simpl truthy in E. cbv iota in E.
  pose proof (single_spaced_words (c :: text) Hs ltac:(discriminate)) as Hw.
  assert (Hw' : Forall (fun w => w <> [] /\ ~ In space w) (split_space (c :: text))).
  { apply Forall_forall. intros w Hin. split.
    - now apply (proj1 (Forall_forall _ _) Hw).
    - now apply (split_space_no_space (c :: text)). }
  pose proof (fold_step_greedy measureText context maxWidth _ Hw' ([], [])
                (fun _ => eq_refl) I) as Hadj.
  rewrite E in Hadj. exact (adjacent_middle _ pre post a b Hadj).
Qed.

Lemma wrapText_greedy_witness :
  300 < mono (englishFont 72) (lit "Ugadi to" ++ space :: first_word (lit "All!")).
Proof.
  refine (wrapText_greedy mono (set_font (englishFont 72) reset_ctx) ugadi 300
            [lit "Happy"] [] (lit "Ugadi to") (lit "All!") _ _).
  - apply single_spacedb_sound. reflexivity.
  - vm_compute. reflexivity.
Defined.

(** X2. Every line returned by [wrapText] starts with a character other
    than a space (the spaces before the first word of a line are dropped),
    and there are no more lines than non-empty words in the text. *)
Theorem wrapText_lines_start_with_word
    (measureText : Font -> jsstring -> Q) (context : CanvasRenderingContext2D)
    (text : jsstring) (maxWidth : Q) :
  Forall starts_with_word (wrapText measureText context text maxWidth)
  /\ (List.length (wrapText measureText context text maxWidth)
      <= List.length (filter truthy (split_space text)))%nat.
Proof.
  assert (H : Forall starts_with_word (wrapText measureText context text maxWidth)).
  { rewrite wrapText_unfold. destruct (truthy text); [|constructor].
    apply fold_step_flush_Forall; [|constructor].
    intros st w Hw. apply step_starts_with_word.
    now apply (split_space_no_space text). }
  split; [exact H|].
  rewrite <- (wrapText_words measureText context maxWidth text).
  now apply starts_with_word_count.
Qed.

(** ** The solver: fresh lines, size bounds, iteration count and warning *)

(** [wrapText] reads the context only through its font. *)
Lemma wrapText_font
    (measureText : Font -> jsstring -> Q) (c c' : CanvasRenderingContext2D)
    (text : jsstring) (maxWidth : Q) :
  font (style c) = font (style c') ->
  wrapText measureText c text maxWidth = wrapText measureText c' text maxWidth.
Proof.
  intros H. unfold wrapText.
  replace (wrap_step measureText c maxWidth) with (wrap_step measureText c' maxWidth);
    [reflexivity|].
  unfold wrap_step. now rewrite H.
Qed.

(** X3. The lines the solver hands to the compositor are those of the text
    wrapped at the final font size of its block (none is left over from an
    earlier, larger size), the block height is their number times 1.2 times
    that size, and each of these lines is within 85% of the canvas width at
    that font or is a single word of the text. *)
Theorem solve_lines_fresh
    (measureText : Font -> jsstring -> Q) (engText telText : jsstring) (w h : Q)
    (c : CanvasRenderingContext2D) :
  let s := solve measureText engText telText w h w h c in
  (forall c', font (style c') = englishFont (englishFontSize s) ->
     englishLines s
     = if hasEnglish engText then wrapText measureText c' engText (w * 0.85) else [])
  /\ (forall c', font (style c') = teluguFont (teluguFontSize s) ->
        teluguLines s
        = if hasTelugu telText then wrapText measureText c' telText (w * 0.85) else [])
  /\ englishBlockHeight s == len (englishLines s) * (englishFontSize s * 1.2)
  /\ teluguBlockHeight s == len (teluguLines s) * (teluguFontSize s * 1.2)
  /\ Forall (fun l => measureText (englishFont (englishFontSize s)) l <= w * 0.85
                      \/ In l (split_space engText)) (englishLines s)
  /\ Forall (fun l => measureText (teluguFont (teluguFontSize s)) l <= w * 0.85
                      \/ In l (split_space telText)) (teluguLines s).
Proof.
  intros s.
  pose proof (solve_measured measureText engText telText w h w h c) as Hm. fold s in Hm.
  destruct (measure_english measureText engText telText w s) as [_ HmE].
  destruct (measure_telugu measureText engText telText w s) as [_ HmT].
  destruct (measured_blocks measureText engText telText w s Hm)
    as (HlE & HlT & HbE & HbT & _ & _).
  rewrite Hm in HmE, HmT.
  assert (HE : forall c', font (style c') = englishFont (englishFontSize s) ->
     englishLines s
     = if hasEnglish engText then wrapText measureText c' engText (w * 0.85) else []).
  { intros c' Hc'. destruct (hasEnglish engText); destruct HmE as [Hl _]; [|exact Hl].
    rewrite Hl. apply wrapText_font. now rewrite Hc'. }
  assert (HT : forall c', font (style c') = teluguFont (teluguFontSize s) ->
     teluguLines s
     = if hasTelugu telText then wrapText measureText c' telText (w * 0.85) else []).
  { intros c' Hc'. destruct (hasTelugu telText).
    - destruct HmT as (c0 & Hc0 & Hl & _). rewrite Hl. apply wrapText_font.
      now rewrite Hc0, Hc'.
    - now destruct HmT. }
  split; [exact HE|]. split; [exact HT|].
  split; [now rewrite HbE, HlE|]. split; [now rewrite HbT, HlT|].
  split; apply Forall_forall; intros l Hl.
  - rewrite (HE (set_font (englishFont (englishFontSize s)) reset_ctx) eq_refl) in Hl.
    destruct (hasEnglish engText); [|destruct Hl].
    exact (wrapText_fit_or_word measureText _ _ _ _ Hl).
  - rewrite (HT (set_font (teluguFont (teluguFontSize s)) reset_ctx) eq_refl) in Hl.
    destruct (hasTelugu telText); [|destruct Hl].
    exact (wrapText_fit_or_word measureText _ _ _ _ Hl).
Qed.

Lemma iter_shrink_le (w : Q) (has : bool) (n : nat) (size : Q) :
  Nat.iter n (shrink w has) size <= size.
Proof.
  induction n as [|n IH]; simpl; [lra|].
  pose proof (shrink_le w has (Nat.iter n (shrink w has) size)). lra.
Qed.

Lemma iter_shrink_absent (w : Q) (n : nat) (size : Q) :
  Nat.iter n (shrink w false) size = size.
Proof. induction n as [|n IH]; simpl; [reflexivity|exact IH]. Qed.

(** X4. The final font size of a block lies between [minFontSize] and the
    initial guess of its block, and the size of an absent block is its
    initial guess unchanged. *)
Theorem solve_sizes_bounded
    (measureText : Font -> jsstring -> Q) (engText telText : jsstring) (w h : Q)
    (c : CanvasRenderingContext2D) :
  let s := solve measureText engText telText w h w h c in
  let initialEnglish := Qmax (minFontSize w) (Qmin (w / 18) (h / 15)) in
  let initialTelugu := Qmax (minFontSize w) (Qmin (w / 16) (h / 12)) in
  (minFontSize w <= englishFontSize s /\ englishFontSize s <= initialEnglish)
  /\ (minFontSize w <= teluguFontSize s /\ teluguFontSize s <= initialTelugu)
  /\ (hasEnglish engText = false -> englishFontSize s = initialEnglish)
  /\ (hasTelugu telText = false -> teluguFontSize s = initialTelugu).
Proof.
  intros s initialEnglish initialTelugu.
  destruct (solve_floor measureText engText telText w h w h c) as [HfE HfT].
  fold s in HfE, HfT.
  unfold s. rewrite solve_unfold.
  set (r := fit_loop measureText engText telText w h maxIterations 0 (fit_init w w h c)).
  destruct (measure_sizes measureText engText telText w r) as (HsE & HsT & _).
  unfold s in HfE, HfT. rewrite solve_unfold in HfE, HfT. fold r in HfE, HfT.
  destruct (loop_exit measureText engText telText w h maxIterations 0 (fit_init w w h c))
    as (k & _ & HkE & HkT & _). fold r in HkE, HkT.
  simpl englishFontSize in HkE. simpl teluguFontSize in HkT.
  fold initialEnglish in HkE. fold initialTelugu in HkT.
  rewrite HsE, HsT in *. rewrite HkE, HkT in *.
  repeat split; try assumption; try apply iter_shrink_le.
  - intros ->. apply iter_shrink_absent.
  - intros ->. apply iter_shrink_absent.
Qed.

(** Once both sizes are at the floor, the iteration breaks out of the loop. *)
Lemma body_break_at_floor
    (measureText : Font -> jsstring -> Q) (engText telText : jsstring) (w h : Q)
    (i : nat) (s : Fit) :
  englishFontSize s <= minFontSize w -> teluguFontSize s <= minFontSize w ->
  exists s', fit_body measureText engText telText w h i s = Break s'.
Proof.
  intros HE HT.
  destruct (body_cases measureText engText telText w h i s)
    as [(E & _)|(s' & E & _ & _ & _ & _)]; [eauto|].
  exfalso. unfold fit_body in E.
  destruct (measure_sizes measureText engText telText w s) as (He & Ht & _).
  destruct (le (totalTextHeight _ _ _ _) _); [discriminate|].
  rewrite He, Ht in E.
  apply le_true in HE, HT. rewrite HE, HT in E. discriminate.
Qed.

(** If [n] shrinks bring both sizes to the floor, the loop runs at most
    [n + 1] iterations. *)
Lemma trace_bound
    (measureText : Font -> jsstring -> Q) (engText telText : jsstring) (w h : Q)
    (n : nat) :
  forall fuel i s,
    Nat.iter n (shrink w (hasEnglish engText)) (englishFontSize s) <= minFontSize w ->
    Nat.iter n (shrink w (hasTelugu telText)) (teluguFontSize s) <= minFontSize w ->
    (List.length (fit_trace measureText engText telText w h fuel i s) <= S n)%nat.
Proof.
  induction n as [|n IH]; intros fuel i s HE HT;
    (destruct fuel as [|fuel]; [simpl; lia|]); simpl fit_trace.
  - simpl in HE, HT.
    destruct (body_break_at_floor measureText engText telText w h i s HE HT) as [s' ->].
    simpl. lia.
  - destruct (body_cases measureText engText telText w h i s)
      as [(-> & _)|(s' & -> & He & Ht & _)]; [simpl; lia|].
    rewrite Nat.iter_succ_r in HE, HT. rewrite <- He in HE. rewrite <- Ht in HT.
    specialize (IH fuel (S i) s' HE HT). simpl. lia.
Qed.

(** Fifteen shrinks take an initial size down to the floor. *)
Lemma decay15 (w x : Q) :
  minFontSize w <= x ->
  x <= Qmax (minFontSize w) (w / 16) \/ x <= Qmax (minFontSize w) (w / 18) ->
  Nat.iter 15 (shrink w true) x <= minFontSize w.
Proof.
  intros Hx Hb.
  pose proof (minFontSize_floor w) as H8. pose proof (minFontSize_width w) as Hw.
  pose proof (iter_shrink_bound w 15 x) as H1.
  assert (E : Nat.iter 15 (fun y => y * 0.9) x == x * (205891132094649 # 1000000000000000)).
  { simpl. ring. }
  rewrite E in H1. clear E.
  set (floor := minFontSize w) in *.
  set (y := Nat.iter 15 (shrink w true) x) in *.
  assert (Hd : x * (205891132094649 # 1000000000000000) <= floor).
  { destruct Hb as [Hb|Hb];
      [destruct (Q.max_spec floor (w / 16)) as [[Hlt Hz]|[Hle Hz]]
      |destruct (Q.max_spec floor (w / 18)) as [[Hlt Hz]|[Hle Hz]]];
      rewrite Hz in Hb; clear Hz; qlra. }
  destruct (Q.max_spec floor (x * (205891132094649 # 1000000000000000)))
    as [[_ Hz]|[_ Hz]]; rewrite Hz in H1; lra.
Qed.

(** The warning counter moves only in an iteration of index 19 that goes on. *)
Lemma loop_warnings
    (measureText : Font -> jsstring -> Q) (engText telText : jsstring) (w h : Q)
    (fuel : nat) :
  forall i s,
    (i + fuel <= maxIterations)%nat ->
    let r := fit_loop measureText engText telText w h fuel i s in
    (warnings r <= S (warnings s))%nat
    /\ ((i + List.length (fit_trace measureText engText telText w h fuel i s)
         < maxIterations)%nat -> warnings r = warnings s).
Proof.
  unfold maxIterations.
  induction fuel as [|fuel IH]; intros i s Hi; simpl fit_loop; simpl fit_trace.
  - split; [lia|reflexivity].
  - destruct (measure_sizes measureText engText telText w s) as (_ & _ & Hw).
    destruct (body_cases measureText engText telText w h i s)
      as [(-> & _)|(s' & -> & _ & _ & _ & Hw')].
    + rewrite Hw. split; [lia|reflexivity].
    + destruct (IH (S i) s' ltac:(lia)) as [IH1 IH2]. rewrite Hw' in IH1, IH2.
      unfold maxIterations in *. simpl Nat.sub in *.
      destruct (Nat.eqb_spec i 19) as [->|Hne].
      * destruct fuel as [|fuel]; [|lia]. simpl. rewrite Hw'. simpl.
        split; [lia|]. intros H. lia.
      * split; [lia|]. intros H. apply IH2. simpl in H. lia.
Qed.

(** X5. The loop logs its warning at most once, and only if all twenty
    iterations ran.  When both texts are present the sizes reach the floor
    within fifteen shrinks, so the loop leaves through a [break] within
    sixteen iterations and the warning is never logged. *)
Theorem fit_loop_warning
    (measureText : Font -> jsstring -> Q) (engText telText : jsstring) (w h : Q)
    (c : CanvasRenderingContext2D) :
  let s := solve measureText engText telText w h w h c in
  let run := fit_trace measureText engText telText w h maxIterations 0 (fit_init w w h c) in
  (warnings s <= 1)%nat
  /\ (warnings s = 1%nat -> List.length run = 20%nat)
  /\ (hasEnglish engText = true -> hasTelugu telText = true ->
      (List.length run <= 16)%nat /\ warnings s = 0%nat).
Proof.
  intros s run.
  assert (Hs : warnings s
               = warnings (fit_loop measureText engText telText w h maxIterations 0
                             (fit_init w w h c))).
  { unfold s. rewrite solve_unfold.
    now destruct (measure_sizes measureText engText telText w
                    (fit_loop measureText engText telText w h maxIterations 0
                       (fit_init w w h c))) as (_ & _ & ->). }
  destruct (loop_warnings measureText engText telText w h maxIterations 0 (fit_init w w h c)
              ltac:(simpl; lia)) as [H1 H2].
  fold run in H2. rewrite <- Hs in H1, H2. simpl warnings in H1, H2.
  pose proof (trace_length measureText engText telText w h maxIterations 0
                (fit_init w w h c)) as Hlen. fold run in Hlen.
  unfold maxIterations in *.
  split; [exact H1|]. split.
  - intros Hw1. destruct (Nat.eq_dec (List.length run) 20) as [E|E]; [exact E|].
    rewrite H2 in Hw1 by (simpl; lia). discriminate.
  - intros HE HT.
    assert (Hb : (List.length run <= 16)%nat).
    { unfold run. apply trace_bound; rewrite ?HE, ?HT; simpl englishFontSize;
        simpl teluguFontSize; apply decay15; try apply Q.le_max_l.
      - right. apply Q.max_le_compat_l. apply Q.le_min_l.
      - left. apply Q.max_le_compat_l. apply Q.le_min_l. }
    split; [exact Hb|]. apply H2. simpl. lia.
Qed.

Lemma fit_loop_warning_witness :
  let s := solve always_overflows many_words many_words 1920 1080 1920 1080 reset_ctx in
  let run := fit_trace always_overflows many_words many_words 1920 1080 maxIterations 0
               (fit_init 1920 1920 1080 reset_ctx) in
  (List.length run <= 16)%nat /\ warnings s = 0%nat.
Proof.
  apply (proj2 (proj2 (fit_loop_warning always_overflows many_words many_words
                         1920 1080 reset_ctx))); reflexivity.
Defined.

(** ** The compositor: what is painted, and how *)

Lemma draw_lines_ops (w : Q) (lines : list jsstring) :
  forall (i : nat) (n currentY lineHeight : Q) (c : CanvasRenderingContext2D),
    painted (draw_lines w i n lines currentY lineHeight c)
    = painted c ++ block_ops (style c) (textX w) i n currentY lineHeight lines
    /\ style (draw_lines w i n lines currentY lineHeight c) = style c.
Proof.
  induction lines as [|l lines IH]; intros i n currentY lineHeight c; simpl.
  - now rewrite app_nil_r.
  - destruct (IH (S i) n currentY lineHeight
                (paint (FillText (style c) l (textX w)
                          (currentY - ((n - 1) / 2 - inject_Z (Z.of_nat i)) * lineHeight))
                   (paint (StrokeText (style c) l (textX w)
                             (currentY - ((n - 1) / 2 - inject_Z (Z.of_nat i)) * lineHeight))
                      c))) as [Hp Hs].
    simpl in Hp, Hs. rewrite Hp, Hs. rewrite <- !app_assoc. split; reflexivity.
Qed.

Lemma block_ops_pairs (st : Style) (x : Q) (n cy lh : Q) (lines : list jsstring) :
  forall i, stroke_fill_pairs (block_ops st x i n cy lh lines)
            /\ filled (block_ops st x i n cy lh lines) = lines
            /\ List.length (block_ops st x i n cy lh lines) = (2 * List.length lines)%nat
            /\ forall op, In op (block_ops st x i n cy lh lines) ->
                 exists t y, op = StrokeText st t x y \/ op = FillText st t x y.
Proof.
  induction lines as [|l lines IH]; intros i; simpl.
  - repeat split. intros op [].
  - destruct (IH (S i)) as (H1 & H2 & H3 & H4).
    repeat split; try exact H1.
    + now rewrite H2.
    + rewrite H3. lia.
    + intros op [<-|[<-|Hin]]; eauto.
Qed.

Lemma stroke_fill_pairs_app (a b : list DrawOp) :
  stroke_fill_pairs a -> stroke_fill_pairs b -> stroke_fill_pairs (a ++ b).
Proof.
  revert a. fix IH 1. intros [|op1 [|op2 a]] Ha Hb; simpl in *; try exact Hb.
  - destruct op1; contradiction.
  - destruct op1; try contradiction. destruct op2; try contradiction.
    destruct Ha as (-> & -> & -> & -> & Ha). repeat split. now apply IH.
Qed.

Lemma filled_app (a b : list DrawOp) : filled (a ++ b) = filled a ++ filled b.
Proof.
  induction a as [|op a IH]; [reflexivity|]. destruct op; simpl; now rewrite IH.
Qed.

(** The operations [compose] issues, case by case on the presence of each
    block, and the shadow it leaves behind. *)
Lemma compose_ops (engText telText : jsstring) (w h : Q) (s : Fit) :
  let E := hasEnglish engText && negb (Nat.eqb (List.length (englishLines s)) 0) in
  let T := hasTelugu telText && negb (Nat.eqb (List.length (teluguLines s)) 0) in
  let startY := (h - totalActualTextHeight engText telText h s) / 2 in
  let base := style (ctx s) in
  let c := compose engText telText w h s in
  painted c
  = painted (ctx s)
    ++ (if E
        then block_ops (text_style w base (englishFont (englishFontSize s)) (englishFontSize s))
               (textX w) 0 (len (englishLines s))
               (startY + englishBlockHeight s / 2) (englishLineHeight s) (englishLines s)
        else [])
    ++ (if T
        then block_ops (text_style w base (teluguFont (teluguFontSize s)) (teluguFontSize s))
               (textX w) 0 (len (teluguLines s))
               (if E
                then startY + englishBlockHeight s / 2
                     + (englishBlockHeight s / 2 + interTextPadding h)
                     + teluguBlockHeight s / 2
                else startY + teluguBlockHeight s / 2)
               (teluguLineHeight s) (teluguLines s)
        else [])
  /\ shadowColor (style c) = Transparent
  /\ shadowBlur (style c) = 0 /\ shadowOffsetX (style c) = 0 /\ shadowOffsetY (style c) = 0.
Proof.
  intros E T startY base c. unfold c, compose. rewrite !gt_len_eqb. fold startY.
  unfold E, T, base, text_style.
  destruct (hasEnglish engText), (hasTelugu telText),
    (Nat.eqb (List.length (englishLines s)) 0), (Nat.eqb (List.length (teluguLines s)) 0);
    simpl;
    repeat match goal with
      | |- context [draw_lines ?w ?i ?n ?ls ?cy ?lh ?c0] =>
          let Hp := fresh "Hp" in let Hs := fresh "Hs" in
          destruct (draw_lines_ops w ls i n cy lh c0) as [Hp Hs];
          rewrite ?Hp, ?Hs; clear Hp Hs; simpl
      end;
    rewrite ?app_nil_r, <- ?app_assoc; repeat split; reflexivity.
Qed.

(** The solver leaves the alignment of the context as it found it. *)
Lemma measure_align (measureText : Font -> jsstring -> Q) (engText telText : jsstring)
    (w : Q) (s : Fit) :
  textAlignCenter (style (ctx (measure_blocks measureText engText telText w s)))
  = textAlignCenter (style (ctx s))
  /\ textBaselineMiddle (style (ctx (measure_blocks measureText engText telText w s)))
     = textBaselineMiddle (style (ctx s)).
Proof.
  unfold measure_blocks. destruct (hasEnglish engText), (hasTelugu telText);
    split; reflexivity.
Qed.

Lemma body_align (measureText : Font -> jsstring -> Q) (engText telText : jsstring)
    (w h : Q) (i : nat) (s : Fit) :
  let after := match fit_body measureText engText telText w h i s with
               | Break s' => s'
               | Continue s' => s'
               end in
  textAlignCenter (style (ctx after)) = textAlignCenter (style (ctx s))
  /\ textBaselineMiddle (style (ctx after)) = textBaselineMiddle (style (ctx s)).
Proof.
  unfold fit_body.
  destruct (le _ _); [apply measure_align|].
  destruct (_ && _); simpl; apply measure_align.
Qed.

Lemma loop_align (measureText : Font -> jsstring -> Q) (engText telText : jsstring)
    (w h : Q) (fuel : nat) :
  forall i s,
    textAlignCenter (style (ctx (fit_loop measureText engText telText w h fuel i s)))
    = textAlignCenter (style (ctx s))
    /\ textBaselineMiddle (style (ctx (fit_loop measureText engText telText w h fuel i s)))
       = textBaselineMiddle (style (ctx s)).
Proof.
  induction fuel as [|fuel IH]; intros i s; [split; reflexivity|].
  pose proof (body_align measureText engText telText w h i s) as [H1 H2].
  cbn [fit_loop].
  destruct (fit_body measureText engText telText w h i s) as [s'|s']; [now split|].
  destruct (IH (S i) s') as [H3 H4]. split; congruence.
Qed.

Lemma solve_align (measureText : Font -> jsstring -> Q) (engText telText : jsstring)
    (w h iw ih : Q) (c : CanvasRenderingContext2D) :
  textAlignCenter (style (ctx (solve measureText engText telText w h iw ih c)))
  = textAlignCenter (style c)
  /\ textBaselineMiddle (style (ctx (solve measureText engText telText w h iw ih c)))
     = textBaselineMiddle (style c).
Proof.
  unfold solve.
  destruct (measure_align measureText engText telText w
              (fit_loop measureText engText telText w h maxIterations 0 (fit_init w iw ih c)))
    as [H1 H2].
  destruct (loop_align measureText engText telText w h maxIterations 0 (fit_init w iw ih c))
    as [H3 H4].
  change (ctx (fit_init w iw ih c)) with c in H3, H4. split; congruence.
Qed.

Lemma block_ops_legible (w : Q) (base : Style) (f : Font) (size x n cy lh : Q)
    (lines : list jsstring) (i : nat) :
  textAlignCenter base = true -> textBaselineMiddle base = true ->
  Forall (legible w) (block_ops (text_style w base f size) x i n cy lh lines).
Proof.
  intros Ha Hb. apply Forall_forall. intros op Hin.
  destruct (block_ops_pairs (text_style w base f size) x n cy lh lines i)
    as (_ & _ & _ & H).
  destruct (H op Hin) as (t & y & [-> | ->]); simpl;
    repeat split; try assumption; try reflexivity;
    try apply Q.le_max_l;
    (apply Q.max_lub; [lra|apply Q.le_min_l]).
Qed.

(** X6. [onload] paints the background image first, at the origin, and
    after it nothing but the lines of the English block followed by those
    of the Telugu block, each line stroked then filled at the same place:
    in white on a black outline 1 to 4 pixels wide, under the drop shadow,
    centred on its coordinates.  The shadow is switched off again before
    the canvas is encoded. *)
Theorem onload_paints_legible_text
    (measureText : Font -> jsstring -> Q) (img : Image) (engText telText : jsstring) :
  let s := fst (onload measureText img engText telText) in
  let c := snd (onload measureText img engText telText) in
  exists ops,
    painted c = DrawImage img 0 0 :: ops
    /\ Forall (legible (num (imgWidth img))) ops
    /\ stroke_fill_pairs ops
    /\ filled ops = englishLines s ++ teluguLines s
    /\ List.length ops
       = (2 * (List.length (englishLines s) + List.length (teluguLines s)))%nat
    /\ shadowColor (style c) = Transparent
    /\ shadowBlur (style c) = 0
    /\ shadowOffsetX (style c) = 0
    /\ shadowOffsetY (style c) = 0.
Proof.
  unfold onload. cbv zeta. simpl fst. simpl snd.
  set (w := num (imgWidth img)). set (h := num (imgHeight img)).
  set (c0 := set_align true true (paint (DrawImage img 0 0) reset_ctx)).
  set (s := solve measureText engText telText w h w h c0).
  destruct (compose_ops engText telText w h s) as (Hp & Hsh).
  destruct (solve_align measureText engText telText w h w h c0) as [Ha Hb].
  fold s in Ha, Hb. simpl in Ha, Hb.
  pose proof (solve_painted measureText engText telText w h w h c0) as Hp0.
  fold s in Hp0. simpl in Hp0. rewrite Hp0 in Hp. simpl app in Hp.
  pose proof (solve_measured measureText engText telText w h w h c0) as Hm. fold s in Hm.
  destruct (measured_blocks measureText engText telText w s Hm)
    as (_ & _ & _ & _ & HnE & HnT).
  assert (HE0 : hasEnglish engText && negb (Nat.eqb (List.length (englishLines s)) 0) = false ->
                englishLines s = []).
  { intros H. apply andb_false_iff in H as [H|H]; [now apply HnE|].
    apply negb_false_iff, Nat.eqb_eq in H. now apply length_zero_iff_nil. }
  assert (HT0 : hasTelugu telText && negb (Nat.eqb (List.length (teluguLines s)) 0) = false ->
                teluguLines s = []).
  { intros H. apply andb_false_iff in H as [H|H]; [now apply HnT|].
    apply negb_false_iff, Nat.eqb_eq in H. now apply length_zero_iff_nil. }
  eexists. split; [exact Hp|].
  split; [|split; [|split; [|split; [|exact Hsh]]]].
  - apply Forall_app; split;
      match goal with |- Forall _ (if ?b then _ else _) => destruct b end;
      try constructor; now apply block_ops_legible.
  - apply stroke_fill_pairs_app;
      match goal with |- stroke_fill_pairs (if ?b then _ else _) => destruct b end;
      try exact I; apply block_ops_pairs.
  - rewrite filled_app. f_equal.
    + destruct (hasEnglish engText && _) eqn:EE; [apply block_ops_pairs|].
      now rewrite (HE0 eq_refl).
    + destruct (hasTelugu telText && _) eqn:ET; [apply block_ops_pairs|].
      now rewrite (HT0 eq_refl).
  - rewrite length_app.
    assert (H1 : forall (b : bool) (ops : list DrawOp) (ls : list jsstring),
               List.length ops = (2 * List.length ls)%nat -> (b = false -> ls = []) ->
               List.length (if b then ops else []) = (2 * List.length ls)%nat).
    { intros [|] ops ls Hl Hn; [exact Hl|]. now rewrite (Hn eq_refl). }
    rewrite (H1 _ _ (englishLines s)); [|apply block_ops_pairs|exact HE0].
    rewrite (H1 _ _ (teluguLines s)); [|apply block_ops_pairs|exact HT0].
    lia.
Qed.

Lemma eq_Qeq (a b : Q) : a = b -> a == b.
Proof. intros ->. reflexivity. Qed.

Lemma drawn_placements_length (x n cy lh : Q) (lines : list jsstring) :
  forall i, List.length (drawn_placements x i n cy lh lines) = (2 * List.length lines)%nat.
Proof.
  induction lines as [|l lines IH]; intros i; simpl; [reflexivity|].
  rewrite IH. lia.
Qed.

(** The lines [draw_lines] paints around [cy] stay within the block of
    [N] lines centred there. *)
Lemma drawn_within (x cy lh : Q) (N : nat) (lines : list jsstring) :
  0 <= lh ->
  forall i, (i + List.length lines = N)%nat ->
    Forall (fun p : jsstring * Q * Q =>
              cy - inject_Z (Z.of_nat N) * lh / 2 <= snd p - lh / 2
              /\ snd p + lh / 2 <= cy + inject_Z (Z.of_nat N) * lh / 2)
           (drawn_placements x i (inject_Z (Z.of_nat N)) cy lh lines).
Proof.
  intros Hlh. induction lines as [|l lines IH]; intros i Hi; simpl; [constructor|].
  simpl in Hi. specialize (IH (S i) ltac:(lia)).
  set (n := inject_Z (Z.of_nat N)) in *. set (ii := inject_Z (Z.of_nat i)).
  assert (H0 : 0 <= ii * lh).
  { apply Qmult_le_0_compat; [|exact Hlh]. unfold ii.
    change 0 with (inject_Z 0). rewrite <- Zle_Qle. lia. }
  assert (H1 : 0 <= (n - 1 - ii) * lh).
  { apply Qmult_le_0_compat; [|exact Hlh]. unfold n, ii.
    assert (inject_Z (Z.of_nat i) + 1 <= inject_Z (Z.of_nat N)); [|lra].
    change 1 with (inject_Z 1). rewrite <- inject_Z_plus, <- Zle_Qle. lia. }
  assert (Hy : cy - n * lh / 2 <= cy - ((n - 1) / 2 - ii) * lh - lh / 2
               /\ cy - ((n - 1) / 2 - ii) * lh + lh / 2 <= cy + n * lh / 2).
  { split; qnorm; nra. }
  constructor; [exact Hy|]. constructor; [exact Hy|]. exact IH.
Qed.

(** X7. When the stack fits the available height, it starts at least 7.5%
    of the canvas height below the top, and every painted line, taken with
    its line height around its ordinate, lies inside the stack: no line
    comes closer than that to the top or the bottom of the canvas. *)
Theorem compose_within_canvas
    (measureText : Font -> jsstring -> Q) (engText telText : jsstring) (w h : Q)
    (c : CanvasRenderingContext2D) :
  let s := solve measureText engText telText w h w h c in
  let startY := (h - totalActualTextHeight engText telText h s) / 2 in
  totalActualTextHeight engText telText h s <= availableHeightForText h ->
  h * 0.075 <= startY
  /\ exists pe pt,
       placements (painted (compose engText telText w h s))
       = placements (painted c) ++ pe ++ pt
       /\ List.length pe = (2 * List.length (englishLines s))%nat
       /\ List.length pt = (2 * List.length (teluguLines s))%nat
       /\ Forall (within_stack h startY (englishLineHeight s)) pe
       /\ Forall (within_stack h startY (teluguLineHeight s)) pt.
Proof.
  intros s startY Hfit.
  pose proof (solve_measured measureText engText telText w h w h c) as Hm. fold s in Hm.
  destruct (measured_blocks measureText engText telText w s Hm)
    as (HlE & HlT & HbE & HbT & HnE & HnT).
  destruct (solve_floor measureText engText telText w h w h c) as [HfE HfT].
  fold s in HfE, HfT. pose proof (minFontSize_floor w) as H8.
  pose proof (total_padded engText telText h s) as [_ Htot]. cbv zeta in Htot.
  pose proof (Q.le_max_l 15 (h * 0.03)) as Hpad. fold (interTextPadding h) in Hpad.
  assert (HelE : 0 <= englishLineHeight s) by (rewrite HlE; lra).
  assert (HelT : 0 <= teluguLineHeight s) by (rewrite HlT; lra).
  assert (HhE : 0 <= len (englishLines s) * englishLineHeight s).
  { apply Qmult_le_0_compat; [|exact HelE].
    unfold len. change 0 with (inject_Z 0). rewrite <- Zle_Qle. lia. }
  assert (HhT : 0 <= len (teluguLines s) * teluguLineHeight s).
  { apply Qmult_le_0_compat; [|exact HelT].
    unfold len. change 0 with (inject_Z 0). rewrite <- Zle_Qle. lia. }
  assert (Hpadded : padded engText telText s
                 = (hasEnglish engText && negb (Nat.eqb (List.length (englishLines s)) 0))
                   && (hasTelugu telText && negb (Nat.eqb (List.length (teluguLines s)) 0))).
  { unfold padded.
    destruct (hasEnglish engText), (hasTelugu telText), (Nat.eqb _ 0), (Nat.eqb _ 0);
      reflexivity. }
  assert (HE0 : hasEnglish engText && negb (Nat.eqb (List.length (englishLines s)) 0) = false ->
                englishLines s = []).
  { intros H. apply andb_false_iff in H as [H|H]; [now apply HnE|].
    apply negb_false_iff, Nat.eqb_eq in H. now apply length_zero_iff_nil. }
  assert (HT0 : hasTelugu telText && negb (Nat.eqb (List.length (teluguLines s)) 0) = false ->
                teluguLines s = []).
  { intros H. apply andb_false_iff in H as [H|H]; [now apply HnT|].
    apply negb_false_iff, Nat.eqb_eq in H. now apply length_zero_iff_nil. }
  unfold availableHeightForText in Hfit.
  split; [unfold startY; qlra|].
  rewrite compose_placements. fold startY.
  pose proof (solve_painted measureText engText telText w h w h c) as Hp.
  fold s in Hp. rewrite Hp. clear Hp.
  rewrite Hpadded in Htot.
  pose proof (drawn_within (textX w) (startY + englishBlockHeight s / 2)
                (englishLineHeight s) (List.length (englishLines s)) (englishLines s) HelE 0%nat
                eq_refl) as HdE.
  fold (len (englishLines s)) in HdE.
  eexists. eexists. split; [reflexivity|].
  destruct (hasEnglish engText && negb (Nat.eqb (List.length (englishLines s)) 0)) eqn:EE;
    destruct (hasTelugu telText && negb (Nat.eqb (List.length (teluguLines s)) 0)) eqn:ET;
    simpl andb in Htot; cbv iota in Htot; apply eq_Qeq in Htot;
    try (rewrite (HE0 eq_refl) in * ); try (rewrite (HT0 eq_refl) in * );
    (split; [first [apply drawn_placements_length|reflexivity]|]);
    (split; [first [apply drawn_placements_length|reflexivity]|]);
    (split; [try constructor|try constructor]).
  - eapply Forall_impl; [|exact HdE]. intros p [H1 H2]. unfold within_stack.
    unfold startY in *. split; qlra.
  - pose proof (drawn_within (textX w)
                  (startY + englishBlockHeight s / 2
                   + (englishBlockHeight s / 2 + interTextPadding h)
                   + teluguBlockHeight s / 2)
                  (teluguLineHeight s) (List.length (teluguLines s)) (teluguLines s) HelT 0%nat
                  eq_refl) as HdT.
    fold (len (teluguLines s)) in HdT.
    eapply Forall_impl; [|exact HdT]. intros p [H1 H2]. unfold within_stack.
    unfold startY in *. split; qlra.
  - eapply Forall_impl; [|exact HdE]. intros p [H1 H2]. unfold within_stack.
    unfold startY in *. split; qlra.
  - pose proof (drawn_within (textX w) (startY + teluguBlockHeight s / 2)
                  (teluguLineHeight s) (List.length (teluguLines s)) (teluguLines s) HelT 0%nat
                  eq_refl) as HdT.
    fold (len (teluguLines s)) in HdT.
    assert (H0 : englishBlockHeight s == 0).
    { rewrite HbE. unfold len. simpl. ring. }
    eapply Forall_impl; [|exact HdT]. intros p [H1 H2]. unfold within_stack.
    unfold startY in *. split; qlra.
Qed.

Lemma compose_within_canvas_witness :
  let s := solve mono ugadi ugadi 1920 1080 1920 1080 reset_ctx in
  let startY := (1080 - totalActualTextHeight ugadi ugadi 1080 s) / 2 in
  1080 * 0.075 <= startY
  /\ exists pe pt,
       placements (painted (compose ugadi ugadi 1920 1080 s))
       = placements (painted reset_ctx) ++ pe ++ pt
       /\ List.length pe = (2 * List.length (englishLines s))%nat
       /\ List.length pt = (2 * List.length (teluguLines s))%nat
       /\ Forall (within_stack 1080 startY (englishLineHeight s)) pe
       /\ Forall (within_stack 1080 startY (teluguLineHeight s)) pt.
Proof.
  apply (compose_within_canvas mono ugadi ugadi 1920 1080 reset_ctx).
  vm_compute. discriminate.
Defined.

(** ** The download name *)

Lemma is_ascii_alnum_spec (c : N) :
  is_ascii_alnum c = true
  <-> (48 <= c <= 57)%N \/ (65 <= c <= 90)%N \/ (97 <= c <= 122)%N.
Proof.
  unfold is_ascii_alnum. rewrite !orb_true_iff, !andb_true_iff, !N.leb_le. tauto.
Qed.

Lemma is_filename_char_spec (c : N) :
  is_filename_char c = true
  <-> (97 <= c <= 122)%N \/ (48 <= c <= 57)%N \/ c = 95%N \/ c = 46%N.
Proof.
  unfold is_filename_char, underscore.
  rewrite !orb_true_iff, !andb_true_iff, !N.leb_le, !N.eqb_eq. tauto.
Qed.

Lemma sanitized_chars (s : jsstring) :
  Forall (fun c => is_filename_char c = true /\ c <> 46%N)
         (toLowerCase_ascii (replace_non_alnum s)).
Proof.
  unfold toLowerCase_ascii, replace_non_alnum. rewrite map_map.
  apply Forall_forall. intros c Hin. apply in_map_iff in Hin as (d & <- & _).
  rewrite is_filename_char_spec.
  destruct (is_ascii_alnum d) eqn:E.
  - apply is_ascii_alnum_spec in E.
    destruct (N.leb_spec 65 d), (N.leb_spec d 90); simpl; lia.
  - unfold underscore. simpl. lia.
Qed.

(** X8. A download happens exactly when there is a non-empty image URL; the
    link then points at that URL and its file name is a non-empty prefix of
    at most 30 characters followed by "_poster.png", made only of
    lower-case ASCII letters, digits, underscores and the one dot of the
    extension: whatever the user typed, the name is at most 41 characters
    of safe characters.  Without a query the prefix is "ai_poster". *)
Theorem download_name_safe
    (imageUrlToDownload originalUserQuery : option jsstring) :
  (handleDownloadImageForItem imageUrlToDownload originalUserQuery = None
   <-> imageUrlToDownload = None \/ imageUrlToDownload = Some [])
  /\ (forall link,
        handleDownloadImageForItem imageUrlToDownload originalUserQuery = Some link ->
        imageUrlToDownload = Some (href link)
        /\ Forall (fun c => is_filename_char c = true) (download link)
        /\ (List.length (download link) <= 41)%nat
        /\ exists prefix,
             download link = prefix ++ lit "_poster.png"
             /\ prefix <> [] /\ (List.length prefix <= 30)%nat
             /\ ~ In 46%N prefix
             /\ (originalUserQuery = None \/ originalUserQuery = Some [] ->
                 prefix = lit "ai_poster")
             /\ (forall q, originalUserQuery = Some q ->
                   q <> [] -> List.length prefix = Nat.min 30 (List.length q))).
Proof.
  assert (Hp : Forall (fun c => is_filename_char c = true /\ c <> 46%N)
                 (promptStart originalUserQuery)
               /\ promptStart originalUserQuery <> []
               /\ (List.length (promptStart originalUserQuery) <= 30)%nat
               /\ (originalUserQuery = None \/ originalUserQuery = Some [] ->
                   promptStart originalUserQuery = lit "ai_poster")
               /\ (forall q, originalUserQuery = Some q -> q <> [] ->
                     List.length (promptStart originalUserQuery)
                     = Nat.min 30 (List.length q))).
  { assert (Hdefault : Forall (fun c => is_filename_char c = true /\ c <> 46%N)
                         (lit "ai_poster")).
    { repeat constructor; discriminate. }
    unfold promptStart. destruct originalUserQuery as [[|c q]|]; cbn [truthy];
      (split; [|split; [|split; [|split]]]).
    - exact Hdefault.
    - discriminate.
    - simpl. lia.
    - reflexivity.
    - intros q H. injection H as <-. congruence.
    - apply sanitized_chars.
    - discriminate.
    - unfold toLowerCase_ascii, replace_non_alnum, substring0.
      rewrite !length_map, length_firstn. lia.
    - intros [H|H]; discriminate.
    - intros q' H. injection H as <-. intros _.
      unfold toLowerCase_ascii, replace_non_alnum, substring0.
      now rewrite !length_map, length_firstn.
    - exact Hdefault.
    - discriminate.
    - simpl. lia.
    - reflexivity.
    - intros q H. discriminate. }
  destruct Hp as (Hc & Hne & Hlen & Hdef & Hq).
  unfold handleDownloadImageForItem.
  destruct imageUrlToDownload as [[|u url]|]; cbn [truthy negb].
  - split; [split; auto|]. intros link H. discriminate.
  - split.
    { split; [discriminate|]. intros [H|H]; discriminate. }
    intros link H. injection H as <-. cbn [href download].
    split; [reflexivity|]. split; [|split].
    + apply Forall_app; split.
      * eapply Forall_impl; [|exact Hc]. now intros c [H _].
      * repeat constructor.
    + rewrite length_app. cbn [List.length]. lia.
    + exists (promptStart originalUserQuery). repeat split; try assumption.
      intros Hin. apply (proj1 (Forall_forall _ _) Hc) in Hin. now destruct Hin.
  - split; [split; auto|]. intros link H. discriminate.
Qed.

Lemma download_name_safe_witness :
  let link := mkDownloadLink (lit "data:image/png;base64,AAAA")
                (lit "happy_ugadi_to_all_" ++ lit "_poster.png") in
  Some (lit "data:image/png;base64,AAAA") = Some (href link)
  /\ Forall (fun c => is_filename_char c = true) (download link)
  /\ (List.length (download link) <= 41)%nat
  /\ exists prefix,
       download link = prefix ++ lit "_poster.png"
       /\ prefix <> [] /\ (List.length prefix <= 30)%nat
       /\ ~ In 46%N prefix
       /\ (Some ugadi = None \/ Some ugadi = Some [] -> prefix = lit "ai_poster")
       /\ (forall q, Some ugadi = Some q ->
             q <> [] -> List.length prefix = Nat.min 30 (List.length q)).
Proof.
  intros link.
  apply (proj2 (download_name_safe (Some (lit "data:image/png;base64,AAAA")) (Some ugadi))
           link).
  reflexivity.
Defined.

(** X9. A query holding no ASCII letter or digit (one written in Telugu
    script, say) gives a file name made of underscores alone before
    "_poster.png": one for each of its first 30 code units. *)
Theorem download_name_non_latin (url query : jsstring) :
  url <> [] -> query <> [] ->
  Forall (fun c => is_ascii_alnum c = false) query ->
  handleDownloadImageForItem (Some url) (Some query)
  = Some (mkDownloadLink url
            (repeat underscore (Nat.min 30 (List.length query)) ++ lit "_poster.png")).
Proof.
  intros Hu Hq Hall. unfold handleDownloadImageForItem, promptStart.
  apply truthy_true in Hu, Hq. rewrite Hu, Hq. cbn [negb].
  do 2 f_equal. f_equal.
  unfold substring0. rewrite <- length_firstn.
  assert (H : Forall (fun c => is_ascii_alnum c = false) (firstn 30 query)).
  { rewrite <- (firstn_skipn 30 query) in Hall. now apply Forall_app in Hall. }
  induction H as [|c l Hc _ IH]; [reflexivity|].
  simpl. rewrite Hc. simpl. now rewrite IH.
Qed.

Lemma download_name_non_latin_witness :
  handleDownloadImageForItem (Some (lit "data:,")) (Some telugu_prompt)
  = Some (mkDownloadLink (lit "data:,")
            (repeat underscore (Nat.min 30 (List.length telugu_prompt)) ++ lit "_poster.png")).
Proof.
  apply (download_name_non_latin (lit "data:,") telugu_prompt).
  - discriminate.
  - discriminate.
  - repeat constructor.
Defined.

(** ** Conversation sessions *)

Lemma streq_eq (a b : jsstring) : streq a b = true <-> a = b.
Proof.
  revert b. induction a as [|c a IH]; intros [|d b]; simpl; split; try congruence.
  - intros H. apply andb_true_iff in H as [H1 H2].
    apply N.eqb_eq in H1. apply IH in H2. congruence.
  - intros H. injection H as -> ->. rewrite N.eqb_refl. now apply IH.
Qed.

Lemma streq_refl (a : jsstring) : streq a a = true.
Proof. now apply streq_eq. Qed.

Lemma streq_neq (a b : jsstring) : streq a b = false <-> a <> b.
Proof.
  split.
  - intros H E. apply streq_eq in E. congruence.
  - intros H. destruct (streq a b) eqn:E; [|reflexivity]. apply streq_eq in E. contradiction.
Qed.

Lemma recent_first_cons (a : ConversationSession) (l : list ConversationSession) :
  recent_first (a :: l)
  <-> Forall (fun b => (createdAt b <= createdAt a)%N) l /\ recent_first l.
Proof.
  unfold recent_first. revert a. induction l as [|b l IH]; intros a.
  - simpl. split; auto.
  - change (adjacent (fun a b => (createdAt b <= createdAt a)%N) (a :: b :: l))
      with ((createdAt b <= createdAt a)%N
            /\ adjacent (fun a b => (createdAt b <= createdAt a)%N) (b :: l)).
    split.
    + intros [Hab Hl]. split; [|exact Hl].
      constructor; [exact Hab|]. apply IH in Hl as [Hl _].
      eapply Forall_impl; [|exact Hl]. simpl. intros. lia.
    + intros [Hall Hl]. split; [|exact Hl]. now inversion Hall.
Qed.

Lemma insert_session_In (x y : ConversationSession) (l : list ConversationSession) :
  In y (insert_session x l) <-> y = x \/ In y l.
Proof.
  induction l as [|z l IH]; simpl.
  - split; intros [H|H]; auto; try contradiction.
  - destruct (N.ltb (createdAt x) (createdAt z)); simpl; rewrite ?IH; split;
      intros H; intuition congruence.
Qed.

Lemma sort_sessions_In (y : ConversationSession) (l : list ConversationSession) :
  In y (sort_sessions l) <-> In y l.
Proof.
  induction l as [|x l IH]; simpl; [reflexivity|].
  rewrite insert_session_In, IH. split; intros [H|H]; auto.
Qed.

Lemma insert_session_recent_first (x : ConversationSession)
    (l : list ConversationSession) :
  recent_first l -> recent_first (insert_session x l).
Proof.
  induction l as [|y l IH]; intros Hl; simpl; [exact I|].
  apply recent_first_cons in Hl as [Hall Hl].
  destruct (N.ltb_spec (createdAt x) (createdAt y)) as [Hlt|Hge].
  - apply recent_first_cons. split; [|now apply IH].
    apply Forall_forall. intros z Hz. apply insert_session_In in Hz as [->|Hz]; [lia|].
    exact (proj1 (Forall_forall _ _) Hall z Hz).
  - apply recent_first_cons. split.
    + constructor; [exact Hge|]. eapply Forall_impl; [|exact Hall]. simpl. intros. lia.
    + apply recent_first_cons. split; assumption.
Qed.

Lemma sort_sessions_recent_first (l : list ConversationSession) :
  recent_first (sort_sessions l).
Proof.
  induction l as [|x l IH]; simpl; [exact I|]. now apply insert_session_recent_first.
Qed.

(** Sorting a list already in order changes nothing: the sort is stable. *)
Lemma sort_sessions_fixed (l : list ConversationSession) :
  recent_first l -> sort_sessions l = l.
Proof.
  induction l as [|x l IH]; intros Hl; [reflexivity|].
  apply recent_first_cons in Hl as [Hall Hl]. simpl. rewrite (IH Hl).
  destruct l as [|y l]; [reflexivity|]. simpl.
  inversion Hall as [|? ? Hy _]; subst.
  destruct (N.ltb_spec (createdAt x) (createdAt y)); [lia|reflexivity].
Qed.

Lemma sort_sessions_nil (l : list ConversationSession) :
  sort_sessions l = [] -> l = [].
Proof.
  destruct l as [|x l]; [reflexivity|]. intros H. exfalso.
  assert (Hin : In x (sort_sessions (x :: l))) by (apply sort_sessions_In; now left).
  rewrite H in Hin. destruct Hin.
Qed.


Lemma map_recent_first (f : ConversationSession -> ConversationSession)
    (l : list ConversationSession) :
  (forall s, createdAt (f s) = createdAt s) ->
  recent_first l -> recent_first (map f l).
Proof.
  intros Hf. induction l as [|x l IH]; intros Hl; [exact I|].
  apply recent_first_cons in Hl as [Hall Hl]. simpl.
  apply recent_first_cons. split; [|now apply IH].
  apply Forall_forall. intros y Hy. apply in_map_iff in Hy as (z & <- & Hz).
  rewrite !Hf. exact (proj1 (Forall_forall _ _) Hall z Hz).
Qed.

Lemma find_session_some (sessionId : jsstring) (l : list ConversationSession)
    (s : ConversationSession) :
  find_session sessionId l = Some s -> In s l /\ session_id s = sessionId.
Proof.
  unfold find_session. intros H. apply find_some in H as [Hin H].
  split; [exact Hin|now apply streq_eq].
Qed.

Lemma sessions_ok_sample : sessions_ok sample_sessions.
Proof.
  split; [discriminate|]. split.
  - eexists. split; [left; reflexivity|reflexivity].
  - simpl. split; [|exact I]. vm_compute. discriminate.
Qed.


Lemma map_update_ok (f : ConversationSession -> ConversationSession) (st : AppState) :
  (forall s, createdAt (f s) = createdAt s) ->
  (forall s, session_id (f s) = session_id s) ->
  sessions_ok st ->
  sessions_ok (setAllSessions (fun prev => sort_sessions (map f prev)) st).
Proof.
  intros Hc Hi (Hne & (s & Hin & Hs) & Hr). unfold sessions_ok, setAllSessions. simpl.
  split; [|split].
  - intros E. apply sort_sessions_nil in E. apply map_eq_nil in E. contradiction.
  - exists (f s). split; [|now rewrite Hi].
    apply sort_sessions_In. now apply in_map.
  - apply sort_sessions_recent_first.
Qed.

(** X10. The session handlers keep the list in a sound state: starting
    from the initial state, after [handleNewSession], [handleDeleteSession],
    [handleSelectSession] on a session of the list, [updateSessionItems] and
    [updateSessionTitle], there is always at least one session, the active
    session identifier names a session of the list, and the list is ordered
    from the most recent to the oldest. *)
Theorem sessions_ok_preserved
    (now : N) (sessionId newTitle : jsstring)
    (updateFn : list ConversationItem -> list ConversationItem) (st : AppState) :
  sessions_ok st ->
  sessions_ok (initialState now)
  /\ sessions_ok (handleNewSession now st)
  /\ sessions_ok (handleDeleteSession now sessionId st)
  /\ (forall s, In s (allSessions st) -> sessions_ok (handleSelectSession (session_id s) st))
  /\ sessions_ok (setAllSessions (updateSessionItems sessionId updateFn) st)
  /\ sessions_ok (setAllSessions (updateSessionTitle sessionId newTitle) st).
Proof.
  intros Hok. pose proof Hok as (Hne & (a & Hin & Ha) & Hr).
  assert (Hnew : forall l, sessions_ok
            (mkApp (sort_sessions (newSession now :: l)) (newSessionId now) [] false
               (showLanguageModal st) (pendingPrompt st)
               (languagePreferenceForGeneration st))).
  { intros l. split; [|split]; cbn [allSessions activeSessionId].
    - intros E. apply sort_sessions_nil in E. discriminate.
    - exists (newSession now). split; [|reflexivity].
      apply sort_sessions_In. now left.
    - apply sort_sessions_recent_first. }
  split; [exact (Hnew [])|]. split; [|split; [|split; [|split]]].
  - unfold handleNewSession.
    destruct (find_session (activeSessionId st) (allSessions st)) as [cur|] eqn:E;
      [|apply Hnew].
    destruct (_ && _); [|apply Hnew].
    apply find_session_some in E as [Hc Hi].
    split; [exact Hne|]. split; [|exact Hr]. exists cur. now split.
  - unfold handleDeleteSession.
    set (remaining := filter (fun s => negb (streq (session_id s) sessionId))
                        (allSessions st)).
    destruct (Nat.eqb_spec (List.length remaining) 0) as [E|E]; [exact (Hnew [])|].
    assert (Hrem : remaining <> []) by (intros H; rewrite H in E; now apply E).
    split; [|split]; cbn [allSessions activeSessionId].
    + intros H. apply sort_sessions_nil in H. contradiction.
    + destruct (streq (activeSessionId st) sessionId) eqn:Es.
      * destruct (sort_sessions remaining) as [|first rest] eqn:Er.
        { apply sort_sessions_nil in Er. contradiction. }
        exists first. split; [now left|reflexivity].
      * exists a. split; [|exact Ha]. apply sort_sessions_In. apply filter_In.
        split; [exact Hin|]. rewrite Ha. now rewrite Es.
    + apply sort_sessions_recent_first.
  - intros s Hs. split; [exact Hne|]. split; [|exact Hr]. exists s. now split.
  - apply map_update_ok; [| |exact Hok]; intros s; destruct (streq _ _); reflexivity.
  - apply map_update_ok; [| |exact Hok]; intros s; destruct (streq _ _); reflexivity.
Qed.

Lemma sessions_ok_preserved_witness :
  sessions_ok (initialState 1700000000900)
  /\ sessions_ok (handleNewSession 1700000000900 sample_sessions)
  /\ sessions_ok (handleDeleteSession 1700000000900 (newSessionId 1700000000400)
                    sample_sessions)
  /\ (forall s, In s (allSessions sample_sessions) ->
        sessions_ok (handleSelectSession (session_id s) sample_sessions))
  /\ sessions_ok (setAllSessions
                    (updateSessionItems (newSessionId 1700000000400) (fun items => []))
                    sample_sessions)
  /\ sessions_ok (setAllSessions
                    (updateSessionTitle (newSessionId 1700000000400) ugadi)
                    sample_sessions).
Proof.
  apply (sessions_ok_preserved 1700000000900 (newSessionId 1700000000400) ugadi
           (fun items => []) sample_sessions).
  exact sessions_ok_sample.
Defined.





(** X12. On a list in order, [updateSessionItems] and [updateSessionTitle]
    move no session: the result is the list with nothing changed but the
    items, or the title, of the sessions that bear the given identifier. *)
Theorem update_session_in_place
    (sessionId newTitle : jsstring)
    (updateFn : list ConversationItem -> list ConversationItem)
    (sessions : list ConversationSession) :
  recent_first sessions ->
  updateSessionItems sessionId updateFn sessions
  = map (fun s => if streq (session_id s) sessionId
                  then mkSession (session_id s) (title s) (updateFn (items s)) (createdAt s)
                  else s) sessions
  /\ updateSessionTitle sessionId newTitle sessions
     = map (fun s => if streq (session_id s) sessionId
                     then mkSession (session_id s) newTitle (items s) (createdAt s)
                     else s) sessions.
Proof.
  intros Hr. unfold updateSessionItems, updateSessionTitle.
  split; apply sort_sessions_fixed; apply map_recent_first; try exact Hr;
    intros s; destruct (streq _ _); reflexivity.
Qed.

Lemma update_session_in_place_witness :
  updateSessionItems (newSessionId 1700000000000) (fun items => [sample_item])
    (allSessions sample_sessions)
  = [mkSession (newSessionId 1700000000400) (lit "Ugadi Festival Poster")
       [sample_item] 1700000000400;
     mkSession (newSessionId 1700000000000) newChat [sample_item] 1700000000000].
Proof.
  rewrite (proj1 (update_session_in_place (newSessionId 1700000000000) []
                    (fun items => [sample_item]) (allSessions sample_sessions)
                    (proj2 (proj2 sessions_ok_sample)))).
  reflexivity.
Defined.



(** ** The image and title services *)

(** X14. When [generateImageWithGemini] returns, the provider answered
    with image bytes that are not empty, and the string returned is those
    bytes after the prefix "data:image/png;base64,": it is never the empty
    string. *)
Theorem generateImage_returns_data_url
    (mentionsApiKey : jsstring -> bool) (response : ImageProviderOutcome) (url : jsstring) :
  generateImageWithGemini mentionsApiKey response = ImageReturned url ->
  exists base64ImageBytes,
    response = ImagesResponse (Some base64ImageBytes)
    /\ base64ImageBytes <> []
    /\ url = dataUrlPrefix ++ base64ImageBytes
    /\ truthy url = true.
Proof.
  unfold generateImageWithGemini, rethrowImage.
  destruct response as [[bytes|]|[|] message].
  - destruct (truthy bytes) eqn:Hb.
    + intros H. injection H as <-. exists bytes.
      repeat split; try reflexivity. now apply truthy_true.
    + destruct (mentionsApiKey _); discriminate.
  - destruct (mentionsApiKey _); discriminate.
  - destruct (mentionsApiKey _); discriminate.
  - discriminate.
Qed.

Lemma generateImage_returns_data_url_witness :
  exists base64ImageBytes,
    ImagesResponse (Some (lit "iVBORw0KGgo=")) = ImagesResponse (Some base64ImageBytes)
    /\ base64ImageBytes <> []
    /\ lit "data:image/png;base64,iVBORw0KGgo=" = dataUrlPrefix ++ base64ImageBytes
    /\ truthy (lit "data:image/png;base64,iVBORw0KGgo=") = true.
Proof.
  apply (generateImage_returns_data_url no_api_key). reflexivity.
Defined.

(** X15. When [generateImageWithGemini] throws, the error tells what
    happened: the API-key error exactly when the message of the caught
    [Error] is one the key check recognises, the "unknown error" exactly
    when the provider threw something that is not an [Error], and otherwise
    the provider's message, wrapped.  The error raised inside the [try] for
    a response without image bytes is caught by the same [catch]: it reaches
    the caller wrapped like a provider failure, or as an API-key error,
    never as it was raised. *)
Theorem generateImage_failure
    (mentionsApiKey : jsstring -> bool) (response : ImageProviderOutcome) (e : ImageError) :
  generateImageWithGemini mentionsApiKey response = ImageThrew e ->
  let caught message :=
    response = ImagesThrown true message
    \/ (message = noImageGenerated
        /\ (response = ImagesResponse None \/ response = ImagesResponse (Some []))) in
  match e with
  | ImageInvalidApiKey => exists message, caught message /\ mentionsApiKey message = true
  | ImageApiFailed message => caught message /\ mentionsApiKey message = false
  | ImageUnknownError => exists message, response = ImagesThrown false message
  end.
Proof.
  unfold generateImageWithGemini, rethrowImage.
  destruct response as [[[|c bytes]|]|[|] message]; simpl.
  - destruct (mentionsApiKey noImageGenerated) eqn:Hk; intros H; injection H as <-.
    + exists noImageGenerated. split; [right; split; [reflexivity|now right]|exact Hk].
    + split; [right; split; [reflexivity|now right]|exact Hk].
  - discriminate.
  - destruct (mentionsApiKey noImageGenerated) eqn:Hk; intros H; injection H as <-.
    + exists noImageGenerated. split; [right; split; [reflexivity|now left]|exact Hk].
    + split; [right; split; [reflexivity|now left]|exact Hk].
  - destruct (mentionsApiKey message) eqn:Hk; intros H; injection H as <-.
    + exists message. split; [now left|exact Hk].
    + split; [now left|exact Hk].
  - intros H. injection H as <-. now exists message.
Qed.

Lemma generateImage_failure_witness :
  (ImagesResponse None = ImagesThrown true noImageGenerated
   \/ (noImageGenerated = noImageGenerated
       /\ (ImagesResponse None = ImagesResponse None
           \/ ImagesResponse None = ImagesResponse (Some []))))
  /\ no_api_key noImageGenerated = false.
Proof.
  apply (generateImage_failure no_api_key (ImagesResponse None)
           (ImageApiFailed noImageGenerated)).
  reflexivity.
Defined.

Lemma strip_quotes_shape (s : jsstring) :
  exists pre post,
    s = pre ++ strip_quotes s ++ post
    /\ (pre = [] \/ exists q, is_quote q = true /\ pre = [q])
    /\ (post = [] \/ exists q, is_quote q = true /\ post = [q]).
Proof.
  unfold strip_quotes.
  assert (Hend : forall s1 : jsstring,
             exists post,
               s1 = match rev s1 with
                    | c :: rest => if is_quote c then rev rest else s1
                    | [] => s1
                    end ++ post
               /\ (post = [] \/ exists q, is_quote q = true /\ post = [q])).
  { intros s1. destruct (rev s1) as [|c rest] eqn:Hr.
    - exists []. split; [now rewrite app_nil_r|now left].
    - destruct (is_quote c) eqn:Hq.
      + exists [c]. split; [|right; now exists c].
        rewrite <- (rev_involutive s1), Hr. reflexivity.
      + exists []. split; [now rewrite app_nil_r|now left]. }
  destruct s as [|c rest].
  - exists [], []. repeat split; now left.
  - destruct (is_quote c) eqn:Hq.
    + destruct (Hend rest) as (post & Hp & Hpost).
      exists [c], post. split; [|split; [right; now exists c|exact Hpost]].
      simpl. f_equal. exact Hp.
    + destruct (Hend (c :: rest)) as (post & Hp & Hpost).
      exists [], post. split; [exact Hp|split; [now left|exact Hpost]].
Qed.

(** X16. [summarizePromptForTitle] always returns a string.  It is empty
    when the prompt is empty or blank, and when the provider call or the
    reading of its answer throws; otherwise it is the answer, trimmed, less
    at most one quotation mark (double or single) at its start and at most
    one at its end, and nothing else of the answer is lost. *)
Theorem summarized_title_shape (response : ProviderOutcome) (userPrompt : jsstring) :
  let summarizedTitle := summarizePromptForTitle response userPrompt in
  match response with
  | Thrown _ _ => summarizedTitle = []
  | ResponseText text =>
      if hasText userPrompt
      then exists pre post,
             trim text = pre ++ summarizedTitle ++ post
             /\ (pre = [] \/ exists q, is_quote q = true /\ pre = [q])
             /\ (post = [] \/ exists q, is_quote q = true /\ post = [q])
      else summarizedTitle = []
  end.
Proof.
  unfold summarizePromptForTitle, hasText.
  assert (Hl : Nat.eqb (List.length (trim userPrompt)) 0 = negb (truthy (trim userPrompt))).
  { destruct (trim userPrompt); reflexivity. }
  rewrite Hl.
  destruct response as [text|b message].
  - destruct (truthy userPrompt), (truthy (trim userPrompt)); simpl; try reflexivity.
    apply strip_quotes_shape.
  - simpl. destruct (negb (truthy userPrompt) || negb (truthy (trim userPrompt))); reflexivity.
Qed.

(** ** The generation pipeline *)

Lemma updateSessionItems_In (sessionId : jsstring)
    (updateFn : list ConversationItem -> list ConversationItem)
    (l : list ConversationSession) (s' : ConversationSession) :
  In s' (updateSessionItems sessionId updateFn l)
  <-> exists s, In s l
                /\ s' = if streq (session_id s) sessionId
                        then mkSession (session_id s) (title s) (updateFn (items s))
                               (createdAt s)
                        else s.
Proof.
  unfold updateSessionItems. rewrite sort_sessions_In, in_map_iff.
  split; intros (s & H1 & H2); exists s; split; auto.
Qed.

Lemma updateSessionTitle_In (sessionId newTitle : jsstring)
    (l : list ConversationSession) (s' : ConversationSession) :
  In s' (updateSessionTitle sessionId newTitle l)
  <-> exists s, In s l
                /\ s' = if streq (session_id s) sessionId
                        then mkSession (session_id s) newTitle (items s) (createdAt s)
                        else s.
Proof.
  unfold updateSessionTitle. rewrite sort_sessions_In, in_map_iff.
  split; intros (s & H1 & H2); exists s; split; auto.
Qed.

Lemma for_session_items (sessionId : jsstring)
    (updateFn : list ConversationItem -> list ConversationItem)
    (Q Q' : ConversationSession -> Prop) (l : list ConversationSession) :
  for_session sessionId Q l ->
  (forall s, Q s ->
             Q' (mkSession (session_id s) (title s) (updateFn (items s)) (createdAt s))) ->
  for_session sessionId Q' (updateSessionItems sessionId updateFn l).
Proof.
  intros Hl Hq s' Hin Hid. apply updateSessionItems_In in Hin as (s & Hin & ->).
  destruct (streq (session_id s) sessionId) eqn:E.
  - apply Hq, (Hl s Hin). now apply streq_eq.
  - apply streq_neq in E. contradiction.
Qed.

Lemma for_session_title (sessionId newTitle : jsstring)
    (Q Q' : ConversationSession -> Prop) (l : list ConversationSession) :
  for_session sessionId Q l ->
  (forall s, Q s -> Q' (mkSession (session_id s) newTitle (items s) (createdAt s))) ->
  for_session sessionId Q' (updateSessionTitle sessionId newTitle l).
Proof.
  intros Hl Hq s' Hin Hid. apply updateSessionTitle_In in Hin as (s & Hin & ->).
  destruct (streq (session_id s) sessionId) eqn:E.
  - apply Hq, (Hl s Hin). now apply streq_eq.
  - apply streq_neq in E. contradiction.
Qed.

Lemma updateItem_ends (aiResponseId : jsstring) (f : ConversationItem -> ConversationItem)
    (u a : ConversationItem) (older : list ConversationItem) :
  streq (item_id u) aiResponseId = false -> item_id a = aiResponseId ->
  updateItem aiResponseId f (older ++ [u; a])
  = updateItem aiResponseId f older ++ [u; f a].
Proof.
  intros Hu Ha. unfold updateItem. rewrite map_app. simpl.
  rewrite Hu, Ha, streq_refl. reflexivity.
Qed.

Lemma same_but_refl (sessionId : jsstring) (l : list ConversationSession) :
  same_but sessionId l l.
Proof.
  exists (fun s => s). split; [now rewrite map_id|]. intros s. repeat split.
Qed.

(** A session-wise update of a list in order: the sort that follows it
    changes nothing. *)
Lemma same_but_update (sessionId : jsstring)
    (g : ConversationSession -> ConversationSession)
    (l0 l : list ConversationSession) :
  (forall s, session_id (g s) = session_id s) ->
  (forall s, createdAt (g s) = createdAt s) ->
  same_but sessionId l0 l -> recent_first l ->
  let l' := sort_sessions
              (map (fun s => if streq (session_id s) sessionId then g s else s) l) in
  same_but sessionId l0 l' /\ recent_first l'.
Proof.
  intros Hi Hc (F & -> & HF) Hr l'.
  set (G := fun s => if streq (session_id s) sessionId then g s else s).
  assert (HG : forall s, session_id (G s) = session_id s /\ createdAt (G s) = createdAt s
                         /\ (session_id s <> sessionId -> G s = s)).
  { intros s. unfold G. destruct (streq (session_id s) sessionId) eqn:E.
    - repeat split; auto. intros Hn. apply streq_eq in E. contradiction.
    - repeat split. }
  assert (Hr' : recent_first (map G (map F l0))).
  { apply map_recent_first; [|exact Hr]. intros s. apply HG. }
  unfold l'. fold G. rewrite (sort_sessions_fixed _ Hr'). split; [|exact Hr'].
  exists (fun s => G (F s)). split; [now rewrite map_map|].
  intros s. destruct (HF s) as (F1 & F2 & F3). destruct (HG (F s)) as (G1 & G2 & G3).
  repeat split; try congruence.
  intros Hn. rewrite G3; [now apply F3|congruence].
Qed.

Lemma framed_items (sessionId : jsstring)
    (updateFn : list ConversationItem -> list ConversationItem) (st0 st : AppState) :
  framed sessionId st0 st ->
  framed sessionId st0 (setAllSessions (updateSessionItems sessionId updateFn) st).
Proof.
  intros (Hs & Hr & Ha & Hu & Hm).
  destruct (same_but_update sessionId
              (fun s => mkSession (session_id s) (title s) (updateFn (items s)) (createdAt s))
              (allSessions st0) (allSessions st)) as [H1 H2]; auto.
  repeat split; assumption.
Qed.

Lemma framed_title (sessionId newTitle : jsstring) (st0 st : AppState) :
  framed sessionId st0 st ->
  framed sessionId st0 (setAllSessions (updateSessionTitle sessionId newTitle) st).
Proof.
  intros (Hs & Hr & Ha & Hu & Hm).
  destruct (same_but_update sessionId
              (fun s => mkSession (session_id s) newTitle (items s) (createdAt s))
              (allSessions st0) (allSessions st)) as [H1 H2]; auto.
  repeat split; assumption.
Qed.

Section GenerationFacts.

Variable measureText : Font -> jsstring -> Q.
Variable fenceBody : jsstring -> option jsstring.
Variable JSON_parse : jsstring -> Parsed.
Variable mentionsApiKey : jsstring -> bool.
Variable dataUrlString : DataURL -> jsstring.
Variable env : GenerationEnv.
Variable closure : AppState.
Variable promptToGenerate : jsstring.
Variable langPref : LanguagePreference.

Local Abbreviation sid := (activeSessionId closure).
Local Abbreviation aid := (aiResponseId env).
Local Abbreviation user := (userMessage env promptToGenerate).
Local Abbreviation try_generation :=
  (tryGeneration measureText fenceBody JSON_parse mentionsApiKey dataUrlString env closure
     promptToGenerate langPref).
Local Abbreviation proceed :=
  (proceedWithGeneration measureText fenceBody JSON_parse mentionsApiKey dataUrlString env
     closure promptToGenerate langPref).

Lemma user_not_ai : streq (item_id user) aid = false.
Proof. reflexivity. Qed.

(** Every state change of the [try] block is an update of the items or of
    the title of the session the callback was created for. *)
Lemma tryGeneration_invariant (I : AppState -> Prop) :
  (forall f st, I st -> I (setAllSessions (updateSessionItems sid f) st)) ->
  (forall t st, I st -> I (setAllSessions (updateSessionTitle sid t) st)) ->
  forall b st, I st -> I (fst (try_generation b st)).
Proof.
  intros Hitems Htitle b st Hst. unfold tryGeneration.
  destruct (extractPosterDetailsFromPrompt _ _ _ _ _) as [details|e]; [|exact Hst].
  cbv zeta.
  assert (H1 : I (updateActiveItems env closure
                    (withLoadingStep (lit "Creating background image...")) st))
    by now apply Hitems.
  destruct (truthy (theme details)); [|exact H1]. cbn [negb].
  assert (H2 : I (titleFromText closure promptToGenerate b details
                    (updateActiveItems env closure
                       (withLoadingStep (lit "Creating background image...")) st))).
  { unfold titleFromText.
    destruct (find_session _ _); [|exact H1].
    destruct (_ || _ || _); [|exact H1].
    destruct (truthy (englishText details)); [now apply Htitle|].
    destruct (truthy (teluguText details)); [now apply Htitle|exact H1]. }
  destruct (generateImageWithGemini _ _) as [baseImageUrl|e]; [|exact H2].
  destruct (truthy baseImageUrl); [|exact H2]. cbn [negb].
  destruct (drawImageWithTextOverlay _ _ _ _ _ _) as [finalImageUrl|e]; cbn [fst];
    now repeat apply Hitems.
Qed.

Lemma proceedWithGeneration_invariant (I : AppState -> Prop) :
  (forall f st, I st -> I (setAllSessions (updateSessionItems sid f) st)) ->
  (forall t st, I st -> I (setAllSessions (updateSessionTitle sid t) st)) ->
  (forall b st, I st -> I (setIsOverallLoading b st)) ->
  (forall st, I st -> I (finallyGeneration st)) ->
  forall st, I st -> I (proceed st).
Proof.
  intros Hitems Htitle Hload Hfinally st Hst. unfold proceedWithGeneration.
  destruct (_ || _); [now apply Hload|].
  assert (H1 : I (fst (summarizeTitle env closure promptToGenerate
                         (setIsOverallLoading true st)))).
  { unfold summarizeTitle. destruct (find_session _ _); [|now apply Hload].
    destruct (_ && _); [|now apply Hload].
    destruct (_ && _); [|now apply Hload].
    now apply Htitle, Hload. }
  destruct (summarizeTitle _ _ _ _) as [st1 b]. cbn [fst] in H1.
  pose proof (tryGeneration_invariant I Hitems Htitle b _
                (Hitems (fun items => items ++ [user; aiInitialMessage env promptToGenerate])
                   _ H1)) as H2.
  destruct (try_generation b _) as [st2 thrown]. cbn [fst] in H2.
  apply Hfinally. destruct thrown; [now apply Hitems|exact H2].
Qed.

Lemma ends_items (P P' : ConversationItem -> Prop)
    (f : ConversationItem -> ConversationItem) (l : list ConversationSession) :
  for_session sid (ends_with user P) l ->
  (forall a, P a -> item_id a = aid /\ P' (f a)) ->
  for_session sid (ends_with user P') (updateSessionItems sid (updateItem aid f) l).
Proof.
  intros Hl Hf. apply (for_session_items _ _ _ _ _ Hl).
  intros s (older & a & Hi & Ha). destruct (Hf a Ha) as [Hid Hfa].
  exists (updateItem aid f older), (f a). split; [|exact Hfa].
  cbn [items]. rewrite Hi. now apply updateItem_ends; [apply user_not_ai|].
Qed.

Lemma ends_title (P : ConversationItem -> Prop) (newTitle : jsstring)
    (l : list ConversationSession) :
  for_session sid (ends_with user P) l ->
  for_session sid (ends_with user P) (updateSessionTitle sid newTitle l).
Proof.
  intros Hl. apply (for_session_title _ _ _ _ _ Hl). intros s Hs. exact Hs.
Qed.

Lemma pending_loadingStep (step : jsstring) (a : ConversationItem) :
  pending aid promptToGenerate a ->
  item_id a = aid /\ pending aid promptToGenerate (withLoadingStep step a).
Proof. intros H. split; [apply H|exact H]. Qed.

Lemma pending_image (finalImageUrl : jsstring) (a : ConversationItem) :
  pending aid promptToGenerate a ->
  item_id a = aid /\ settled aid promptToGenerate (withImage finalImageUrl a).
Proof.
  intros (H1 & H2 & H3 & H4 & H5 & H6). split; [exact H1|].
  repeat split; try assumption. left. now exists finalImageUrl.
Qed.

Lemma pending_error (err : Caught) (a : ConversationItem) :
  isErrorInstance err = true ->
  pending aid promptToGenerate a ->
  item_id a = aid /\ settled aid promptToGenerate (withError (errorMessageOf err) a).
Proof.
  intros He (H1 & H2 & H3 & H4 & H5 & H6). split; [exact H1|].
  repeat split; try assumption. right. exists (caughtMessage err).
  unfold errorMessageOf. rewrite He. split; reflexivity.
Qed.

Lemma titleFromText_ends (P : ConversationItem -> Prop) (b : bool)
    (details : PosterDetails) (st : AppState) :
  for_session sid (ends_with user P) (allSessions st) ->
  for_session sid (ends_with user P)
    (allSessions (titleFromText closure promptToGenerate b details st)).
Proof.
  intros H. unfold titleFromText.
  destruct (find_session _ _); [|exact H].
  destruct (_ || _ || _); [|exact H].
  destruct (truthy (englishText details)); [now apply ends_title|].
  destruct (truthy (teluguText details)); [now apply ends_title|exact H].
Qed.

(** The [try] block on a pending response item: the item ends with the
    image, or an [Error] is thrown and the item is still pending. *)
Lemma tryGeneration_settles (b : bool) (st : AppState) :
  for_session sid (ends_with user (pending aid promptToGenerate)) (allSessions st) ->
  match snd (try_generation b st) with
  | None =>
      for_session sid (ends_with user (settled aid promptToGenerate))
        (allSessions (fst (try_generation b st)))
  | Some err =>
      isErrorInstance err = true
      /\ for_session sid (ends_with user (pending aid promptToGenerate))
           (allSessions (fst (try_generation b st)))
  end.
Proof.
  intros Hst. unfold tryGeneration.
  destruct (extractPosterDetailsFromPrompt _ _ _ _ _) as [details|e];
    [|split; [reflexivity|exact Hst]].
  cbv zeta.
  assert (H1 : for_session sid (ends_with user (pending aid promptToGenerate))
                 (allSessions (updateActiveItems env closure
                    (withLoadingStep (lit "Creating background image...")) st))).
  { apply (ends_items _ _ _ _ Hst). apply pending_loadingStep. }
  destruct (truthy (theme details)); [|split; [reflexivity|exact H1]]. cbn [negb].
  pose proof (titleFromText_ends _ b details _ H1) as H2.
  destruct (generateImageWithGemini _ _) as [baseImageUrl|e];
    [|split; [reflexivity|exact H2]].
  destruct (truthy baseImageUrl); [|split; [reflexivity|exact H2]]. cbn [negb].
  assert (H3 : for_session sid (ends_with user (pending aid promptToGenerate))
                 (allSessions (updateActiveItems env closure
                    (withLoadingStep (lit "Adding text to your poster..."))
                    (titleFromText closure promptToGenerate b details
                       (updateActiveItems env closure
                          (withLoadingStep (lit "Creating background image...")) st))))).
  { apply (ends_items _ _ _ _ H2). apply pending_loadingStep. }
  destruct (drawImageWithTextOverlay _ _ _ _ _ _) as [finalImageUrl|e]; cbn [fst snd].
  - apply (ends_items _ _ _ _ H3). apply pending_image.
  - split; [reflexivity|exact H3].
Qed.

Lemma proceedWithGeneration_settles (st : AppState) :
  truthy (trim promptToGenerate) = true ->
  truthy sid = true ->
  for_session sid (ends_with user (settled aid promptToGenerate)) (allSessions (proceed st)).
Proof.
  intros Hp Ha. unfold proceedWithGeneration. rewrite Hp, Ha. cbn [negb orb].
  destruct (summarizeTitle _ _ _ _) as [st1 b].
  set (st2 := setAllSessions _ st1).
  assert (H2 : for_session sid (ends_with user (pending aid promptToGenerate))
                 (allSessions st2)).
  { unfold st2, setAllSessions. cbn [allSessions].
    apply (for_session_items _ _ (fun _ => True)); [intros s _ _; exact I|].
    intros s _. exists (items s), (aiInitialMessage env promptToGenerate).
    split; [reflexivity|]. repeat split. }
  pose proof (tryGeneration_settles b st2 H2) as H3.
  destruct (try_generation b st2) as [st3 thrown]. cbn [fst snd] in H3.
  destruct thrown as [err|]; [|exact H3].
  destruct H3 as [He H3]. unfold finallyGeneration, updateActiveItems, setAllSessions.
  cbn [allSessions].
  apply (ends_items _ _ _ _ H3).
  intros a. now apply pending_error.
Qed.

(** The summary sets the title only of a session found under the title
    "New Chat". *)
Lemma summarizeTitle_flag (st : AppState) :
  snd (summarizeTitle env closure promptToGenerate st) = true ->
  exists s, find_session sid (allSessions closure) = Some s
            /\ streq (title s) newChat = true.
Proof.
  unfold summarizeTitle. destruct (find_session _ _) as [s|]; [|discriminate].
  destruct (streq (title s) newChat) eqn:E; [|discriminate].
  intros _. exists s. split; [reflexivity|exact E].
Qed.

Lemma title_items (t : jsstring) (f : list ConversationItem -> list ConversationItem)
    (l : list ConversationSession) :
  for_session sid (fun s => title s = t) l ->
  for_session sid (fun s => title s = t) (updateSessionItems sid f l).
Proof.
  intros H. apply (for_session_items _ _ _ _ _ H). intros s Hs. exact Hs.
Qed.

(** Past the theme check, the title is the start of the poster's text. *)
Lemma tryGeneration_title (b : bool) (details : PosterDetails) (cs : ConversationSession)
    (st : AppState) :
  find_session sid (allSessions closure) = Some cs ->
  (b = true -> streq (title cs) newChat = true) ->
  extractPosterDetailsFromPrompt fenceBody JSON_parse mentionsApiKey
    (contentResponse env) langPref = Returned details ->
  truthy (theme details) = true ->
  truthy (englishText details) || truthy (teluguText details) = true ->
  for_session sid
    (fun s => title s
              = truncate40 (if truthy (englishText details) then englishText details
                            else teluguText details))
    (allSessions (fst (try_generation b st))).
Proof.
  intros Hfind Hb Hextract Htheme Htext. unfold tryGeneration.
  rewrite Hextract, Htheme. cbv zeta. cbn [negb].
  set (st1 := updateActiveItems env closure _ st).
  set (T := truncate40 _).
  assert (H2 : for_session sid (fun s => title s = T)
                 (allSessions (titleFromText closure promptToGenerate b details st1))).
  { unfold titleFromText. rewrite Hfind.
    assert (Hc : negb b || streq (title cs) newChat
                 || streq (title cs) (truncate40 promptToGenerate) = true).
    { destruct b; [now rewrite (Hb eq_refl)|reflexivity]. }
    rewrite Hc. unfold T.
    destruct (truthy (englishText details)).
    - apply (for_session_title _ _ (fun _ => True)); [intros s _ _; exact I|].
      intros s _. reflexivity.
    - cbn [orb] in Htext. rewrite Htext.
      apply (for_session_title _ _ (fun _ => True)); [intros s _ _; exact I|].
      intros s _. reflexivity. }
  destruct (generateImageWithGemini _ _) as [baseImageUrl|e]; [|exact H2].
  destruct (truthy baseImageUrl); [|exact H2]. cbn [negb].
  destruct (drawImageWithTextOverlay _ _ _ _ _ _) as [finalImageUrl|e]; cbn [fst];
    now repeat apply title_items.
Qed.

End GenerationFacts.

Lemma framed_start (sessionId : jsstring) (st : AppState) :
  recent_first (allSessions st) -> framed sessionId st st.
Proof.
  intros H. split; [apply same_but_refl|]. repeat split. exact H.
Qed.

(** X17. A run of [proceedWithGeneration] changes nothing in the session
    list but the items and the title of the session the callback was
    created for: on a list in order, every other session is left as it was,
    no session is added, removed or moved, none changes its identifier or
    its creation time, and the list stays in order.  The active session,
    the prompt box and the modal are left alone, and the run ends with the
    loading flag off. *)
Theorem generation_touches_one_session
    (measureText : Font -> jsstring -> Q)
    (fenceBody : jsstring -> option jsstring) (JSON_parse : jsstring -> Parsed)
    (mentionsApiKey : jsstring -> bool) (dataUrlString : DataURL -> jsstring)
    (env : GenerationEnv) (closure : AppState)
    (promptToGenerate : jsstring) (langPref : LanguagePreference) (st : AppState) :
  recent_first (allSessions st) ->
  let st' := proceedWithGeneration measureText fenceBody JSON_parse mentionsApiKey
               dataUrlString env closure promptToGenerate langPref st in
  framed (activeSessionId closure) st st' /\ isOverallLoading st' = false.
Proof.
  intros Hr st'. split.
  - apply proceedWithGeneration_invariant; [..|now apply framed_start].
    + intros f s. apply framed_items.
    + intros t s. apply framed_title.
    + intros b s H. exact H.
    + intros s H. exact H.
  - unfold st', proceedWithGeneration.
    destruct (_ || _); [reflexivity|].
    destruct (summarizeTitle _ _ _ _) as [st1 b].
    destruct (tryGeneration _ _ _ _ _ _ _ _ _ _ _) as [st2 thrown]. reflexivity.
Qed.

Lemma generation_touches_one_session_witness :
  recent_first (allSessions sample_sessions)
  /\ framed (activeSessionId sample_sessions) sample_sessions
       (proceedWithGeneration mono no_fence sample_parse no_api_key sample_encoding
          sample_env sample_sessions ugadi both sample_sessions)
  /\ isOverallLoading
       (proceedWithGeneration mono no_fence sample_parse no_api_key sample_encoding
          sample_env sample_sessions ugadi both sample_sessions) = false.
Proof.
  assert (H : recent_first (allSessions sample_sessions)).
  { simpl. split; [|exact I]. vm_compute. discriminate. }
  split; [exact H|].
  apply (generation_touches_one_session mono no_fence sample_parse no_api_key
           sample_encoding sample_env sample_sessions ugadi both sample_sessions H).
Defined.

(** X18. A run of [proceedWithGeneration] on a prompt that is not blank,
    from a callback with an active session, leaves at the end of that
    session the user's message followed by the response item, and the
    response item is settled: it carries the identifier and the query of
    the run, is no longer loading, and has either an image and no error
    text, or no image and an error text that begins "Failed to create
    poster: ".  The loading flag, the pending prompt and the pending
    language preference are cleared. *)
Theorem generation_settles_item
    (measureText : Font -> jsstring -> Q)
    (fenceBody : jsstring -> option jsstring) (JSON_parse : jsstring -> Parsed)
    (mentionsApiKey : jsstring -> bool) (dataUrlString : DataURL -> jsstring)
    (env : GenerationEnv) (closure : AppState)
    (promptToGenerate : jsstring) (langPref : LanguagePreference) (st : AppState) :
  truthy (trim promptToGenerate) = true ->
  truthy (activeSessionId closure) = true ->
  let st' := proceedWithGeneration measureText fenceBody JSON_parse mentionsApiKey
               dataUrlString env closure promptToGenerate langPref st in
  for_session (activeSessionId closure)
    (ends_with (userMessage env promptToGenerate)
       (settled (aiResponseId env) promptToGenerate))
    (allSessions st')
  /\ isOverallLoading st' = false
  /\ pendingPrompt st' = []
  /\ languagePreferenceForGeneration st' = None.
Proof.
  intros Hp Ha st'. split; [now apply proceedWithGeneration_settles|].
  unfold st', proceedWithGeneration. rewrite Hp, Ha. cbn [negb orb].
  destruct (summarizeTitle _ _ _ _) as [st1 b].
  destruct (tryGeneration _ _ _ _ _ _ _ _ _ _ _) as [st3 thrown].
  repeat split.
Qed.

Lemma generation_settles_item_witness :
  for_session (activeSessionId sample_sessions)
    (ends_with (userMessage sample_env ugadi) (settled (aiResponseId sample_env) ugadi))
    (allSessions
       (proceedWithGeneration mono no_fence sample_parse no_api_key sample_encoding
          sample_env sample_sessions ugadi both sample_sessions))
  /\ isOverallLoading
       (proceedWithGeneration mono no_fence sample_parse no_api_key sample_encoding
          sample_env sample_sessions ugadi both sample_sessions) = false
  /\ pendingPrompt
       (proceedWithGeneration mono no_fence sample_parse no_api_key sample_encoding
          sample_env sample_sessions ugadi both sample_sessions) = []
  /\ languagePreferenceForGeneration
       (proceedWithGeneration mono no_fence sample_parse no_api_key sample_encoding
          sample_env sample_sessions ugadi both sample_sessions) = None.
Proof.
  apply (generation_settles_item mono no_fence sample_parse no_api_key sample_encoding
           sample_env sample_sessions ugadi both sample_sessions); reflexivity.
Defined.

Lemma image_returned (mentionsApiKey : jsstring -> bool) (response : ImageProviderOutcome)
    (url : jsstring) :
  generateImageWithGemini mentionsApiKey response = ImageReturned url ->
  exists base64ImageBytes,
    response = ImagesResponse (Some base64ImageBytes)
    /\ url = dataUrlPrefix ++ base64ImageBytes.
Proof.
  unfold generateImageWithGemini, rethrowImage.
  destruct response as [[bytes|]|[|] message];
    try (destruct (mentionsApiKey _); discriminate); try discriminate.
  destruct (truthy bytes); [|destruct (mentionsApiKey _); discriminate].
  intros H. injection H as <-. now exists bytes.
Qed.

(** None of the messages the services and the overlay throw begins with
    the letter the background-image message begins with. *)
Lemma not_noBackgroundMessage (message : jsstring) :
  hd 0%N message <> 84%N -> message <> noBackgroundMessage.
Proof. intros H ->. now apply H. Qed.

(** X19. What the [try] block of [proceedWithGeneration] does is decided
    by its three calls.  When it completes, the content service
    returned details with a theme, the image service answered with image
    bytes, and the overlay, drawn on the data URL of those bytes with the
    two texts of the details, resolved.  Otherwise it throws an [Error]
    instance, so that the "unknown error" text of the [catch] is never
    used, with the message of the stage that failed; the check of the
    image URL (line 373) is never the one that throws. *)
Theorem tryGeneration_outcome
    (measureText : Font -> jsstring -> Q)
    (fenceBody : jsstring -> option jsstring) (JSON_parse : jsstring -> Parsed)
    (mentionsApiKey : jsstring -> bool) (dataUrlString : DataURL -> jsstring)
    (env : GenerationEnv) (closure : AppState)
    (promptToGenerate : jsstring) (langPref : LanguagePreference)
    (titleUpdatedBySummarization : bool) (st : AppState) :
  let extracted := extractPosterDetailsFromPrompt fenceBody JSON_parse mentionsApiKey
                     (contentResponse env) langPref in
  let overlay details base64ImageBytes :=
    drawImageWithTextOverlay measureText (canvasRefCurrent env) (loadImage env)
      (dataUrlPrefix ++ base64ImageBytes) (englishText details) (teluguText details) in
  match snd (tryGeneration measureText fenceBody JSON_parse mentionsApiKey dataUrlString
               env closure promptToGenerate langPref titleUpdatedBySummarization st) with
  | None =>
      exists details base64ImageBytes finalImageUrl,
        extracted = Returned details
        /\ truthy (theme details) = true
        /\ imagesResponse env = ImagesResponse (Some base64ImageBytes)
        /\ overlay details base64ImageBytes = Resolved finalImageUrl
  | Some err =>
      isErrorInstance err = true
      /\ errorMessageOf err = lit "Failed to create poster: " ++ caughtMessage err
      /\ caughtMessage err <> noBackgroundMessage
      /\ ((exists e, extracted = Threw e /\ caughtMessage err = serviceErrorMessage e)
          \/ (exists details,
                extracted = Returned details /\ theme details = []
                /\ caughtMessage err = noThemeMessage)
          \/ (exists e,
                generateImageWithGemini mentionsApiKey (imagesResponse env) = ImageThrew e
                /\ caughtMessage err = imageErrorMessage e)
          \/ (exists details base64ImageBytes e,
                extracted = Returned details
                /\ imagesResponse env = ImagesResponse (Some base64ImageBytes)
                /\ overlay details base64ImageBytes = Rejected e
                /\ caughtMessage err = overlayErrorMessage e))
  end.
Proof.
  intros extracted overlay. unfold tryGeneration. fold extracted.
  destruct extracted as [details|e] eqn:Hextract; cbv zeta.
  - destruct (truthy (theme details)) eqn:Htheme; cbn [negb].
    + destruct (generateImageWithGemini mentionsApiKey (imagesResponse env))
        as [baseImageUrl|e] eqn:Himage.
      * destruct (image_returned _ _ _ Himage) as (bytes & Hresponse & ->).
        change (truthy (dataUrlPrefix ++ bytes)) with true. cbn [negb].
        fold (overlay details bytes).
        destruct (overlay details bytes) as [finalImageUrl|e] eqn:Hoverlay; cbn [snd].
        -- now exists details, bytes, finalImageUrl.
        -- repeat split.
           ++ apply not_noBackgroundMessage. destruct e; cbn; discriminate.
           ++ right. right. right. now exists details, bytes, e.
      * cbn [snd]. repeat split.
        -- apply not_noBackgroundMessage. destruct e; cbn; discriminate.
        -- right. right. left. now exists e.
    + cbn [snd]. repeat split.
      * apply not_noBackgroundMessage. cbn. discriminate.
      * right. left. exists details. repeat split. now apply truthy_false.
  - cbn [snd]. repeat split.
    + apply not_noBackgroundMessage. destruct e; cbn; discriminate.
    + left. now exists e.
Qed.

(** ** From the language preference to the poster *)

Lemma extract_enforced
    (fenceBody : jsstring -> option jsstring) (JSON_parse : jsstring -> Parsed)
    (mentionsApiKey : jsstring -> bool)
    (response : ProviderOutcome) (languagePreference : LanguagePreference)
    (details : PosterDetails) :
  extractPosterDetailsFromPrompt fenceBody JSON_parse mentionsApiKey response languagePreference
  = Returned details ->
  exists parsedData, details = enforceLanguagePreference languagePreference parsedData.
Proof.
  unfold extractPosterDetailsFromPrompt, rethrow.
  destruct response as [text|[|] message].
  - destruct (JSON_parse _) as [| |[th|] [en|] [te|]];
      try (destruct (mentionsApiKey _); discriminate).
    intros H. injection H as <-. now eexists.
  - destruct (mentionsApiKey message); discriminate.
  - discriminate.
Qed.

Lemma enforce_english (parsedData : PosterDetails) :
  teluguText (enforceLanguagePreference english parsedData) = [].
Proof. destruct parsedData as [th en [|c te]]; reflexivity. Qed.

Lemma enforce_telugu (parsedData : PosterDetails) :
  englishText (enforceLanguagePreference telugu parsedData) = [].
Proof. destruct parsedData as [th [|c en] te]; reflexivity. Qed.

(** A text operation in a block's font is painted only when the block's
    text is present. *)
Lemma onload_families (measureText : Font -> jsstring -> Q) (img : Image)
    (engText telText : jsstring) :
  Forall (fun op =>
            (op_family op = Some InterArialSansSerif -> hasText engText = true)
            /\ (op_family op = Some NotoSansTelugu -> hasText telText = true))
         (painted (snd (onload measureText img engText telText))).
Proof.
  unfold onload. cbv zeta. cbn [snd].
  set (w := num (imgWidth img)). set (h := num (imgHeight img)).
  set (c0 := set_align true true (paint (DrawImage img 0 0) reset_ctx)).
  set (s := solve measureText engText telText w h w h c0).
  destruct (compose_ops engText telText w h s) as (Hp & _).
  pose proof (solve_painted measureText engText telText w h w h c0) as Hp0.
  fold s in Hp0. simpl in Hp0. rewrite Hp0 in Hp. rewrite Hp.
  assert (Hblock : forall (b : bool) (f : Font) (st : Style) x n cy lh lines P,
             font st = f ->
             (forall op, op_family op = Some (fontFamily f) -> b = true -> P op) ->
             Forall P (if b then block_ops st x 0 n cy lh lines else [])).
  { intros b f st x n cy lh lines P Hf HP. destruct b; [|constructor].
    apply Forall_forall. intros op Hin.
    destruct (block_ops_pairs st x n cy lh lines 0%nat) as (_ & _ & _ & Hops).
    destruct (Hops op Hin) as (t & y & [->| ->]); apply HP; cbn; now rewrite ?Hf. }
  apply Forall_app. split; [|apply Forall_app; split].
  - constructor; [|constructor]. split; discriminate.
  - apply (Hblock _ (englishFont (englishFontSize s))); [reflexivity|].
    intros op Hop HE. rewrite Hop. split; [|discriminate].
    intros _. apply andb_true_iff in HE. apply HE.
  - apply (Hblock _ (teluguFont (teluguFontSize s))); [reflexivity|].
    intros op Hop HT. rewrite Hop. split; [discriminate|].
    intros _. apply andb_true_iff in HT. apply HT.
Qed.

Lemma overlay_bitmap (measureText : Font -> jsstring -> Q)
    (canvasRefCurrent : option HTMLCanvasElement) (load : jsstring -> option Image)
    (baseImageUrl engText telText : jsstring) (w h : N) (bitmap : list DrawOp) :
  drawImageWithTextOverlay measureText canvasRefCurrent load baseImageUrl engText telText
  = Resolved (PngDataURL w h bitmap) ->
  exists img, load baseImageUrl = Some img
              /\ bitmap = painted (snd (onload measureText img engText telText)).
Proof.
  unfold drawImageWithTextOverlay.
  destruct canvasRefCurrent as [canvas|]; [|discriminate].
  destruct (getContext2d canvas); [|discriminate].
  destruct (load baseImageUrl) as [img|]; [|discriminate].
  destruct (onload measureText img engText telText) as [s c0] eqn:E.
  intros H. injection H as _ _ <-. exists img. rewrite E. split; reflexivity.
Qed.

(** X20. The language preference holds all the way to the pixels: when
    the content service returns poster details under a preference and the
    overlay drawn with the two texts of these details resolves, then under
    ['english'] no text of the poster is painted in the Telugu font, and
    under ['telugu'] none is painted in the English font, whatever the
    provider put in its answer. *)
Theorem preference_reaches_poster
    (measureText : Font -> jsstring -> Q)
    (fenceBody : jsstring -> option jsstring) (JSON_parse : jsstring -> Parsed)
    (mentionsApiKey : jsstring -> bool)
    (response : ProviderOutcome) (languagePreference : LanguagePreference)
    (details : PosterDetails)
    (canvasRefCurrent : option HTMLCanvasElement) (load : jsstring -> option Image)
    (baseImageUrl : jsstring) (w h : N) (bitmap : list DrawOp) :
  extractPosterDetailsFromPrompt fenceBody JSON_parse mentionsApiKey response languagePreference
  = Returned details ->
  drawImageWithTextOverlay measureText canvasRefCurrent load baseImageUrl
    (englishText details) (teluguText details)
  = Resolved (PngDataURL w h bitmap) ->
  (languagePreference = english ->
   Forall (fun op => op_family op <> Some NotoSansTelugu) bitmap)
  /\ (languagePreference = telugu ->
      Forall (fun op => op_family op <> Some InterArialSansSerif) bitmap).
Proof.
  intros Hextract Hdraw.
  apply extract_enforced in Hextract as (parsedData & ->).
  apply overlay_bitmap in Hdraw as (img & _ & ->).
  pose proof (onload_families measureText img
                (englishText (enforceLanguagePreference languagePreference parsedData))
                (teluguText (enforceLanguagePreference languagePreference parsedData)))
    as Hfam.
  split; intros ->.
  - rewrite enforce_english in *. eapply Forall_impl; [|exact Hfam].
    intros op [_ HT] E. specialize (HT E). discriminate HT.
  - rewrite enforce_telugu in *. eapply Forall_impl; [|exact Hfam].
    intros op [HE _] E. specialize (HE E). discriminate HE.
Qed.

Lemma preference_reaches_poster_witness :
  (english = english ->
   Forall (fun op => op_family op <> Some NotoSansTelugu)
     (painted (snd (onload mono (mkImage [] 320 180) ugadi []))))
  /\ (english = telugu ->
      Forall (fun op => op_family op <> Some InterArialSansSerif)
        (painted (snd (onload mono (mkImage [] 320 180) ugadi [])))).
Proof.
  apply (preference_reaches_poster mono no_fence sample_parse no_api_key
           (ResponseText (lit "{}")) english
           (mkPosterDetails (lit "kites, bright festive colors") ugadi [])
           (Some sample_canvas) sample_load [] 320 180).
  - reflexivity.
  - vm_compute. reflexivity.
Defined.

(** ** Session titles and the language modal *)

(** X21. The title taken from the summary does not survive a poster with
    text.  The callback looks the session up in the list it captured, so
    the title it tests at line 353 is still the one found before the
    summary: when the session exists and the content service returns
    details with a theme and some text, the session ends the run titled
    with the first 40 code units of the English text (of the Telugu text
    when there is no English text), followed by "..." when the text is
    longer, whatever the summary returned and whether or not the image and
    the overlay succeed. *)
Theorem poster_text_names_session
    (measureText : Font -> jsstring -> Q)
    (fenceBody : jsstring -> option jsstring) (JSON_parse : jsstring -> Parsed)
    (mentionsApiKey : jsstring -> bool) (dataUrlString : DataURL -> jsstring)
    (env : GenerationEnv) (closure : AppState)
    (promptToGenerate : jsstring) (langPref : LanguagePreference)
    (currentSession : ConversationSession) (details : PosterDetails) (st : AppState) :
  truthy (trim promptToGenerate) = true ->
  truthy (activeSessionId closure) = true ->
  find_session (activeSessionId closure) (allSessions closure) = Some currentSession ->
  extractPosterDetailsFromPrompt fenceBody JSON_parse mentionsApiKey
    (contentResponse env) langPref = Returned details ->
  truthy (theme details) = true ->
  truthy (englishText details) || truthy (teluguText details) = true ->
  for_session (activeSessionId closure)
    (fun s => title s
              = truncate40 (if truthy (englishText details) then englishText details
                            else teluguText details))
    (allSessions
       (proceedWithGeneration measureText fenceBody JSON_parse mentionsApiKey dataUrlString
          env closure promptToGenerate langPref st)).
Proof.
  intros Hp Ha Hfind Hextract Htheme Htext.
  unfold proceedWithGeneration. rewrite Hp, Ha. cbn [negb orb].
  pose proof (summarizeTitle_flag env closure promptToGenerate
                (setIsOverallLoading true st)) as Hflag.
  destruct (summarizeTitle _ _ _ _) as [st1 b]. cbn [snd] in Hflag.
  assert (Hb : b = true -> streq (title currentSession) newChat = true).
  { intros E. destruct (Hflag E) as (s & Hs & Ht). congruence. }
  set (st2 := setAllSessions _ st1).
  pose proof (tryGeneration_title measureText fenceBody JSON_parse mentionsApiKey
                dataUrlString env closure promptToGenerate langPref b details
                currentSession st2 Hfind Hb Hextract Htheme Htext) as H3.
  destruct (tryGeneration _ _ _ _ _ _ _ _ _ _ _) as [st3 thrown]. cbn [fst] in H3.
  destruct thrown as [err|]; [|exact H3].
  unfold finallyGeneration, updateActiveItems, setAllSessions. cbn [allSessions].
  now apply title_items.
Qed.

Lemma poster_text_names_session_witness :
  for_session (activeSessionId sample_sessions)
    (fun s => title s = lit "Happy Ugadi to All!")
    (allSessions
       (proceedWithGeneration mono no_fence sample_parse no_api_key sample_encoding
          sample_env sample_sessions ugadi both sample_sessions)).
Proof.
  apply (poster_text_names_session mono no_fence sample_parse no_api_key sample_encoding
           sample_env sample_sessions ugadi both
           (mkSession (newSessionId 1700000000400) (lit "Ugadi Festival Poster")
              [sample_item] 1700000000400)
           (mkPosterDetails (lit "kites, bright festive colors") ugadi
              (lit "ugadi subhakankshalu"))
           sample_sessions); reflexivity.
Defined.



